(** * The dispatch-and-fallback orchestrator of [packages/ai/src/ai.ts]

    A shallow embedding of class [AI]: the adapter and tool registries,
    fallback resolution, the promise-mode operations ([chatPromise],
    [generateText], [summarize], [embed]), the streaming operations
    ([chatStream], [generateTextStream]) with their fallback walkers, the
    tool-execution loop of [chatStream], and [addAdapter].

    Conventions.
    - A JavaScript object used as a dictionary ([JsObject]) is the list of
      its own properties; those whose key is not an array index stand in the
      order in which they were created.  The
      adapter map and the tool registry are ordinary objects, whose
      prototype is [Object.prototype]: reading [o[k]] finds the own
      property [k] or else what [Object.prototype] defines under [k]
      ([obj_read]), and [Object.keys] lists the keys that are array indices
      first, in ascending numeric order, then the other keys in creation
      order ([obj_keys]).
    - A [Map] is an association list in insertion order:
      [Map.prototype.forEach] visits the entries in that order.
    - Backends are opaque and stateful: every adapter method is a function of
      the request and of an abstract [World], and returns the next [World].
    - A thrown value or rejection reason ([JsThrown]) is any value, [null]
      and [undefined] included.  Reading a property of one of these two, or
      calling what is not a function, throws a [TypeError]; its message is
      the engine's ([TypeError_message]).
    - An [async] function is a computation in the monad [M] (state plus a
      thrown value); an [async function*] is a computation in [G], which also
      collects the chunks it yields.
    - The state [Env] carries, besides the [World], the list of backend
      calls made so far and the lines written by [console.warn]. *)

From stdpp Require Import gmap strings list pretty.
From Stdlib Require Import ZArith String Ascii.

Local Open Scope string_scope.

(** ** JavaScript values that the model needs *)

(** The double quote and the line feed, for the template literals. *)
Definition dquote : string := String (ascii_of_nat 34) EmptyString.
Definition newline : string := String (ascii_of_nat 10) EmptyString.

Inductive Nullish : Type := JsNull | JsUndefined.

(** A thrown value.  [JsError m] is an instance of [Error], or of a subclass
    such as [TypeError] or [SyntaxError], whose [message] is [m].
    [JsNullish v] is [null] or [undefined].  [JsOther s m] is any other
    value: [String(v)] is [s] and [v.message] is [m] ([None] for
    [undefined]). *)
Inductive JsThrown : Type :=
| JsError (message : string)
| JsOther (text : string) (message : option string)
| JsNullish (v : Nullish).

Definition isNullish (e : JsThrown) : bool :=
  match e with
  | JsNullish _ => true
  | _ => false
  end.

(** [error.message] where [error] is neither [null] nor [undefined]; for
    these two the read throws, see [readMessage]. *)
Definition messageOf (e : JsThrown) : option string :=
  match e with
  | JsError m => Some m
  | JsOther _ m => m
  | JsNullish _ => None
  end.

(** [(error instanceof Error ? error : new Error(String(error))).message] *)
Definition asErrorMessage (e : JsThrown) : string :=
  match e with
  | JsError m => m
  | JsOther s _ => s
  | JsNullish JsNull => "null"
  | JsNullish JsUndefined => "undefined"
  end.

(** Why the engine throws a [TypeError] in this class: a property is read
    of [null] or [undefined], or what is called is [undefined].  [callee] is
    the called expression as the source writes it, the arguments of an
    inner call left out. *)
Inductive TypeErrorCause : Type :=
| ReadOfNullish (v : Nullish) (property : string)
| NotAFunction (callee : string).

(** [x || dflt] on strings: the empty string is falsy. *)
Definition orElse (x dflt : string) : string :=
  match x with
  | EmptyString => dflt
  | _ => x
  end.

(** *** Objects used as dictionaries *)

(** The own properties of an object; a key stands once in the list, and
    the keys that are not array indices stand in the order of their
    creation.  Where the array indices stand in the list is of no
    consequence: the class observes the order of the keys only through
    [Object.keys], which lists the array indices first and in ascending
    order, see [obj_keys]. *)
Definition JsObject (V : Type) : Type := list (string * V).

(** The own property [k] of [o]. *)
Fixpoint obj_get {V} (o : JsObject V) (k : string) : option V :=
  match o with
  | [] => None
  | (k', v) :: o' => if String.eqb k' k then Some v else obj_get o' k
  end.

(** [o[k] = v], and [{ ...o, [k]: v }] as a new object: the value of an own
    property is replaced where the property stands, a new property is
    created after the others.  The spread copies the own properties in the
    order of [Object.keys], which keeps the keys that are not array indices
    in their order. *)
Fixpoint obj_set {V} (o : JsObject V) (k : string) (v : V) : JsObject V :=
  match o with
  | [] => [(k, v)]
  | (k', v') :: o' =>
      if String.eqb k' k then (k', v) :: o' else (k', v') :: obj_set o' k v
  end.

(** The names under which [Object.prototype] defines a property: those of
    the language and the accessors of its Annex B.  Each of them is a
    function, or for [__proto__] the prototype object itself: a value that
    is truthy and has none of the properties of an adapter or of a tool. *)
Definition objectPrototypeKeys : list string :=
  ["constructor"; "hasOwnProperty"; "isPrototypeOf"; "propertyIsEnumerable";
   "toLocaleString"; "toString"; "valueOf"; "__proto__"; "__defineGetter__";
   "__defineSetter__"; "__lookupGetter__"; "__lookupSetter__"].

Definition inheritedKey (k : string) : bool :=
  existsb (String.eqb k) objectPrototypeKeys.

(** What a property read gives when it is not [undefined]: the value of an
    own property, or the value that [Object.prototype] holds under [key]. *)
Inductive JsProperty (V : Type) : Type :=
| Own (v : V)
| Inherited (key : string).
Arguments Own {V} v.
Arguments Inherited {V} key.

(** [o[k]]: [None] stands for [undefined]. *)
Definition obj_read {V} (o : JsObject V) (k : string) : option (JsProperty V) :=
  match obj_get o k with
  | Some v => Some (Own v)
  | None => if inheritedKey k then Some (Inherited k) else None
  end.

(** The value of a decimal digit. *)
Definition digitValue (c : ascii) : option N :=
  let n := N_of_ascii c in
  if ((48 <=? n) && (n <=? 57))%N then Some (n - 48)%N else None.

Fixpoint digitsValue (acc : N) (s : string) : option N :=
  match s with
  | EmptyString => Some acc
  | String c s' =>
      match digitValue c with
      | Some d => digitsValue (10 * acc + d)%N s'
      | None => None
      end
  end.

(** A key is an array index when it is the decimal numeral, without a
    leading zero, of an integer from 0 to 2^32 - 2. *)
Definition arrayIndex (k : string) : option N :=
  match k with
  | EmptyString => None
  | String c more =>
      match digitsValue 0 k with
      | Some n =>
          let canonical :=
            match more with
            | EmptyString => true
            | _ => negb (N_of_ascii c =? 48)%N
            end in
          if canonical && (n <=? 4294967294)%N then Some n else None
      | None => None
      end
  end.

Definition isArrayIndex (k : string) : bool :=
  match arrayIndex k with Some _ => true | None => false end.

(** The place of the index [i] among indices in ascending order. *)
Fixpoint insertIndex (i : N) (k : string) (sorted : list (N * string))
  : list (N * string) :=
  match sorted with
  | [] => [(i, k)]
  | (j, k') :: more =>
      if (i <? j)%N then (i, k) :: sorted else (j, k') :: insertIndex i k more
  end.

(** One step of the collection of the array indices: an array index is
    put at its place, another key is left out. *)
Definition collectIndex (sorted : list (N * string)) (k : string) : list (N * string) :=
  match arrayIndex k with
  | Some i => insertIndex i k sorted
  | None => sorted
  end.

(** The array indices among [ks], in ascending order. *)
Definition indexKeys (ks : list string) : list (N * string) :=
  fold_left collectIndex ks [].

(** Ascending order of indexed keys. *)
Fixpoint ascendingKeys (sorted : list (N * string)) : Prop :=
  match sorted with
  | [] => True
  | (i, _) :: more => Forall (fun jk => (i <= fst jk)%N) more /\ ascendingKeys more
  end.

(** The keys of [ks] that are not array indices, in their order. *)
Definition nameKeys (ks : list string) : list string :=
  List.filter (fun k => negb (isArrayIndex k)) ks.

(** The order in which the own keys [ks], given in creation order, are
    enumerated. *)
Definition ownKeysOrder (ks : list string) : list string :=
  (map snd (indexKeys ks) ++ nameKeys ks)%list.

(** [Object.keys(o)] *)
Definition obj_keys {V} (o : JsObject V) : list string := ownKeysOrder (map fst o).

(** *** [Map<number, V>] *)

Definition JsMap (V : Type) : Type := list (Z * V).

Fixpoint map_get {V} (m : JsMap V) (k : Z) : option V :=
  match m with
  | [] => None
  | (k', v) :: m' => if Z.eqb k' k then Some v else map_get m' k
  end.

(** [m.set(k, v)]: an existing key keeps its place, a new key goes last. *)
Fixpoint map_set {V} (m : JsMap V) (k : Z) (v : V) : JsMap V :=
  match m with
  | [] => [(k, v)]
  | (k', v') :: m' =>
      if Z.eqb k' k then (k', v) :: m' else (k', v') :: map_set m' k v
  end.

(** ** Data of the orchestrator *)

(** [AdapterFallback]: one (adapter, model) pair of a fallback chain. *)
Record AdapterFallback : Type := mkFallback {
  adapter : string;
  model : string
}.

(** One element of the [errors] array of the walkers; [error] is always an
    [Error] object there, of which only the message is read. *)
Record Failure : Type := mkFailure {
  f_adapter : string;
  f_model : string;
  f_message : string
}.

(** [ToolCall] of [./types]. *)
Record ToolCall : Type := mkToolCall {
  tc_id : string;
  tc_name : string;        (* function.name *)
  tc_arguments : string    (* function.arguments *)
}.

(** The entries of [toolCallsMap]. *)
Record PendingCall : Type := mkPending {
  p_id : string;
  p_name : string;
  p_args : string
}.

Inductive Role : Type := RSystem | RUser | RAssistant | RTool.

(** A conversation message. *)
Record Message : Type := mkMessage {
  role : Role;
  content : option string;
  toolCalls : option (list ToolCall);
  toolCallId : option string;
  name : option string
}.

(** The fields shared by all stream chunks. *)
Record ChunkMeta : Type := mkMeta {
  chunk_id : string;
  chunk_model : string;
  chunk_timestamp : Z
}.

(** [StreamChunk] of [./types], by its [type] tag. *)
Inductive StreamChunk : Type :=
| ContentChunk (meta : ChunkMeta) (delta text : string) (chunk_role : option string)
| ToolCallChunk (meta : ChunkMeta) (toolCall : ToolCall) (index : Z)
| DoneChunk (meta : ChunkMeta) (finishReason : option string)
| ErrorChunk (meta : ChunkMeta) (error_message : string).

(** [chunk.type === "error"], with [chunk.error.message] *)
Definition chunkError (c : StreamChunk) : option string :=
  match c with
  | ErrorChunk _ m => Some m
  | _ => None
  end.

Definition isErrorChunk (c : StreamChunk) : bool :=
  match chunkError c with Some _ => true | None => false end.

(** What an [AsyncIterable] does when it is consumed: it ends, it raises, or
    it yields a chunk and goes on. *)
Inductive Stream (C : Type) : Type :=
| SDone
| SRaise (e : JsThrown)
| SYield (c : C) (rest : Stream C).
Arguments SDone {C}.
Arguments SRaise {C} e.
Arguments SYield {C} c rest.

(** The stream that yields the chunks of [cs] and then behaves as [s]. *)
Fixpoint yields {C} (cs : list C) (s : Stream C) : Stream C :=
  match cs with
  | [] => s
  | c :: cs' => SYield c (yields cs' s)
  end.

(** The two shapes of the options of a call, told apart by
    ["adapter" in options]: [adapter] and [model] given, or not.  In both,
    [fallbacks] is a list or is absent ([None], the value [undefined]); the
    option types ask for it when no adapter is given, the code reads it
    either way. *)
Inductive Target : Type :=
| WithAdapter (adapter model : string) (fallbacks : option (list AdapterFallback))
| FallbackOnly (fallbacks : option (list AdapterFallback)).

(** A request as an adapter receives it. *)
Record Request (P : Type) : Type := mkRequest {
  req_model : string;
  req_stream : option bool;
  req_body : P
}.
Arguments mkRequest {P} _ _ _.
Arguments req_model {P} _.
Arguments req_stream {P} _.
Arguments req_body {P} _.

(** The options of [generateText], [summarize] and [embed]. *)
Record CallOptions (P : Type) : Type := mkCallOptions {
  target : Target;
  rest : P
}.
Arguments mkCallOptions {P} _ _.
Arguments target {P} _.
Arguments rest {P} _.

(** ** Messages of the errors the orchestrator raises *)

Definition adapterNotFoundMessage (name : string) (keys : list string) : string :=
  "Adapter " ++ dquote ++ name ++ dquote ++ " not found. Available adapters: "
    ++ String.concat ", " keys.

Definition toolNotFoundMessage (name : string) (keys : list string) : string :=
  "Tool " ++ dquote ++ name ++ dquote ++ " not found. Available tools: "
    ++ String.concat ", " keys.

Definition noFallbacksMessage : string :=
  "No fallbacks specified. Either provide fallbacks in options or configure fallbacks in constructor.".

Definition failureLine (e : Failure) : string :=
  "  - " ++ f_adapter e ++ " (" ++ f_model e ++ "): " ++ f_message e.

Definition allAdaptersFailedMessage (operationName : string) (errors : list Failure) : string :=
  "All adapters failed for " ++ operationName ++ ":" ++ newline
    ++ String.concat newline (map failureLine errors).

(** The first argument of the [console.warn] of the walkers. *)
Definition adapterFailedWarning (kind : string) (a m operationName : string) : string :=
  "[AI] " ++ kind ++ " " ++ dquote ++ a ++ dquote ++ " with model " ++ dquote ++ m
    ++ dquote ++ " failed for " ++ operationName ++ ":".

(** [fallbacks && fallbacks.length > 0 ? fallbacks : this.fallbacks] *)
Definition effectiveFallbacks (fallbacks dflt : option (list AdapterFallback))
  : option (list AdapterFallback) :=
  match fallbacks with
  | Some (f :: fs) => Some (f :: fs)
  | _ => dflt
  end.

(** [!fallbackList || fallbackList.length === 0] *)
Definition noFallbacks (fallbackList : option (list AdapterFallback)) : bool :=
  match fallbackList with
  | Some (_ :: _) => false
  | _ => true
  end.

(** The list a non-empty [fallbackList] holds ([[]] when it is absent). *)
Definition chainOf (fallbackList : option (list AdapterFallback)) : list AdapterFallback :=
  match fallbackList with
  | Some l => l
  | None => []
  end.

(** ** The orchestrator over abstract backends *)

(** What the orchestrator takes from outside: the state of the backends,
    the network, the clock and the random generator ([World]); the types of
    [./types] that it only passes along; [JSON.parse], which returns a value
    or throws a [SyntaxError] (given by its message); the JSON text of a
    string ([JSON.stringify] on a string); the built-ins that [generateId]
    reads; and the message that the engine gives a [TypeError]. *)
Class Platform : Type := {
  World : Type;
  ChatParams : Type;
  ChatCompletionResult : Type;
  TextGenerationOptions : Type;
  TextGenerationResult : Type;
  SummarizationOptions : Type;
  SummarizationResult : Type;
  EmbeddingOptions : Type;
  EmbeddingResult : Type;
  Json : Type;
  JSON_parse : string -> Json + string;
  JSON_stringify_string : string -> string;
  Date_now : World -> Z * World;
  Math_random_base36 : World -> string * World;
  TypeError_message : TypeErrorCause -> string
}.

Section Orchestrator.

Context `{Platform}.

(** *** State and the two monads *)

(** A backend call, as recorded: the registry name of the adapter and the
    model of the request. *)
Record BackendCall : Type := mkCall {
  call_adapter : string;
  call_model : string
}.

Record Env : Type := mkEnv {
  world : World;
  calls : list BackendCall;
  console : list (string * option string)
}.

(** An [async] function: a result or a thrown value, and the next state. *)
Definition M (A : Type) : Type := Env -> (A + JsThrown) * Env.

Definition ret {A} (a : A) : M A := fun st => (inl a, st).

Definition throw {A} (e : JsThrown) : M A := fun st => (inr e, st).

Definition bind {A B} (m : M A) (k : A -> M B) : M B :=
  fun st =>
    match m st with
    | (inl a, st') => k a st'
    | (inr e, st') => (inr e, st')
    end.

(** [try { m } catch (error) { handler(error) }] *)
Definition tryCatch {A} (m : M A) (handler : JsThrown -> M A) : M A :=
  fun st =>
    match m st with
    | (inl a, st') => (inl a, st')
    | (inr e, st') => handler e st'
    end.

(** Lifting of a synchronous lookup that may throw. *)
Definition liftE {A} (r : A + JsThrown) : M A := fun st => (r, st).

(** The [TypeError] that the engine throws for [cause]. *)
Definition typeError (cause : TypeErrorCause) : JsThrown :=
  JsError (TypeError_message cause).

(** [error.message] as an expression: the message, [None] when the value
    has none, or the [TypeError] thrown when [error] is [null] or
    [undefined]. *)
Definition readMessage (error : JsThrown) : option string + JsThrown :=
  match error with
  | JsNullish v => inr (typeError (ReadOfNullish v "message"))
  | _ => inl (messageOf error)
  end.

(** The state after [console.warn(text, error.message)] has written its
    line. *)
Definition warnEnv (text : string) (e : JsThrown) (st : Env) : Env :=
  {| world := world st;
     calls := calls st;
     console := console st ++ [(text, messageOf e)] |}.

(** [console.warn(text, error.message)]: the arguments are evaluated first,
    so nothing is written when reading the message throws. *)
Definition console_warn (text : string) (e : JsThrown) : M unit :=
  fun st =>
    match readMessage e with
    | inr thrown => (inr thrown, st)
    | inl _ => (inl tt, warnEnv text e st)
    end.

(** An [async function*]: the chunks yielded, then a normal end or a thrown
    value, and the next state. *)
Definition G (C A : Type) : Type := Env -> list C * (A + JsThrown) * Env.

(** *** Tools and adapters *)

(** [Tool] of [./types]: the name of its function and, when it has one, its
    [execute] function. *)
Record Tool : Type := mkTool {
  tool_name : string;
  tool_execute : option (Json -> World -> (string + JsThrown) * World)
}.

(** What is left of the chat options once [adapter], [model], [fallbacks],
    [as] and [tools] are taken out. *)
Record ChatRest : Type := mkChatRest {
  rest_messages : list Message;
  rest_maxIterations : option Z;
  rest_params : ChatParams
}.

(** The array that [getToolsByNames] returns: what the registry gives
    under each name, a tool or a value of [Object.prototype]. *)
Definition ToolObjects : Type := list (JsProperty Tool).

(** The body of [ChatCompletionOptions]. *)
Record ChatBody : Type := mkChatBody {
  messages : list Message;
  tools : option ToolObjects;
  maxIterations : option Z;
  params : ChatParams
}.

Definition ChatCompletionOptions : Type := Request ChatBody.

(** The options of [chat]: [tools] holds names of the tool registry. *)
Record ChatOptions : Type := mkChatOptions {
  chat_target : Target;
  chat_tools : option (list string);
  chat_rest : ChatRest
}.

(** [AIAdapter] of [./types]: the six operations of a backend. *)
Record AIAdapter : Type := mkAdapter {
  a_chatCompletion :
    ChatCompletionOptions -> World -> (ChatCompletionResult + JsThrown) * World;
  a_chatStream :
    ChatCompletionOptions -> World -> Stream StreamChunk * World;
  a_generateText :
    Request TextGenerationOptions -> World -> (TextGenerationResult + JsThrown) * World;
  a_generateTextStream :
    Request TextGenerationOptions -> World -> Stream string * World;
  a_summarize :
    Request SummarizationOptions -> World -> (SummarizationResult + JsThrown) * World;
  a_createEmbeddings :
    Request EmbeddingOptions -> World -> (EmbeddingResult + JsThrown) * World
}.

(** The fields of an [AI] instance. *)
Record AI : Type := mkAI {
  adapters : JsObject AIAdapter;
  fallbacks : option (list AdapterFallback);
  toolRegistry : JsObject Tool
}.

(** [getAdapter(name)]: what [this.adapters[name]] gives, unless that is
    [undefined]. *)
Definition getAdapter (this : AI) (name : string) : JsProperty AIAdapter + JsThrown :=
  match obj_read (adapters this) name with
  | Some a => inl a
  | None => inr (JsError (adapterNotFoundMessage name (obj_keys (adapters this))))
  end.

(** [get adapterNames()] *)
Definition adapterNames (this : AI) : list string := obj_keys (adapters this).

(** [getTool(name)]: what [this.tools[name]] gives, unless that is
    [undefined]. *)
Definition getTool (this : AI) (name : string) : JsProperty Tool + JsThrown :=
  match obj_read (toolRegistry this) name with
  | Some t => inl t
  | None => inr (JsError (toolNotFoundMessage name (obj_keys (toolRegistry this))))
  end.

(** [get toolNames()] *)
Definition toolNames (this : AI) : list string := obj_keys (toolRegistry this).

(** [getToolsByNames(names)]: [names.map(name => this.getTool(name))]; the
    first unknown name throws. *)
Fixpoint getToolsByNames (this : AI) (names : list string) : ToolObjects + JsThrown :=
  match names with
  | [] => inl []
  | n :: names' =>
      match getTool this n with
      | inr e => inr e
      | inl t =>
          match getToolsByNames this names' with
          | inr e => inr e
          | inl ts => inl (t :: ts)
          end
      end
  end.

(** [tools ? this.getToolsByNames(tools) : undefined] *)
Definition resolveTools (this : AI) (names : option (list string))
  : option ToolObjects + JsThrown :=
  match names with
  | None => inl None
  | Some ns =>
      match getToolsByNames this ns with
      | inl ts => inl (Some ts)
      | inr e => inr e
      end
  end.

(** *** Calling a backend *)

Definition recordCall (a m : string) (w : World) (st : Env) : Env :=
  {| world := w;
     calls := calls st ++ [mkCall a m];
     console := console st |}.

(** [this.getAdapter(name).method(request)], awaited: the lookup may throw;
    a value of [Object.prototype] has no such method, and calling it throws
    a [TypeError] without reaching a backend; otherwise the backend is
    called once.  [callee] is the called expression. *)
Definition callAdapter {P R}
    (method : AIAdapter -> Request P -> World -> (R + JsThrown) * World)
    (callee : string) (this : AI) (name : string) (request : Request P) : M R :=
  fun st =>
    match getAdapter this name with
    | inr e => (inr e, st)
    | inl (Inherited _) => (inr (typeError (NotAFunction callee)), st)
    | inl (Own a) =>
        let '(r, w) := method a request (world st) in
        (r, recordCall name (req_model request) w st)
    end.

(** [value.method(request)] where the method returns an [AsyncIterable]:
    the stream that the backend opens, or the [TypeError] of calling what a
    value of [Object.prototype] does not have. *)
Definition openStream {P C}
    (method : AIAdapter -> Request P -> World -> Stream C * World)
    (callee : string) (value : JsProperty AIAdapter) (name : string)
    (request : Request P) : M (Stream C) :=
  fun st =>
    match value with
    | Inherited _ => (inr (typeError (NotAFunction callee)), st)
    | Own a =>
        let '(s, w) := method a request (world st) in
        (inl s, recordCall name (req_model request) w st)
    end.

(** *** [tryWithFallback] *)

(** The [for] loop of [tryWithFallback].  It ends with the result of the
    first operation that succeeds ([inl (inl r)]), with the [errors] array
    once the list is exhausted ([inr errors]), or with what the [catch]
    block itself throws ([inl (inr thrown)]): after the push to [errors],
    the argument [error.message] of [console.warn] throws when the value
    caught is [null] or [undefined]. *)
Fixpoint walkFallbacks {R} (operation : AdapterFallback -> M R)
    (operationName : string) (errors : list Failure)
    (fallbackList : list AdapterFallback) (st : Env)
  : (R + JsThrown + list Failure) * Env :=
  match fallbackList with
  | [] => (inr errors, st)
  | fallback :: more =>
      match operation fallback st with
      | (inl r, st') => (inl (inl r), st')
      | (inr error, st') =>
          match readMessage error with
          | inr thrown => (inl (inr thrown), st')
          | inl _ =>
              walkFallbacks operation operationName
                (errors ++ [mkFailure (adapter fallback) (model fallback)
                              (asErrorMessage error)])
                more
                (warnEnv (adapterFailedWarning "Adapter" (adapter fallback)
                            (model fallback) operationName) error st')
          end
      end
  end.

Definition tryWithFallback {R} (fallbackList : list AdapterFallback)
    (operation : AdapterFallback -> M R) (operationName : string) : M R :=
  fun st =>
    match walkFallbacks operation operationName [] fallbackList st with
    | (inl outcome, st') => (outcome, st')
    | (inr errors, st') =>
        (inr (JsError (allAdaptersFailedMessage operationName errors)), st')
    end.

(** *** Promise mode *)

(** The [try]/[catch] around the primary attempt, as [chatPromise],
    [generateText], [summarize] and [embed] write it: [attempt a m] is the
    call [this.getAdapter(a).method({...restOptions, model: m})]. *)
Definition primaryThenFallbacks {R} (operationName : string)
    (attempt : string -> string -> M R) (a m : string)
    (fallbackList : option (list AdapterFallback)) : M R :=
  tryCatch (attempt a m)
    (fun primaryError =>
       if noFallbacks fallbackList then throw primaryError
       else
         bind (console_warn (adapterFailedWarning "Primary adapter" a m operationName)
                 primaryError)
           (fun _ =>
              tryWithFallback (chainOf fallbackList)
                (fun fallback => attempt (adapter fallback) (model fallback))
                (operationName ++ " (after primary failure)"))).

(** The body that [generateText], [summarize] and [embed] share. *)
Definition promiseMode {R} (this : AI) (operationName : string)
    (attempt : string -> string -> M R) (tgt : Target) : M R :=
  match tgt with
  | FallbackOnly fbs =>
      let fallbackList := effectiveFallbacks fbs (fallbacks this) in
      if noFallbacks fallbackList then throw (JsError noFallbacksMessage)
      else
        tryWithFallback (chainOf fallbackList)
          (fun fallback => attempt (adapter fallback) (model fallback))
          operationName
  | WithAdapter a m fbs =>
      let fallbackList := effectiveFallbacks fbs (fallbacks this) in
      primaryThenFallbacks operationName attempt a m fallbackList
  end.

Definition chatRequest (r : ChatRest) (m : string) (toolObjects : option ToolObjects)
    (stream : option bool) (msgs : list Message) : ChatCompletionOptions :=
  mkRequest m stream
    {| messages := msgs;
       tools := toolObjects;
       maxIterations := rest_maxIterations r;
       params := rest_params r |}.

(** [this.getAdapter(a).chatCompletion({...restOptions, model: m, tools})] *)
Definition chatAttempt (this : AI) (r : ChatRest) (toolObjects : option ToolObjects)
    (a m : string) : M ChatCompletionResult :=
  callAdapter a_chatCompletion "this.getAdapter(...).chatCompletion" this a
    (chatRequest r m toolObjects None (rest_messages r)).

(** [chatPromise(options)].  In fallback-only mode [fallbacks.length] is
    read without a guard, which throws when [fallbacks] is absent; the tool
    names are resolved after the check of the fallback list.  With an
    adapter they are resolved before the primary attempt, outside its
    [try]. *)
Definition chatPromise (this : AI) (options : ChatOptions) : M ChatCompletionResult :=
  match chat_target options with
  | FallbackOnly None => throw (typeError (ReadOfNullish JsUndefined "length"))
  | FallbackOnly (Some fbs) =>
      let fallbackList := effectiveFallbacks (Some fbs) (fallbacks this) in
      if noFallbacks fallbackList then throw (JsError noFallbacksMessage)
      else
        bind (liftE (resolveTools this (chat_tools options)))
          (fun toolObjects =>
             tryWithFallback (chainOf fallbackList)
               (fun fallback =>
                  chatAttempt this (chat_rest options) toolObjects
                    (adapter fallback) (model fallback))
               "chat")
  | WithAdapter a m fbs =>
      let fallbackList := effectiveFallbacks fbs (fallbacks this) in
      bind (liftE (resolveTools this (chat_tools options)))
        (fun toolObjects =>
           primaryThenFallbacks "chat"
             (chatAttempt this (chat_rest options) toolObjects) a m fallbackList)
  end.

(** [this.getAdapter(a).generateText({...restOptions, model: m})] *)
Definition generateTextAttempt (this : AI) (r : TextGenerationOptions) (a m : string)
  : M TextGenerationResult :=
  callAdapter a_generateText "this.getAdapter(...).generateText" this a
    (mkRequest m None r).

(** [generateText(options)] *)
Definition generateText (this : AI) (options : CallOptions TextGenerationOptions)
  : M TextGenerationResult :=
  promiseMode this "generateText" (generateTextAttempt this (rest options))
    (target options).

(** [this.getAdapter(a).summarize({...restOptions, model: m})] *)
Definition summarizeAttempt (this : AI) (r : SummarizationOptions) (a m : string)
  : M SummarizationResult :=
  callAdapter a_summarize "this.getAdapter(...).summarize" this a (mkRequest m None r).

(** [summarize(options)] *)
Definition summarize (this : AI) (options : CallOptions SummarizationOptions)
  : M SummarizationResult :=
  promiseMode this "summarize" (summarizeAttempt this (rest options)) (target options).

(** [this.getAdapter(a).createEmbeddings({...restOptions, model: m})] *)
Definition embedAttempt (this : AI) (r : EmbeddingOptions) (a m : string)
  : M EmbeddingResult :=
  callAdapter a_createEmbeddings "this.getAdapter(...).createEmbeddings" this a
    (mkRequest m None r).

(** [embed(options)] *)
Definition embed (this : AI) (options : CallOptions EmbeddingOptions)
  : M EmbeddingResult :=
  promiseMode this "embed" (embedAttempt this (rest options)) (target options).

(** *** The four promise-mode operations under one name *)

Inductive PromiseCall : Type :=
| CallChat (options : ChatOptions)
| CallGenerateText (options : CallOptions TextGenerationOptions)
| CallSummarize (options : CallOptions SummarizationOptions)
| CallEmbed (options : CallOptions EmbeddingOptions).

Definition resultOf (c : PromiseCall) : Type :=
  match c with
  | CallChat _ => ChatCompletionResult
  | CallGenerateText _ => TextGenerationResult
  | CallSummarize _ => SummarizationResult
  | CallEmbed _ => EmbeddingResult
  end.

Definition runPromise (this : AI) (c : PromiseCall) : M (resultOf c) :=
  match c with
  | CallChat options => chatPromise this options
  | CallGenerateText options => generateText this options
  | CallSummarize options => summarize this options
  | CallEmbed options => embed this options
  end.

Definition targetOf (c : PromiseCall) : Target :=
  match c with
  | CallChat options => chat_target options
  | CallGenerateText options => target options
  | CallSummarize options => target options
  | CallEmbed options => target options
  end.

(** The operation name of the messages and warnings. *)
Definition nameOf (c : PromiseCall) : string :=
  match c with
  | CallChat _ => "chat"
  | CallGenerateText _ => "generateText"
  | CallSummarize _ => "summarize"
  | CallEmbed _ => "embed"
  end.

(** The backend call of an attempt of [c] on adapter [a] with model [m].
    For [chat] it exists once the tool names are resolved; an unknown tool
    name throws before any attempt. *)
Definition attemptOf (this : AI) (c : PromiseCall)
  : (string -> string -> M (resultOf c)) + JsThrown :=
  match c with
  | CallChat options =>
      match resolveTools this (chat_tools options) with
      | inl toolObjects => inl (chatAttempt this (chat_rest options) toolObjects)
      | inr e => inr e
      end
  | CallGenerateText options => inl (generateTextAttempt this (rest options))
  | CallSummarize options => inl (summarizeAttempt this (rest options))
  | CallEmbed options => inl (embedAttempt this (rest options))
  end.

(** A call of [chat] without an adapter comes with its per-call list:
    [chatPromise] reads the length of that list without a guard.  The other
    operations take an absent list for an empty one. *)
Definition fallbacksGiven (c : PromiseCall) : Prop :=
  match c with
  | CallChat options => chat_target options <> FallbackOnly None
  | _ => True
  end.

(** *** Runs in which every attempt fails *)

(** [FailedAttempts operation kind operationName st entries es st']: from
    [st], the operations of [entries] are tried in order and each one
    raises a value that is neither [null] nor [undefined]; [es] are the
    values raised, and every failure writes its warning.  [st'] is the
    state after the last warning. *)
Inductive FailedAttempts {R} (operation : AdapterFallback -> M R)
    (kind operationName : string)
  : Env -> list AdapterFallback -> list JsThrown -> Env -> Prop :=
| FailedNil st : FailedAttempts operation kind operationName st [] [] st
| FailedCons st fallback e st1 more es st2 :
    operation fallback st = (inr e, st1) ->
    isNullish e = false ->
    FailedAttempts operation kind operationName
      (warnEnv (adapterFailedWarning kind (adapter fallback) (model fallback)
                  operationName) e st1)
      more es st2 ->
    FailedAttempts operation kind operationName st (fallback :: more) (e :: es) st2.

(** The [errors] entries that a failed walk over [entries] pushes. *)
Fixpoint failuresOf (entries : list AdapterFallback) (es : list JsThrown) : list Failure :=
  match entries, es with
  | fallback :: more, e :: es' =>
      mkFailure (adapter fallback) (model fallback) (asErrorMessage e)
        :: failuresOf more es'
  | _, _ => []
  end.

(** The backend call that an attempt on [fallback] records. *)
Definition callOf (fallback : AdapterFallback) : BackendCall :=
  mkCall (adapter fallback) (model fallback).

(** The adapter names of [entries] are keys of the adapter map, as the
    type [AdapterFallback<TAdapters>] requires. *)
Definition registered (this : AI) (a : string) : Prop :=
  is_Some (obj_get (adapters this) a).

(** *** Streaming with fallbacks *)

(** The inner [for await] of the streaming walkers, with the [throw] that
    follows it: every chunk is yielded until one is an error chunk
    ([errorOf c = Some m], with [m] its [error.message]); the error chunk is
    not yielded and the attempt fails with
    [new Error(m || "Unknown error")].  A stream that raises fails the
    attempt with the raised value. *)
Fixpoint forwardUntilError {C} (errorOf : C -> option string) (s : Stream C)
  : list C * option JsThrown :=
  match s with
  | SDone => ([], None)
  | SRaise e => ([], Some e)
  | SYield c more =>
      match errorOf c with
      | Some m => ([], Some (JsError (orElse m "Unknown error")))
      | None =>
          let '(out, r) := forwardUntilError errorOf more in
          (c :: out, r)
      end
  end.

(** [(chunk as any).type === "error"] on a text chunk: never. *)
Definition textChunkError (c : string) : option string := None.

(** One attempt of a streaming walker: [operation] looks the adapter up and
    calls the backend, then the stream is forwarded. *)
Definition streamAttempt {C} (errorOf : C -> option string)
    (operation : M (Stream C)) (st : Env) : list C * option JsThrown * Env :=
  match operation st with
  | (inr e, st') => ([], Some e, st')
  | (inl s, st') =>
      let '(out, r) := forwardUntilError errorOf s in
      (out, r, st')
  end.

(** The [for] loop over the fallbacks of [tryStreamWithFallback], of
    [chatStream] and of [generateTextStream]; [kind] is the word of the
    warning.  It ends normally with the first attempt that succeeds
    ([inl (inl tt)]), with the [errors] array once the list is exhausted
    ([inr errors]), or with what the [catch] block itself throws
    ([inl (inr thrown)]): the argument [error.message] of [console.warn]
    throws when the value caught is [null] or [undefined]. *)
Fixpoint walkStreamFallbacks {C} (errorOf : C -> option string)
    (operation : AdapterFallback -> M (Stream C))
    (kind operationName : string) (errors : list Failure)
    (fallbackList : list AdapterFallback) (st : Env)
  : list C * (unit + JsThrown + list Failure) * Env :=
  match fallbackList with
  | [] => ([], inr errors, st)
  | fallback :: more =>
      match streamAttempt errorOf (operation fallback) st with
      | (out, None, st') => (out, inl (inl tt), st')
      | (out, Some error, st') =>
          match readMessage error with
          | inr thrown => (out, inl (inr thrown), st')
          | inl _ =>
              let '(out', r, st'') :=
                walkStreamFallbacks errorOf operation kind operationName
                  (errors ++ [mkFailure (adapter fallback) (model fallback)
                                (asErrorMessage error)])
                  more
                  (warnEnv (adapterFailedWarning kind (adapter fallback)
                              (model fallback) operationName) error st') in
              ((out ++ out')%list, r, st'')
          end
      end
  end.

(** The end of the walkers: [throw new Error("All adapters failed ...")]. *)
Definition finishWalk {C} (operationName : string)
    (r : list C * (unit + JsThrown + list Failure) * Env)
  : list C * (unit + JsThrown) * Env :=
  match r with
  | (out, inl outcome, st) => (out, outcome, st)
  | (out, inr errors, st) =>
      (out, inr (JsError (allAdaptersFailedMessage operationName errors)), st)
  end.

(** [tryStreamWithFallback(fallbacks, operation, operationName)] *)
Definition tryStreamWithFallback {C} (errorOf : C -> option string)
    (fallbackList : list AdapterFallback)
    (operation : AdapterFallback -> M (Stream C)) (operationName : string)
  : G C unit :=
  fun st =>
    finishWalk operationName
      (walkStreamFallbacks errorOf operation "Adapter" operationName []
         fallbackList st).

(** The [try]/[catch] around the primary stream of [chatStream] (without
    tool executors) and of [generateTextStream]: here the failure of the
    primary is the first element of [errors].  [primary] is the call of the
    primary backend, [operation] the call for a fallback. *)
Definition streamPrimaryThenFallbacks {C} (errorOf : C -> option string)
    (operationName : string) (primary : M (Stream C))
    (operation : AdapterFallback -> M (Stream C))
    (a m : string) (fallbackList : option (list AdapterFallback)) : G C unit :=
  fun st =>
    match streamAttempt errorOf primary st with
    | (out, None, st') => (out, inl tt, st')
    | (out, Some primaryError, st') =>
        let errors := [mkFailure a m (asErrorMessage primaryError)] in
        if noFallbacks fallbackList then (out, inr primaryError, st')
        else
          match readMessage primaryError with
          | inr thrown => (out, inr thrown, st')
          | inl _ =>
              let '(out', r, st'') :=
                finishWalk operationName
                  (walkStreamFallbacks errorOf operation
                     "Fallback adapter" operationName errors (chainOf fallbackList)
                     (warnEnv (adapterFailedWarning "Primary adapter" a m operationName)
                        primaryError st')) in
              ((out ++ out')%list, r, st'')
          end
    end.

(** [this.getAdapter(a).generateTextStream({...restOptions, model: m, stream: true})] *)
Definition textStreamAttempt (this : AI) (r : TextGenerationOptions) (a m : string)
  : M (Stream string) :=
  fun st =>
    match getAdapter this a with
    | inr e => (inr e, st)
    | inl inst =>
        openStream a_generateTextStream "this.getAdapter(...).generateTextStream"
          inst a (mkRequest m (Some true) r) st
    end.

(** [generateTextStream(options)] *)
Definition generateTextStream (this : AI) (options : CallOptions TextGenerationOptions)
  : G string unit :=
  match target options with
  | FallbackOnly fbs =>
      let fallbackList := effectiveFallbacks fbs (fallbacks this) in
      if noFallbacks fallbackList then fun st => ([], inr (JsError noFallbacksMessage), st)
      else
        tryStreamWithFallback textChunkError (chainOf fallbackList)
          (fun fallback =>
             textStreamAttempt this (rest options) (adapter fallback) (model fallback))
          "generateTextStream"
  | WithAdapter a m fbs =>
      let fallbackList := effectiveFallbacks fbs (fallbacks this) in
      streamPrimaryThenFallbacks textChunkError "generateTextStream"
        (textStreamAttempt this (rest options) a m)
        (fun fallback =>
           textStreamAttempt this (rest options) (adapter fallback) (model fallback))
        a m fallbackList
  end.

(** *** The tool-execution loop of [chatStream] *)

(** The three variables a round declares. *)
Record RoundState : Type := mkRound {
  toolCallsMap : JsMap PendingCall;
  roundToolCalls : list ToolCall;
  hasToolCalls : bool
}.

Definition newRound : RoundState :=
  {| toolCallsMap := []; roundToolCalls := []; hasToolCalls := false |}.

(** The body of [if (chunk.type === "tool_call")]. *)
Definition accumulateToolCall (m : JsMap PendingCall) (tc : ToolCall) (index : Z)
  : JsMap PendingCall :=
  let existing :=
    match map_get m index with
    | Some e => e
    | None => mkPending (tc_id tc) EmptyString EmptyString
    end in
  let named :=
    match tc_name tc with
    | EmptyString => p_name existing
    | n => n
    end in
  map_set m index (mkPending (p_id existing) named (p_args existing ++ tc_arguments tc)).

(** [toolCallsMap.forEach(call => toolCalls.push({...}))] *)
Definition finalizeToolCalls (m : JsMap PendingCall) : list ToolCall :=
  map (fun kv => mkToolCall (p_id (snd kv)) (p_name (snd kv)) (p_args (snd kv))) m.

(** [chunk.type === "done" && chunk.finishReason === "tool_calls"] *)
Definition isToolCallsDone (c : StreamChunk) : bool :=
  match c with
  | DoneChunk _ (Some reason) => String.eqb reason "tool_calls"
  | _ => false
  end.

(** What the body of the [for await] of a round does after [yield chunk]. *)
Definition observeChunk (c : StreamChunk) (rs : RoundState) : RoundState :=
  let m :=
    match c with
    | ToolCallChunk _ tc index => accumulateToolCall (toolCallsMap rs) tc index
    | _ => toolCallsMap rs
    end in
  if isToolCallsDone c then
    {| toolCallsMap := m;
       roundToolCalls := roundToolCalls rs ++ finalizeToolCalls m;
       hasToolCalls := true |}
  else
    {| toolCallsMap := m;
       roundToolCalls := roundToolCalls rs;
       hasToolCalls := hasToolCalls rs |}.

(** The [for await] of a round: every chunk is yielded, whatever its type;
    a stream that raises ends the generator with the raised value. *)
Fixpoint streamRound (s : Stream StreamChunk) (rs : RoundState)
  : list StreamChunk * (RoundState + JsThrown) :=
  match s with
  | SDone => ([], inl rs)
  | SRaise e => ([], inr e)
  | SYield c more =>
      let '(out, r) := streamRound more (observeChunk c rs) in
      (c :: out, r)
  end.

(** [tools.find(t => t.function.name === name)]: the first tool of that
    name.  A value of [Object.prototype] has no [function] property, and
    reading [name] of [undefined] throws; this ends the search when such a
    value stands before the first match. *)
Fixpoint findAmong (ts : ToolObjects) (n : string) : option Tool + JsThrown :=
  match ts with
  | [] => inl None
  | Own t :: more => if String.eqb (tool_name t) n then inl (Some t) else findAmong more n
  | Inherited _ :: _ => inr (typeError (ReadOfNullish JsUndefined "name"))
  end.

(** [restOptions.tools?.find(t => t.function.name === name)] *)
Definition findTool (toolObjects : option ToolObjects) (n : string)
  : option Tool + JsThrown :=
  match toolObjects with
  | None => inl None
  | Some ts => findAmong ts n
  end.

(** [generateId()] *)
Definition generateId (w : World) : string * World :=
  let '(now, w1) := Date_now w in
  let '(r, w2) := Math_random_base36 w1 in
  ("ai-" ++ pretty now ++ "-" ++ String.substring 7 (String.length r - 7) r, w2).

(** [JSON.stringify({ error: error.message })] where [error] is neither
    [null] nor [undefined]: a property whose value is [undefined] is left
    out. *)
Definition errorPayload (e : JsThrown) : string :=
  match messageOf e with
  | Some m => "{" ++ dquote ++ "error" ++ dquote ++ ":" ++ JSON_stringify_string m ++ "}"
  | None => "{}"
  end.

Definition toolMessage (body : string) (tc : ToolCall) : Message :=
  {| role := RTool;
     content := Some body;
     toolCalls := None;
     toolCallId := Some (tc_id tc);
     name := Some (tc_name tc) |}.

Definition assistantMessage (tcs : list ToolCall) : Message :=
  {| role := RAssistant;
     content := None;
     toolCalls := Some tcs;
     toolCallId := None;
     name := None |}.

(** The chunk yielded after a tool has run. *)
Definition toolExecutedChunk (id modelToUse : string) (timestamp : Z) (tc : ToolCall)
  : StreamChunk :=
  ContentChunk (mkMeta id modelToUse timestamp) EmptyString
    ("[Tool " ++ tc_name tc ++ " executed]") (Some "assistant").

Definition setWorld (w : World) (st : Env) : Env :=
  {| world := w; calls := calls st; console := console st |}.

(** The [catch] block of a tool call: the tool message with the payload
    of [error], unless reading [error.message] throws. *)
Definition catchToolError (error : JsThrown) (tc : ToolCall) (st : Env)
  : list Message * list StreamChunk * option JsThrown * Env :=
  match readMessage error with
  | inr thrown => ([], [], Some thrown, st)
  | inl _ => ([toolMessage (errorPayload error) tc], [], None, st)
  end.

(** The body of [for (const toolCall of toolCalls)]: the messages pushed,
    the chunks yielded, what is thrown and the next state.  The [catch]
    turns a failure of [JSON.parse] or of [execute] into a tool message;
    what the search of the tool throws, or the [catch] block itself, ends
    the generator. *)
Definition executeToolCall (toolObjects : option ToolObjects) (modelToUse : string)
    (tc : ToolCall) (st : Env)
  : list Message * list StreamChunk * option JsThrown * Env :=
  match findTool toolObjects (tc_name tc) with
  | inr thrown => ([], [], Some thrown, st)
  | inl None => ([], [], None, st)
  | inl (Some tool) =>
      match tool_execute tool with
      | None => ([], [], None, st)
      | Some execute =>
          match JSON_parse (tc_arguments tc) with
          | inr syntaxError => catchToolError (JsError syntaxError) tc st
          | inl args =>
              match execute args (world st) with
              | (inr error, w) => catchToolError error tc (setWorld w st)
              | (inl result, w) =>
                  let '(id, w1) := generateId w in
                  let '(now, w2) := Date_now w1 in
                  ([toolMessage result tc],
                   [toolExecutedChunk id modelToUse now tc],
                   None,
                   setWorld w2 st)
              end
          end
      end
  end.

(** The loop over the finalized calls: it stops at the first call that
    throws. *)
Fixpoint executeToolCalls (toolObjects : option ToolObjects) (modelToUse : string)
    (tcs : list ToolCall) (st : Env)
  : list Message * list StreamChunk * option JsThrown * Env :=
  match tcs with
  | [] => ([], [], None, st)
  | tc :: more =>
      match executeToolCall toolObjects modelToUse tc st with
      | (msgs, out, Some thrown, st') => (msgs, out, Some thrown, st')
      | (msgs, out, None, st') =>
          let '(msgs', out', res, st'') :=
            executeToolCalls toolObjects modelToUse more st' in
          ((msgs ++ msgs')%list, (out ++ out')%list, res, st'')
      end
  end.

(** [while (iteration < maxIterations) { iteration++; ... }], by the number
    of iterations that remain, [maxIterations - iteration]. *)
Fixpoint toolLoop (remaining : nat) (adapterInstance : JsProperty AIAdapter)
    (adapterToUse modelToUse : string) (r : ChatRest)
    (toolObjects : option ToolObjects) (msgs : list Message) (st : Env)
  : list StreamChunk * (unit + JsThrown) * Env :=
  match remaining with
  | O => ([], inl tt, st)
  | S n =>
      match
        openStream a_chatStream "adapterInstance.chatStream" adapterInstance
          adapterToUse (chatRequest r modelToUse toolObjects (Some true) msgs) st
      with
      | (inr e, st1) => ([], inr e, st1)
      | (inl s, st1) =>
          match streamRound s newRound with
          | (out, inr e) => (out, inr e, st1)
          | (out, inl rs) =>
              if negb (hasToolCalls rs) || (List.length (roundToolCalls rs) =? 0)%nat then
                (out, inl tt, st1)
              else
                match
                  executeToolCalls toolObjects modelToUse (roundToolCalls rs) st1
                with
                | (pushed, out2, Some thrown, st2) =>
                    ((out ++ out2)%list, inr thrown, st2)
                | (pushed, out2, None, st2) =>
                    let '(out3, res, st3) :=
                      toolLoop n adapterInstance adapterToUse modelToUse r toolObjects
                        (msgs ++ assistantMessage (roundToolCalls rs) :: pushed) st2 in
                    ((out ++ out2 ++ out3)%list, res, st3)
                end
          end
      end
  end.

(** [restOptions.maxIterations ?? 5] *)
Definition maxIterationsOf (r : ChatRest) : Z :=
  match rest_maxIterations r with
  | Some n => n
  | None => 5%Z
  end.

(** [t.execute] as a condition: a value of [Object.prototype] has no
    such property. *)
Definition hasExecute (t : JsProperty Tool) : bool :=
  match t with
  | Own tool => match tool_execute tool with Some _ => true | None => false end
  | Inherited _ => false
  end.

(** [toolObjects?.some(t => t.execute)], as the conditions read it. *)
Definition hasToolExecutors (toolObjects : option ToolObjects) : bool :=
  match toolObjects with
  | None => false
  | Some ts => existsb hasExecute ts
  end.

(** [this.getAdapter(a).chatStream({...restOptions, model: m, stream: true})] *)
Definition chatStreamAttempt (this : AI) (r : ChatRest) (toolObjects : option ToolObjects)
    (a m : string) : M (Stream StreamChunk) :=
  fun st =>
    match getAdapter this a with
    | inr e => (inr e, st)
    | inl inst =>
        openStream a_chatStream "this.getAdapter(...).chatStream" inst a
          (chatRequest r m toolObjects (Some true) (rest_messages r)) st
    end.

(** What the first lines of [chatStream] settle: the mode, the adapter and
    model to use and the fallback list. *)
Record StreamPlan : Type := mkPlan {
  isFallbackOnlyMode : bool;
  adapterToUse : string;
  modelToUse : string;
  fallbackList : option (list AdapterFallback)
}.

Definition planStream (this : AI) (tgt : Target) : StreamPlan + JsThrown :=
  match tgt with
  | FallbackOnly fbs =>
      match effectiveFallbacks fbs (fallbacks this) with
      | Some (first :: more) =>
          inl (mkPlan true (adapter first) (model first) (Some (first :: more)))
      | _ => inr (JsError noFallbacksMessage)
      end
  | WithAdapter a m fbs =>
      inl (mkPlan false a m (effectiveFallbacks fbs (fallbacks this)))
  end.

(** [chatStream(options)].  The adapter to use is looked up outside any
    [try]; when no tool has an [execute] function its stream is opened
    inside the [try] of the primary attempt, otherwise by the loop. *)
Definition chatStream (this : AI) (options : ChatOptions) : G StreamChunk unit :=
  fun st =>
    match planStream this (chat_target options) with
    | inr e => ([], inr e, st)
    | inl plan =>
        match resolveTools this (chat_tools options) with
        | inr e => ([], inr e, st)
        | inl toolObjects =>
            let r := chat_rest options in
            if isFallbackOnlyMode plan && negb (hasToolExecutors toolObjects) then
              tryStreamWithFallback chunkError (chainOf (fallbackList plan))
                (fun fallback =>
                   chatStreamAttempt this r toolObjects (adapter fallback) (model fallback))
                "streamChat" st
            else
              match getAdapter this (adapterToUse plan) with
              | inr e => ([], inr e, st)
              | inl adapterInstance =>
                  if negb (hasToolExecutors toolObjects) then
                    streamPrimaryThenFallbacks chunkError "streamChat"
                      (openStream a_chatStream "adapterInstance.chatStream"
                         adapterInstance (adapterToUse plan)
                         (chatRequest r (modelToUse plan) toolObjects (Some true)
                            (rest_messages r)))
                      (fun fallback =>
                         chatStreamAttempt this r toolObjects
                           (adapter fallback) (model fallback))
                      (adapterToUse plan) (modelToUse plan) (fallbackList plan) st
                  else
                    toolLoop (Z.to_nat (maxIterationsOf r)) adapterInstance
                      (adapterToUse plan) (modelToUse plan) r toolObjects
                      (rest_messages r) st
              end
        end
    end.

(** *** Instances on the heap: the constructor and [addAdapter] *)

(** [addAdapter] builds objects; that it leaves the receiver alone is a
    statement about the heap.  Three kinds of objects live there: adapter
    maps, tool registries and [AI] instances, whose [adapters] and [tools]
    fields are references. *)
Inductive HeapObject : Type :=
| HAdapters (o : JsObject AIAdapter)
| HTools (o : JsObject Tool)
| HInstance (adaptersRef : nat) (fallbacksField : option (list AdapterFallback))
    (toolsRef : nat).

(** [new]: the object goes to a location the heap does not use. *)
Definition alloc (h : gmap nat HeapObject) (o : HeapObject) : nat * gmap nat HeapObject :=
  let l := fresh (dom h) in (l, <[l := o]> h).

(** The [config] of the constructor. *)
Record AIConfig : Type := mkConfig {
  cfg_adapters : nat;
  cfg_fallbacks : option (list AdapterFallback);
  cfg_tools : option nat
}.

(** [constructor(config)]: [config.tools || {}] makes a new empty object
    when no registry is given. *)
Definition newAI (config : AIConfig) (h : gmap nat HeapObject) : nat * gmap nat HeapObject :=
  let '(toolsRef, h1) :=
    match cfg_tools config with
    | Some t => (t, h)
    | None => alloc h (HTools [])
    end in
  alloc h1 (HInstance (cfg_adapters config) (cfg_fallbacks config) toolsRef).

(** [addAdapter(name, adapter)] on the instance at [this]: the object
    literal [{ ...this.adapters, [name]: adapter }] is a new object, with
    the properties of [this.adapters] as [Object.keys] lists them and then
    the entry for [name].  [None] when [this] is not an instance. *)
Definition addAdapter (this : nat) (n : string) (a : AIAdapter) (h : gmap nat HeapObject)
  : option (nat * gmap nat HeapObject) :=
  match h !! this with
  | Some (HInstance adaptersRef _ _) =>
      match h !! adaptersRef with
      | Some (HAdapters o) =>
          let '(newAdapters, h1) := alloc h (HAdapters (obj_set o n a)) in
          Some (newAI (mkConfig newAdapters None None) h1)
      | _ => None
      end
  | _ => None
  end.

(** The instance at [l], with its fields read through. *)
Definition instanceAt (h : gmap nat HeapObject) (l : nat) : option AI :=
  match h !! l with
  | Some (HInstance adaptersRef fbs toolsRef) =>
      match h !! adaptersRef, h !! toolsRef with
      | Some (HAdapters o), Some (HTools t) => Some (mkAI o fbs t)
      | _, _ => None
      end
  | _ => None
  end.

(** *** Notions that the properties use *)

(** A generator that first yields [pre] and then goes on as [x]. *)
Definition emitFirst {C A} (pre : list C) (x : list C * A * Env) : list C * A * Env :=
  let '(out, r, st) := x in ((pre ++ out)%list, r, st).

End Orchestrator.


(** All the chunks that a stream yields, whatever their type. *)
Fixpoint chunksOf {C} (s : Stream C) : list C :=
  match s with
  | SYield c more => c :: chunksOf more
  | _ => []
  end.

(** How a stream ends: [Some e] when it raises [e]. *)
Fixpoint raisedBy {C} (s : Stream C) : option JsThrown :=
  match s with
  | SDone => None
  | SRaise e => Some e
  | SYield _ more => raisedBy more
  end.

(** The stream indices of the tool-call chunks of [cs], in arrival order. *)
Fixpoint toolCallIndices (cs : list StreamChunk) : list Z :=
  match cs with
  | [] => []
  | ToolCallChunk _ _ index :: cs' => index :: toolCallIndices cs'
  | _ :: cs' => toolCallIndices cs'
  end.

(** The keys of a map after [set] on the keys [ks] in turn. *)
Fixpoint arrivalOrder (seen : list Z) (ks : list Z) : list Z :=
  match ks with
  | [] => seen
  | k :: ks' =>
      if existsb (Z.eqb k) seen then arrivalOrder seen ks'
      else arrivalOrder (seen ++ [k]) ks'
  end.

(** Ascending order of stream indices. *)
Fixpoint ascending (ks : list Z) : bool :=
  match ks with
  | k :: ((k' :: _) as more) => Z.ltb k k' && ascending more
  | _ => true
  end.

(** The round state after the chunks [cs] have been observed in turn. *)
Definition observeAll (cs : list StreamChunk) (rs : RoundState) : RoundState :=
  fold_left (fun acc c => observeChunk c acc) cs rs.

(** The tool-call fragments of [cs] that carry the stream index [i], in
    arrival order. *)
Fixpoint fragmentsAt (i : Z) (cs : list StreamChunk) : list ToolCall :=
  match cs with
  | [] => []
  | ToolCallChunk _ tc index :: cs' =>
      if Z.eqb index i then tc :: fragmentsAt i cs' else fragmentsAt i cs'
  | _ :: cs' => fragmentsAt i cs'
  end.

(** The last non-empty function name of [frags], [acc] when there is
    none. *)
Fixpoint lastName (acc : string) (frags : list ToolCall) : string :=
  match frags with
  | [] => acc
  | f :: more => lastName (match tc_name f with EmptyString => acc | n => n end) more
  end.

(** The argument texts of [frags], one after the other. *)
Fixpoint joinArguments (frags : list ToolCall) : string :=
  match frags with
  | [] => EmptyString
  | f :: more => tc_arguments f ++ joinArguments more
  end.

(** The call that the fragments of one index add up to. *)
Definition assembled (frags : list ToolCall) : option PendingCall :=
  match frags with
  | [] => None
  | f :: _ => Some (mkPending (tc_id f) (lastName EmptyString frags) (joinArguments frags))
  end.

(** What one fragment makes of the entry of its index. *)
Definition extendPending (o : option PendingCall) (tc : ToolCall) : PendingCall :=
  let existing :=
    match o with
    | Some e => e
    | None => mkPending (tc_id tc) EmptyString EmptyString
    end in
  mkPending (p_id existing)
    match tc_name tc with EmptyString => p_name existing | n => n end
    (p_args existing ++ tc_arguments tc).

(** The finalized tool call of the stream index [i] of [cs]. *)
Definition finalizedAt (cs : list StreamChunk) (i : Z) : option ToolCall :=
  match assembled (fragmentsAt i cs) with
  | Some p => Some (mkToolCall (p_id p) (p_name p) (p_args p))
  | None => None
  end.

(** The tool of a call can be run: the search finds a requested tool of
    its function name, and that tool has an [execute] function. *)
Definition executable `{Platform} (toolObjects : option ToolObjects) (tc : ToolCall) : bool :=
  match findTool toolObjects (tc_name tc) with
  | inl (Some tool) => match tool_execute tool with Some _ => true | None => false end
  | _ => false
  end.

(** The call is passed over: the search ends without a tool of its
    function name, or with one that has no [execute] function. *)
Definition passedOver `{Platform} (toolObjects : option ToolObjects) (tc : ToolCall) : bool :=
  match findTool toolObjects (tc_name tc) with
  | inl (Some tool) => match tool_execute tool with Some _ => false | None => true end
  | inl None => true
  | inr _ => false
  end.



(** *** The demo route [examples/ts-chat/src/routes/demo/api.tanchat.ts] *)

Definition SYSTEM_PROMPT : string :=
  "You are a helpful assistant for a store that sells guitars." ++ newline
  ++ newline
  ++ "You can use the following tools to help the user:" ++ newline
  ++ newline
  ++ "- getGuitars: Get all guitars from the database" ++ newline
  ++ "- recommendGuitar: Recommend a guitar to the user" ++ newline.

Definition systemMessage : Message :=
  mkMessage RSystem (Some SYSTEM_PROMPT) None None None.

(** [messages[0]?.role === "system"] *)
Definition startsWithSystem (msgs : list Message) : bool :=
  match msgs with
  | mkMessage RSystem _ _ _ _ :: _ => true
  | _ => false
  end.

(** [allMessages] of the [POST] handler. *)
Definition allMessages (msgs : list Message) : list Message :=
  if startsWithSystem msgs then msgs else systemMessage :: msgs.

Section Notions.

Context `{Platform}.

(** The [tools] registry of the route: both tools have an [execute]
    function. *)
Definition demoTools
    (getGuitars recommendGuitar : Json -> World -> (string + JsThrown) * World)
  : JsObject Tool :=
  [("getGuitars", mkTool "getGuitars" (Some getGuitars));
   ("recommendGuitar", mkTool "recommendGuitar" (Some recommendGuitar))].

(** [new AI({ adapters: { ollama, openAi }, fallbacks: [...], tools })] *)
Definition demoAI (ollama openAi : AIAdapter)
    (getGuitars recommendGuitar : Json -> World -> (string + JsThrown) * World) : AI :=
  {| adapters := [("ollama", ollama); ("openAi", openAi)];
     fallbacks := Some [mkFallback "openAi" "gpt-4"];
     toolRegistry := demoTools getGuitars recommendGuitar |}.

(** The options of the [ai.chat] call of the handler, without [as]; [p]
    stands for [temperature] and [toolChoice]. *)
Definition demoOptions (msgs : list Message) (p : ChatParams) : ChatOptions :=
  {| chat_target :=
       WithAdapter "openAi" "gpt-4o" (Some [mkFallback "ollama" "gpt-oss:20b"]);
     chat_tools := Some ["getGuitars"; "recommendGuitar"];
     chat_rest :=
       {| rest_messages := allMessages msgs;
          rest_maxIterations := Some 5%Z;
          rest_params := p |} |}.

(** *** Streaming runs in which every attempt fails *)

(** [FailedStreamAttempts errorOf operation kind operationName st entries es
    out st']: from [st], the streams of [entries] are tried in order and
    each attempt fails, by an error chunk or by a raised value that is
    neither [null] nor [undefined]; [es] are the failures, [out] the chunks
    forwarded on the way, and every failure writes its warning. *)
Inductive FailedStreamAttempts {C} (errorOf : C -> option string)
    (operation : AdapterFallback -> M (Stream C)) (kind operationName : string)
  : Env -> list AdapterFallback -> list JsThrown -> list C -> Env -> Prop :=
| FailedStreamNil st :
    FailedStreamAttempts errorOf operation kind operationName st [] [] [] st
| FailedStreamCons st fallback out e st1 more es outs st2 :
    streamAttempt errorOf (operation fallback) st = (out, Some e, st1) ->
    isNullish e = false ->
    FailedStreamAttempts errorOf operation kind operationName
      (warnEnv (adapterFailedWarning kind (adapter fallback) (model fallback)
                  operationName) e st1)
      more es outs st2 ->
    FailedStreamAttempts errorOf operation kind operationName st
      (fallback :: more) (e :: es) (out ++ outs)%list st2.

(** The backend calls that a call with target [tgt] may make, in order. *)
Definition plannedCalls (this : AI) (tgt : Target) : list BackendCall :=
  match tgt with
  | WithAdapter a m fbs =>
      mkCall a m :: map callOf (chainOf (effectiveFallbacks fbs (fallbacks this)))
  | FallbackOnly fbs =>
      map callOf (chainOf (effectiveFallbacks fbs (fallbacks this)))
  end.

End Notions.

(** ** A concrete platform and concrete backends

    Used to run the orchestrator on explicit inputs.  The world counts the
    backend calls; results and parsed JSON are strings. *)

Module Sample.

Definition platform : Platform :=
  {| World := nat;
     ChatParams := unit;
     ChatCompletionResult := string;
     TextGenerationOptions := unit;
     TextGenerationResult := string;
     SummarizationOptions := unit;
     SummarizationResult := string;
     EmbeddingOptions := unit;
     EmbeddingResult := string;
     Json := string;
     JSON_parse := fun s =>
       match s with
       | EmptyString => inr "Unexpected end of JSON input"
       | _ => inl s
       end;
     JSON_stringify_string := fun s => dquote ++ s ++ dquote;
     Date_now := fun w => (Z.of_nat w, w);
     Math_random_base36 := fun w => ("0.4fzyo82mvyr", w);
     TypeError_message := fun cause =>
       match cause with
       | ReadOfNullish JsNull p =>
           "Cannot read properties of null (reading '" ++ p ++ "')"
       | ReadOfNullish JsUndefined p =>
           "Cannot read properties of undefined (reading '" ++ p ++ "')"
       | NotAFunction callee => callee ++ " is not a function"
       end |}.

#[local] Existing Instance platform.

(** A backend whose single-shot operations all give [reply], whose chat
    stream is [stream] and whose text stream is [text]. *)
Definition scripted (reply : string + JsThrown) (stream : Stream StreamChunk)
    (text : Stream string) : @AIAdapter platform :=
  {| a_chatCompletion := fun _ w => (reply, S w);
     a_chatStream := fun _ w => (stream, S w);
     a_generateText := fun _ w => (reply, S w);
     a_generateTextStream := fun _ w => (text, S w);
     a_summarize := fun _ w => (reply, S w);
     a_createEmbeddings := fun _ w => (reply, S w) |}.

Definition meta0 : ChunkMeta := mkMeta "chunk" "m" 0.

Definition hello : StreamChunk := ContentChunk meta0 "Hel" "Hel" (Some "assistant").
Definition world_ : StreamChunk := ContentChunk meta0 "lo" "Hello" (Some "assistant").
Definition stop : StreamChunk := DoneChunk meta0 (Some "stop").
Definition overloaded : StreamChunk := ErrorChunk meta0 "overloaded".

(** A backend that is down: every operation raises. *)
Definition down (msg : string) : @AIAdapter platform :=
  scripted (inr (JsError msg)) (SRaise (JsError msg)) (SRaise (JsError msg)).

(** A backend whose operations reject with [undefined], as
    [Promise.reject()] does, and whose streams raise it. *)
Definition silent : @AIAdapter platform :=
  scripted (inr (JsNullish JsUndefined)) (SRaise (JsNullish JsUndefined))
    (SRaise (JsNullish JsUndefined)).

(** A backend that answers. *)
Definition up (answer : string) : @AIAdapter platform :=
  scripted (inl answer)
    (yields [ContentChunk meta0 answer answer (Some "assistant"); stop] SDone)
    (yields [answer] SDone).

(** A backend whose chat stream breaks after two content chunks. *)
Definition flaky : @AIAdapter platform :=
  scripted (inr (JsError "overloaded"))
    (yields [hello; world_; overloaded; stop] SDone)
    (SRaise (JsError "overloaded")).

(** A backend that asks for the tool [lookup] in every round. *)
Definition lookupCall : ToolCall := mkToolCall "call_1" "lookup" "{}".

Definition askLookup : StreamChunk := ToolCallChunk meta0 lookupCall 0.
Definition doneToolCalls : StreamChunk := DoneChunk meta0 (Some "tool_calls").

Definition asker : @AIAdapter platform :=
  scripted (inl "asked") (yields [askLookup; doneToolCalls] SDone) SDone.

Definition lookupTool : @Tool platform :=
  {| tool_name := "lookup";
     tool_execute := Some (fun args w => (inl ("found " ++ args), w)) |}.

(** A tool whose [execute] raises. *)
Definition brokenTool : @Tool platform :=
  {| tool_name := "lookup";
     tool_execute := Some (fun _ w => (inr (JsError "disk full"), w)) |}.

(** A tool whose [execute] rejects with [undefined]. *)
Definition voidTool : @Tool platform :=
  {| tool_name := "lookup";
     tool_execute := Some (fun _ w => (inr (JsNullish JsUndefined), w)) |}.

(** A tool whose [execute] throws a string. *)
Definition shoutingTool : @Tool platform :=
  {| tool_name := "lookup";
     tool_execute := Some (fun _ w => (inr (JsOther "boom" None), w)) |}.

Definition ai : @AI platform :=
  {| adapters :=
       [("alpha", down "alpha is down"); ("beta", down "beta is down");
        ("gamma", up "hi from gamma"); ("delta", flaky); ("asker", asker);
        ("silent", silent)];
     fallbacks := None;
     toolRegistry :=
       [("lookup", lookupTool); ("broken", brokenTool); ("void", voidTool);
        ("shouting", shoutingTool)] |}.

Definition start : @Env platform := {| world := 0; calls := []; console := [] |}.

Definition userMessage : Message :=
  mkMessage RUser (Some "hello") None None None.

Definition chatRest (maxIter : option Z) : @ChatRest platform :=
  {| rest_messages := [userMessage]; rest_maxIterations := maxIter; rest_params := tt |}.

Definition chatOptions (t : Target) (toolNames : option (list string)) (maxIter : option Z)
  : @ChatOptions platform :=
  {| chat_target := t; chat_tools := toolNames; chat_rest := chatRest maxIter |}.

Definition silent1 : AdapterFallback := mkFallback "silent" "s1".
Definition beta1 : AdapterFallback := mkFallback "beta" "b1".
Definition gamma1 : AdapterFallback := mkFallback "gamma" "g1".
Definition asker1 : AdapterFallback := mkFallback "asker" "k1".

(** Options with a primary, by the adapter, its model and the per-call
    fallbacks. *)
Definition withPrimary (a m : string) (fbs : list AdapterFallback) : @ChatOptions platform :=
  chatOptions (WithAdapter a m (Some fbs)) None None.

(** Two tool-call fragments that arrive with the larger index first. *)
Definition secondCall : StreamChunk :=
  ToolCallChunk meta0 (mkToolCall "call_b" "second" "{}") 1.
Definition firstCall : StreamChunk :=
  ToolCallChunk meta0 (mkToolCall "call_a" "first" "{}") 0.

(** A heap with one instance, at location 2. *)
Definition heap0 : gmap nat (@HeapObject platform) :=
  <[2 := HInstance 0 (Some [beta1]) 1]>
    (<[1 := HTools [("lookup", lookupTool)]]>
       (<[0 := HAdapters [("alpha", down "alpha is down")]]> ∅)).

Definition instance0 : @AI platform :=
  {| adapters := [("alpha", down "alpha is down")];
     fallbacks := Some [beta1];
     toolRegistry := [("lookup", lookupTool)] |}.

Definition embedOptions (t : Target) : CallOptions (@EmbeddingOptions platform) :=
  @mkCallOptions (@EmbeddingOptions platform) t tt.


Definition textOptions (t : Target) : CallOptions (@TextGenerationOptions platform) :=
  @mkCallOptions (@TextGenerationOptions platform) t tt.

End Sample.

(** More inputs for the runs of the further properties. *)

Module MoreSamples.

Import Sample.

#[local] Existing Instance platform.

Definition alpha1 : AdapterFallback := mkFallback "alpha" "a1".
Definition delta1 : AdapterFallback := mkFallback "delta" "d1".

(** Options without a primary, by the per-call fallbacks. *)
Definition fallbackOnly (fbs : list AdapterFallback) : @ChatOptions platform :=
  chatOptions (FallbackOnly (Some fbs)) None None.

(** A tool that is declared only: it has no [execute] function. *)
Definition declaredTool : @Tool platform :=
  {| tool_name := "lookup"; tool_execute := None |}.

(** An instance whose adapters and tools have array indices among their
    names, created after the other names. *)
Definition numbered : @AI platform :=
  {| adapters := [("alpha", down "alpha is down"); ("1", up "hi from one")];
     fallbacks := None;
     toolRegistry := [("lookup", lookupTool); ("10", brokenTool); ("9", declaredTool)] |}.


(** Fragments of two tool calls, those of index 0 around one of index 1. *)
Definition fragmentA1 : StreamChunk :=
  ToolCallChunk meta0 (mkToolCall "call_a" "lookup" "{q:") 0.
Definition fragmentB : StreamChunk :=
  ToolCallChunk meta0 (mkToolCall "call_b" "other" "{}") 1.
Definition fragmentA2 : StreamChunk :=
  ToolCallChunk meta0 (mkToolCall EmptyString EmptyString "7}") 0.

(** The heap after [addAdapter("beta", ...)] on the instance at 2, and after
    [addAdapter("gamma", ...)] on the instance this returns. *)
Definition afterBeta : nat * gmap nat (@HeapObject platform) :=
  Eval vm_compute in
    match addAdapter 2 "beta" (down "beta is down") heap0 with
    | Some x => x
    | None => (0, heap0)
    end.

Definition afterGamma : nat * gmap nat (@HeapObject platform) :=
  Eval vm_compute in
    match addAdapter (fst afterBeta) "gamma" (up "hi") (snd afterBeta) with
    | Some x => x
    | None => afterBeta
    end.

End MoreSamples.

(** ** Properties *)

Section Properties.

Context `{Platform}.

Local Open Scope list_scope.

(** *** Dictionaries *)

Lemma obj_get_set {V} (o : JsObject V) (k k' : string) (v : V) :
  obj_get (obj_set o k v) k' = if String.eqb k k' then Some v else obj_get o k'.
Proof.
  induction o as [|[k0 v0] o IH]; simpl.
  - reflexivity.
  - destruct (String.eqb k0 k) eqn:E0; simpl.
    + apply String.eqb_eq in E0. subst k0.
      destruct (String.eqb k k'); reflexivity.
    + destruct (String.eqb k0 k') eqn:E1.
      * apply String.eqb_eq in E1. subst k0.
        rewrite String.eqb_sym in E0. rewrite E0. reflexivity.
      * apply IH.
Qed.

(** *** Backend calls *)

(** A name that is not an own key reads as a value of [Object.prototype]
    or as [undefined]. *)
Lemma obj_read_own {V} (o : JsObject V) (k : string) (v : V) :
  obj_get o k = Some v -> obj_read o k = Some (Own v).
Proof.
  intros Hget. unfold obj_read. rewrite Hget. reflexivity.
Qed.

Lemma obj_read_not_own {V} (o : JsObject V) (k : string) :
  obj_get o k = None ->
  obj_read o k = if inheritedKey k then Some (Inherited k) else None.
Proof.
  intros Hget. unfold obj_read. rewrite Hget. reflexivity.
Qed.

Lemma obj_read_Own {V} (o : JsObject V) (k : string) (v : V) :
  obj_read o k = Some (Own v) <-> obj_get o k = Some v.
Proof.
  unfold obj_read. destruct (obj_get o k) as [v'|].
  - split; intros Heq; inversion Heq; reflexivity.
  - destruct (inheritedKey k); split; discriminate.
Qed.

Lemma getAdapter_registered (this : AI) (a : string) (inst : AIAdapter) :
  getAdapter this a = inl (Own inst) <-> obj_get (adapters this) a = Some inst.
Proof.
  unfold getAdapter. rewrite <- obj_read_Own.
  destruct (obj_read (adapters this) a) as [v|]; split; intros Heq;
    inversion Heq; reflexivity.
Qed.

Lemma getAdapter_unregistered (this : AI) (a : string) :
  ~ registered this a ->
  (exists k, getAdapter this a = inl (Inherited k))
  \/ (exists e, getAdapter this a = inr e).
Proof.
  intros Hnot. unfold getAdapter, obj_read.
  destruct (obj_get (adapters this) a) as [inst|] eqn:E.
  - exfalso. apply Hnot. exists inst. exact E.
  - destruct (inheritedKey a); [left|right]; eexists; reflexivity.
Qed.

Lemma callAdapter_registered {P R}
    (method : AIAdapter -> Request P -> World -> (R + JsThrown) * World)
    (callee : string) (this : AI) (a : string) (req : Request P) (st : Env) :
  registered this a ->
  calls (snd (callAdapter method callee this a req st))
  = calls st ++ [mkCall a (req_model req)]
  /\ console (snd (callAdapter method callee this a req st)) = console st.
Proof.
  intros [inst Hinst]. apply getAdapter_registered in Hinst.
  unfold callAdapter. rewrite Hinst.
  destruct (method inst req (world st)) as [r w]. simpl. split; reflexivity.
Qed.

Lemma callAdapter_result {P R}
    (method : AIAdapter -> Request P -> World -> (R + JsThrown) * World)
    (callee : string) (this : AI) (a : string) (req : Request P) (st st' : Env)
    (r : R) :
  callAdapter method callee this a req st = (inl r, st') ->
  calls st' = calls st ++ [mkCall a (req_model req)] /\ console st' = console st.
Proof.
  unfold callAdapter.
  destruct (getAdapter this a) as [[inst|k]|e]; try discriminate.
  destruct (method inst req (world st)) as [r' w]. intros Heq.
  inversion Heq; subst. simpl. split; reflexivity.
Qed.

(** Every attempt of a promise-mode operation is one [callAdapter]. *)
Lemma attemptOf_calls (this : AI) (c : PromiseCall)
    (attempt : string -> string -> M (resultOf c)) (a m : string) (st : Env) :
  attemptOf this c = inl attempt ->
  registered this a ->
  calls (snd (attempt a m st)) = calls st ++ [mkCall a m]
  /\ console (snd (attempt a m st)) = console st.
Proof.
  intros Hatt Hreg. destruct c; simpl in Hatt;
    [destruct (resolveTools this (chat_tools options)); [|discriminate]| | |];
    inversion Hatt; subst;
    unfold chatAttempt, generateTextAttempt, summarizeAttempt, embedAttempt;
    match goal with
    | |- context [callAdapter ?f ?ce ?t ?x ?q ?s] =>
        exact (callAdapter_registered f ce t x q s Hreg)
    end.
Qed.

Lemma attemptOf_result (this : AI) (c : PromiseCall)
    (attempt : string -> string -> M (resultOf c)) (a m : string) (st st' : Env)
    (r : resultOf c) :
  attemptOf this c = inl attempt ->
  attempt a m st = (inl r, st') ->
  calls st' = calls st ++ [mkCall a m] /\ console st' = console st.
Proof.
  intros Hatt Hrun. destruct c; simpl in Hatt;
    [destruct (resolveTools this (chat_tools options)); [|discriminate]| | |];
    inversion Hatt; subst;
    unfold chatAttempt, generateTextAttempt, summarizeAttempt, embedAttempt in Hrun;
    match type of Hrun with
    | callAdapter ?f ?ce ?t ?x ?q ?s = _ =>
        exact (callAdapter_result f ce t x q s st' r Hrun)
    end.
Qed.

Lemma callAdapter_unregistered {P R}
    (method : AIAdapter -> Request P -> World -> (R + JsThrown) * World)
    (callee : string) (this : AI) (a : string) (req : Request P) (st : Env) :
  ~ registered this a ->
  snd (callAdapter method callee this a req st) = st.
Proof.
  intros Hnot. unfold callAdapter.
  destruct (getAdapter_unregistered this a Hnot) as [[k Hk]|[e He]].
  - rewrite Hk. reflexivity.
  - rewrite He. reflexivity.
Qed.

Lemma callAdapter_console {P R}
    (method : AIAdapter -> Request P -> World -> (R + JsThrown) * World)
    (callee : string) (this : AI) (a : string) (req : Request P) (st : Env) :
  console (snd (callAdapter method callee this a req st)) = console st.
Proof.
  unfold callAdapter. destruct (getAdapter this a) as [[inst|k]|e]; try reflexivity.
  destruct (method inst req (world st)). reflexivity.
Qed.

(** The attempts of a promise-mode operation, whichever it is. *)
Ltac attempt_cases Hatt :=
  match type of Hatt with
  | attemptOf ?this ?c = inl _ =>
      destruct c; simpl in Hatt;
      [match type of Hatt with
       | context [resolveTools ?t ?n] => destruct (resolveTools t n); [|discriminate]
       end| | |];
      inversion Hatt; subst;
      unfold chatAttempt, generateTextAttempt, summarizeAttempt, embedAttempt in *
  end.

Lemma attemptOf_unregistered (this : AI) (c : PromiseCall)
    (attempt : string -> string -> M (resultOf c)) (a m : string) (st : Env) :
  attemptOf this c = inl attempt ->
  ~ registered this a ->
  snd (attempt a m st) = st.
Proof.
  intros Hatt Hnot. attempt_cases Hatt;
    match goal with
    | |- context [callAdapter ?f ?ce ?t ?x ?q ?s] =>
        exact (callAdapter_unregistered f ce t x q s Hnot)
    end.
Qed.

Lemma attemptOf_console (this : AI) (c : PromiseCall)
    (attempt : string -> string -> M (resultOf c)) (a m : string) (st : Env) :
  attemptOf this c = inl attempt ->
  console (snd (attempt a m st)) = console st.
Proof.
  intros Hatt. attempt_cases Hatt;
    match goal with
    | |- context [callAdapter ?f ?ce ?t ?x ?q ?s] =>
        exact (callAdapter_console f ce t x q s)
    end.
Qed.

(** *** Walks that fail *)

Lemma FailedAttempts_length {R} (operation : AdapterFallback -> M R)
    (kind operationName : string) st entries es st' :
  FailedAttempts operation kind operationName st entries es st' ->
  List.length es = List.length entries.
Proof.
  induction 1; simpl; [reflexivity | f_equal; assumption].
Qed.

Lemma failuresOf_length entries es :
  List.length es = List.length entries -> List.length (failuresOf entries es) = List.length entries.
Proof.
  revert es. induction entries as [|fb entries IH]; intros [|e es] Hlen;
    simpl in *; try reflexivity; try discriminate.
  f_equal. apply IH. lia.
Qed.

Lemma failuresOf_entries entries es :
  List.length es = List.length entries ->
  map (fun f => mkFallback (f_adapter f) (f_model f)) (failuresOf entries es) = entries.
Proof.
  revert es. induction entries as [|[a m] entries IH]; intros [|e es] Hlen;
    simpl in *; try reflexivity; try discriminate.
  f_equal. apply IH. lia.
Qed.

(** Reading the message of a value that is neither [null] nor
    [undefined] does not throw, and of these two it does. *)
Lemma readMessage_value (e : JsThrown) :
  isNullish e = false -> readMessage e = inl (messageOf e).
Proof.
  destruct e; simpl; [reflexivity | reflexivity | discriminate].
Qed.

Lemma readMessage_nullish (e : JsThrown) :
  isNullish e = true ->
  exists v, e = JsNullish v /\ readMessage e = inr (typeError (ReadOfNullish v "message")).
Proof.
  destruct e as [m|s m|v]; simpl; try discriminate.
  intros _. exists v. split; reflexivity.
Qed.

Lemma FailedAttempts_values {R} (operation : AdapterFallback -> M R)
    (kind operationName : string) st entries es st' :
  FailedAttempts operation kind operationName st entries es st' ->
  Forall (fun e => isNullish e = false) es.
Proof.
  induction 1; constructor; assumption.
Qed.

Lemma walkFallbacks_failed {R} (operation : AdapterFallback -> M R)
    (operationName : string) st entries es st' :
  FailedAttempts operation "Adapter" operationName st entries es st' ->
  forall errors,
    walkFallbacks operation operationName errors entries st
    = (inr (errors ++ failuresOf entries es), st').
Proof.
  induction 1 as [st|st fb e st1 more es st2 Hop Hval _ IH]; intros errors; simpl.
  - rewrite app_nil_r. reflexivity.
  - rewrite Hop, (readMessage_value e Hval), IH, <- app_assoc. reflexivity.
Qed.




(** *** The primary attempt and what follows it *)

Lemma primaryThenFallbacks_success {R} operationName
    (attempt : string -> string -> M R) a m fl st r st' :
  attempt a m st = (inl r, st') ->
  primaryThenFallbacks operationName attempt a m fl st = (inl r, st').
Proof.
  intros Hrun. unfold primaryThenFallbacks, tryCatch. rewrite Hrun. reflexivity.
Qed.

Lemma primaryThenFallbacks_rethrow {R} operationName
    (attempt : string -> string -> M R) a m fl st e st' :
  attempt a m st = (inr e, st') ->
  noFallbacks fl = true ->
  primaryThenFallbacks operationName attempt a m fl st = (inr e, st').
Proof.
  intros Hrun Hno. unfold primaryThenFallbacks, tryCatch. rewrite Hrun, Hno.
  reflexivity.
Qed.

Lemma primaryThenFallbacks_walk {R} operationName
    (attempt : string -> string -> M R) a m fl st e st' :
  attempt a m st = (inr e, st') ->
  noFallbacks fl = false ->
  isNullish e = false ->
  primaryThenFallbacks operationName attempt a m fl st
  = tryWithFallback (chainOf fl)
      (fun fallback => attempt (adapter fallback) (model fallback))
      (operationName ++ " (after primary failure)")%string
      (warnEnv (adapterFailedWarning "Primary adapter" a m operationName) e st').
Proof.
  intros Hrun Hno Hval. unfold primaryThenFallbacks, tryCatch. rewrite Hrun, Hno.
  unfold bind, console_warn. rewrite (readMessage_value e Hval). reflexivity.
Qed.

(** With a chain to walk, a primary that raises [null] or [undefined]
    ends the operation: the [catch] block throws before the walk. *)
Lemma primaryThenFallbacks_nullish {R} operationName
    (attempt : string -> string -> M R) a m fl st v st' :
  attempt a m st = (inr (JsNullish v), st') ->
  noFallbacks fl = false ->
  primaryThenFallbacks operationName attempt a m fl st
  = (inr (typeError (ReadOfNullish v "message")), st').
Proof.
  intros Hrun Hno. unfold primaryThenFallbacks, tryCatch. rewrite Hrun, Hno.
  reflexivity.
Qed.

(** With an adapter given, each promise-mode operation is the primary
    attempt followed by the walk, once its tools are resolved. *)
Lemma runPromise_with_adapter (this : AI) (c : PromiseCall)
    (attempt : string -> string -> M (resultOf c)) a m fbs st :
  attemptOf this c = inl attempt ->
  targetOf c = WithAdapter a m fbs ->
  runPromise this c st
  = primaryThenFallbacks (nameOf c) attempt a m
      (effectiveFallbacks fbs (fallbacks this)) st.
Proof.
  intros Hatt Htgt. destruct c; simpl in *.
  - unfold chatPromise. rewrite Htgt.
    destruct (resolveTools this (chat_tools options)) as [toolObjects|]; [|discriminate].
    inversion Hatt; subst. reflexivity.
  - inversion Hatt; subst. unfold generateText, promiseMode. rewrite Htgt. reflexivity.
  - inversion Hatt; subst. unfold summarize, promiseMode. rewrite Htgt. reflexivity.
  - inversion Hatt; subst. unfold embed, promiseMode. rewrite Htgt. reflexivity.
Qed.

Lemma failuresOf_messages entries es :
  List.length es = List.length entries ->
  map f_message (failuresOf entries es) = map asErrorMessage es.
Proof.
  revert es. induction entries as [|fb entries IH]; intros [|e es] Hlen;
    simpl in *; try reflexivity; try discriminate.
  f_equal. apply IH. lia.
Qed.

(** *** Promise mode with a primary *)

(** C1 (amended).  For every promise-mode operation called with a primary
    (adapter, model) and a non-empty effective fallback chain: if the primary
    attempt and then every chain entry fail, each with a value other than
    [null] and [undefined], the operation raises the all-adapters-failed
    error whose operation label is the operation name followed by
    " (after primary failure)" and whose list holds one
    (adapter, model, message) entry per chain entry, in chain order.  The
    failure of the primary is not in the list, so its length is the chain
    length. *)
Theorem C1_all_failed_lists_the_chain (this : AI) (c : PromiseCall)
    (attempt : string -> string -> M (resultOf c)) (a m : string)
    (fbs : option (list AdapterFallback)) (st st0 st1 : Env)
    (e0 : JsThrown) (es : list JsThrown) :
  let chain := chainOf (effectiveFallbacks fbs (fallbacks this)) in
  let label := (nameOf c ++ " (after primary failure)")%string in
  attemptOf this c = inl attempt ->
  targetOf c = WithAdapter a m fbs ->
  noFallbacks (effectiveFallbacks fbs (fallbacks this)) = false ->
  attempt a m st = (inr e0, st0) ->
  FailedAttempts (fun f => attempt (adapter f) (model f)) "Adapter" label
    (warnEnv (adapterFailedWarning "Primary adapter" a m (nameOf c)) e0 st0)
    chain es st1 ->
  Forall (fun e => isNullish e = false) (e0 :: es) ->
  runPromise this c st
  = (inr (JsError (allAdaptersFailedMessage label (failuresOf chain es))), st1)
  /\ map (fun f => mkFallback (f_adapter f) (f_model f)) (failuresOf chain es) = chain
  /\ map f_message (failuresOf chain es) = map asErrorMessage es
  /\ List.length (failuresOf chain es) = List.length chain.
Proof.
  intros chain label Hatt Htgt Hsome Hprimary Hwalk Hvals.
  assert (Hval : isNullish e0 = false) by (inversion Hvals; assumption).
  pose proof (FailedAttempts_length _ _ _ _ _ _ _ Hwalk) as Hlen.
  split; [|split; [|split]].
  - rewrite (runPromise_with_adapter this c attempt a m fbs st Hatt Htgt).
    rewrite (primaryThenFallbacks_walk _ _ _ _ _ _ _ _ Hprimary Hsome Hval).
    unfold tryWithFallback. fold chain. fold label.
    rewrite (walkFallbacks_failed _ _ _ _ _ _ Hwalk []). reflexivity.
  - apply failuresOf_entries. exact Hlen.
  - apply failuresOf_messages. exact Hlen.
  - apply failuresOf_length. exact Hlen.
Qed.

(** C2.  For every promise-mode operation given a primary adapter: when the
    primary backend call succeeds, its result is returned and the only
    backend call made is the primary one, with no warning written; when the
    primary call raises and the effective fallback chain is empty or absent,
    the very value raised is raised again, and no other backend is called. *)
Theorem C2_primary_result_or_primary_error (this : AI) (c : PromiseCall)
    (attempt : string -> string -> M (resultOf c)) (a m : string)
    (fbs : option (list AdapterFallback)) (st : Env) :
  attemptOf this c = inl attempt ->
  targetOf c = WithAdapter a m fbs ->
  (forall r st',
      attempt a m st = (inl r, st') ->
      runPromise this c st = (inl r, st')
      /\ calls st' = calls st ++ [mkCall a m]
      /\ console st' = console st)
  /\ (forall e st',
        attempt a m st = (inr e, st') ->
        noFallbacks (effectiveFallbacks fbs (fallbacks this)) = true ->
        runPromise this c st = (inr e, st')
        /\ (registered this a -> calls st' = calls st ++ [mkCall a m])
        /\ (~ registered this a -> calls st' = calls st)
        /\ console st' = console st).
Proof.
  intros Hatt Htgt. split.
  - intros r st' Hrun.
    rewrite (runPromise_with_adapter this c attempt a m fbs st Hatt Htgt).
    split; [apply primaryThenFallbacks_success; exact Hrun|].
    exact (attemptOf_result this c attempt a m st st' r Hatt Hrun).
  - intros e st' Hrun Hno.
    rewrite (runPromise_with_adapter this c attempt a m fbs st Hatt Htgt).
    split; [apply primaryThenFallbacks_rethrow; assumption|].
    split; [|split].
    + intros Hreg.
      destruct (attemptOf_calls this c attempt a m st Hatt Hreg) as [Hc _].
      rewrite Hrun in Hc. exact Hc.
    + intros Hnot.
      pose proof (attemptOf_unregistered this c attempt a m st Hatt Hnot) as Hu.
      rewrite Hrun in Hu. simpl in Hu. subst st'. reflexivity.
    + pose proof (attemptOf_console this c attempt a m st Hatt) as Hc.
      rewrite Hrun in Hc. exact Hc.
Qed.


(** *** Streaming without tool executors *)

Lemma forwardUntilError_clean {C} (errorOf : C -> option string) (s : Stream C) :
  Forall (fun c => errorOf c = None) (fst (forwardUntilError errorOf s)).
Proof.
  induction s as [|e|c more IH]; simpl; try constructor.
  destruct (errorOf c) eqn:E; simpl; [constructor|].
  destruct (forwardUntilError errorOf more) as [out r]. simpl in *.
  constructor; assumption.
Qed.

Lemma forwardUntilError_break {C} (errorOf : C -> option string)
    (pre : list C) (err : C) (msg : string) (more : Stream C) :
  Forall (fun c => errorOf c = None) pre ->
  errorOf err = Some msg ->
  forwardUntilError errorOf (yields pre (SYield err more))
  = (pre, Some (JsError (orElse msg "Unknown error"))).
Proof.
  intros Hpre Herr. induction Hpre as [|c pre Hc _ IH]; simpl.
  - rewrite Herr. reflexivity.
  - rewrite Hc, IH. reflexivity.
Qed.

Lemma streamAttempt_clean {C} (errorOf : C -> option string)
    (operation : M (Stream C)) (st : Env) :
  Forall (fun c => errorOf c = None) (fst (fst (streamAttempt errorOf operation st))).
Proof.
  unfold streamAttempt. destruct (operation st) as [[s|e] st']; simpl.
  - pose proof (forwardUntilError_clean errorOf s) as Hs.
    destruct (forwardUntilError errorOf s) as [out r]. exact Hs.
  - constructor.
Qed.

Lemma walkStreamFallbacks_clean {C} (errorOf : C -> option string)
    (operation : AdapterFallback -> M (Stream C)) (kind operationName : string)
    (entries : list AdapterFallback) :
  forall errors st,
    Forall (fun c => errorOf c = None)
      (fst (fst (walkStreamFallbacks errorOf operation kind operationName
                   errors entries st))).
Proof.
  induction entries as [|fb more IH]; intros errors st; simpl; [constructor|].
  pose proof (streamAttempt_clean errorOf (operation fb) st) as Hfirst.
  destruct (streamAttempt errorOf (operation fb) st) as [[out [e|]] st']; simpl in *.
  - destruct (readMessage e) as [msg|thrown]; [|exact Hfirst].
    specialize (IH (errors ++ [mkFailure (adapter fb) (model fb) (asErrorMessage e)])
                  (warnEnv (adapterFailedWarning kind (adapter fb) (model fb)
                              operationName) e st')).
    destruct (walkStreamFallbacks errorOf operation kind operationName _ more _)
      as [[out' r] st'']. simpl in *.
    apply Forall_app. split; assumption.
  - exact Hfirst.
Qed.

Lemma finishWalk_output {C} (operationName : string)
    (x : list C * (unit + JsThrown + list Failure) * Env) :
  fst (fst (finishWalk operationName x)) = fst (fst x).
Proof.
  destruct x as [[out [outcome|errors]] st]; reflexivity.
Qed.

Lemma isErrorChunk_false (c : StreamChunk) :
  isErrorChunk c = false <-> chunkError c = None.
Proof.
  unfold isErrorChunk. destruct (chunkError c); split; congruence.
Qed.

Lemma clean_chunks (out : list StreamChunk) :
  Forall (fun c => chunkError c = None) out ->
  Forall (fun c => isErrorChunk c = false) out.
Proof.
  intros Hout. induction Hout as [|c out Hc _ IH]; constructor.
  - apply isErrorChunk_false. exact Hc.
  - exact IH.
Qed.

(** The step of a streaming walk on an entry whose stream breaks with an
    error chunk. *)
Lemma walkStreamFallbacks_break {C} (errorOf : C -> option string)
    (operation : AdapterFallback -> M (Stream C)) (kind operationName : string)
    errors fb more st pre err msg tail st1 :
  operation fb st = (inl (yields pre (SYield err tail)), st1) ->
  Forall (fun c => errorOf c = None) pre ->
  errorOf err = Some msg ->
  walkStreamFallbacks errorOf operation kind operationName errors (fb :: more) st
  = emitFirst pre
      (walkStreamFallbacks errorOf operation kind operationName
         (errors ++ [mkFailure (adapter fb) (model fb) (orElse msg "Unknown error")])
         more
         (warnEnv (adapterFailedWarning kind (adapter fb) (model fb) operationName)
            (JsError (orElse msg "Unknown error")) st1)).
Proof.
  intros Hop Hpre Herr. simpl. unfold streamAttempt. rewrite Hop.
  rewrite (forwardUntilError_break errorOf pre err msg tail Hpre Herr).
  reflexivity.
Qed.

Lemma streamPrimaryThenFallbacks_clean {C} (errorOf : C -> option string)
    (operationName : string) (primary : M (Stream C))
    (operation : AdapterFallback -> M (Stream C)) a m fl st :
  Forall (fun c => errorOf c = None)
    (fst (fst (streamPrimaryThenFallbacks errorOf operationName primary operation
                 a m fl st))).
Proof.
  unfold streamPrimaryThenFallbacks.
  pose proof (streamAttempt_clean errorOf primary st) as Hfirst.
  destruct (streamAttempt errorOf primary st) as [[out [e|]] st']; simpl in *;
    [|exact Hfirst].
  destruct (noFallbacks fl); [exact Hfirst|].
  destruct (readMessage e) as [msg|thrown]; [|exact Hfirst].
  match goal with
  | |- context [finishWalk ?n ?x] =>
      pose proof (finishWalk_output n x) as Hfin;
      pose proof (walkStreamFallbacks_clean errorOf operation "Fallback adapter"
                    operationName (chainOf fl)
                    [mkFailure a m (asErrorMessage e)]
                    (warnEnv (adapterFailedWarning "Primary adapter" a m operationName)
                       e st')) as Hrest;
      destruct (finishWalk n x) as [[out' r] st'']
  end.
  simpl in *. rewrite <- Hfin in Hrest.
  apply Forall_app. split; assumption.
Qed.

(** C5.  In streaming chat without tool executors, for an attempt whose
    stream yields the chunks [pre] and then an error chunk: the chunks of
    [pre] are forwarded in order, the error chunk is not forwarded, and the
    attempt counts as failed, so that the walk goes on with the next chain
    entry (or ends with the failure when none is left).  This holds for a
    chain entry at any point of a walk and for the primary attempt; and no
    call of this kind ever forwards an error chunk. *)
Theorem C5_error_chunk_fails_the_attempt (this : AI) (options : ChatOptions)
    (toolObjects : option ToolObjects) :
  let r := chat_rest options in
  let operation := fun f : AdapterFallback =>
    chatStreamAttempt this r toolObjects (adapter f) (model f) in
  let request := fun m : string =>
    chatRequest r m toolObjects (Some true) (rest_messages r) in
  resolveTools this (chat_tools options) = inl toolObjects ->
  hasToolExecutors toolObjects = false ->
  (forall st,
      Forall (fun c => isErrorChunk c = false) (fst (fst (chatStream this options st))))
  /\ (forall fbs st,
        chat_target options = FallbackOnly fbs ->
        noFallbacks (effectiveFallbacks fbs (fallbacks this)) = false ->
        chatStream this options st
        = finishWalk "streamChat"
            (walkStreamFallbacks chunkError operation "Adapter" "streamChat" []
               (chainOf (effectiveFallbacks fbs (fallbacks this))) st))
  /\ (forall kind operationName errors fb more st inst pre err msg tail w,
        getAdapter this (adapter fb) = inl (Own inst) ->
        a_chatStream inst (request (model fb)) (world st)
        = (yields pre (SYield err tail), w) ->
        Forall (fun c => isErrorChunk c = false) pre ->
        chunkError err = Some msg ->
        walkStreamFallbacks chunkError operation kind operationName errors
          (fb :: more) st
        = emitFirst pre
            (walkStreamFallbacks chunkError operation kind operationName
               (errors ++ [mkFailure (adapter fb) (model fb)
                             (orElse msg "Unknown error")])
               more
               (warnEnv (adapterFailedWarning kind (adapter fb) (model fb)
                           operationName)
                  (JsError (orElse msg "Unknown error"))
                  (recordCall (adapter fb) (model fb) w st))))
  /\ (forall a m fbs st inst pre err msg tail w,
        chat_target options = WithAdapter a m fbs ->
        getAdapter this a = inl (Own inst) ->
        a_chatStream inst (request m) (world st) = (yields pre (SYield err tail), w) ->
        Forall (fun c => isErrorChunk c = false) pre ->
        chunkError err = Some msg ->
        chatStream this options st
        = if noFallbacks (effectiveFallbacks fbs (fallbacks this)) then
            (pre, inr (JsError (orElse msg "Unknown error")), recordCall a m w st)
          else
            emitFirst pre
              (finishWalk "streamChat"
                 (walkStreamFallbacks chunkError operation "Fallback adapter"
                    "streamChat" [mkFailure a m (orElse msg "Unknown error")]
                    (chainOf (effectiveFallbacks fbs (fallbacks this)))
                    (warnEnv (adapterFailedWarning "Primary adapter" a m "streamChat")
                       (JsError (orElse msg "Unknown error"))
                       (recordCall a m w st))))).
Proof.
  intros r operation request Htools Hexec.
  assert (Hpre : forall pre : list StreamChunk,
             Forall (fun c => isErrorChunk c = false) pre ->
             Forall (fun c => chunkError c = None) pre).
  { intros pre Hp. induction Hp as [|c pre Hc _ IH]; constructor;
      [apply isErrorChunk_false; exact Hc | exact IH]. }
  split; [|split; [|split]].
  - intros st. apply clean_chunks. unfold chatStream.
    destruct (planStream this (chat_target options)) as [plan|e]; [|constructor].
    rewrite Htools, Hexec. simpl negb. rewrite andb_true_r.
    destruct (isFallbackOnlyMode plan).
    + unfold tryStreamWithFallback. rewrite finishWalk_output.
      apply walkStreamFallbacks_clean.
    + destruct (getAdapter this (adapterToUse plan)) as [inst|e]; [|constructor].
      apply streamPrimaryThenFallbacks_clean.
  - intros fbs st Htgt Hsome. unfold chatStream, planStream. rewrite Htgt.
    destruct (effectiveFallbacks fbs (fallbacks this)) as [[|f fs]|] eqn:E;
      try discriminate.
    rewrite Htools, Hexec. reflexivity.
  - intros kind operationName errors fb more st inst pre err msg tail w
      Hget Hrun Hclean Herr.
    apply (walkStreamFallbacks_break chunkError operation kind operationName
             errors fb more st pre err msg tail (recordCall (adapter fb) (model fb) w st));
      [|apply Hpre; exact Hclean|exact Herr].
    unfold operation, chatStreamAttempt, openStream. rewrite Hget.
    fold r. fold (request (model fb)). rewrite Hrun. reflexivity.
  - intros a m fbs st inst pre err msg tail w Htgt Hget Hrun Hclean Herr.
    unfold chatStream, planStream. rewrite Htgt, Htools, Hexec. simpl.
    rewrite Hget. unfold streamPrimaryThenFallbacks, streamAttempt, openStream.
    fold r. fold (request m). rewrite Hrun.
    rewrite (forwardUntilError_break chunkError pre err msg tail (Hpre pre Hclean) Herr).
    destruct (noFallbacks (effectiveFallbacks fbs (fallbacks this))); reflexivity.
Qed.

(** *** The tool-execution loop *)

Lemma streamRound_output (s : Stream StreamChunk) :
  forall rs, fst (streamRound s rs) = chunksOf s.
Proof.
  induction s as [|e|c more IH]; intros rs; simpl; try reflexivity.
  specialize (IH (observeChunk c rs)).
  destruct (streamRound more (observeChunk c rs)) as [out r]. simpl in *.
  f_equal. exact IH.
Qed.

Lemma streamRound_raised (s : Stream StreamChunk) (e : JsThrown) :
  raisedBy s = Some e ->
  forall rs, streamRound s rs = (chunksOf s, inr e).
Proof.
  induction s as [|e'|c more IH]; intros Hr rs; simpl in *; try discriminate.
  - inversion Hr. reflexivity.
  - rewrite (IH Hr). reflexivity.
Qed.

Lemma catchToolError_frame (error : JsThrown) (tc : ToolCall) (st : Env) :
  calls (snd (catchToolError error tc st)) = calls st
  /\ console (snd (catchToolError error tc st)) = console st.
Proof.
  unfold catchToolError. destruct (readMessage error); split; reflexivity.
Qed.

Lemma executeToolCall_frame (toolObjects : option ToolObjects) (m : string)
    (tc : ToolCall) (st : Env) :
  calls (snd (executeToolCall toolObjects m tc st)) = calls st
  /\ console (snd (executeToolCall toolObjects m tc st)) = console st.
Proof.
  unfold executeToolCall.
  destruct (findTool toolObjects (tc_name tc)) as [[tool|]|thrown];
    try (split; reflexivity).
  destruct (tool_execute tool) as [execute|]; [|split; reflexivity].
  destruct (JSON_parse (tc_arguments tc)) as [args|e];
    [|apply catchToolError_frame].
  destruct (execute args (world st)) as [[result|e] w];
    [|apply (catchToolError_frame e tc (setWorld w st))].
  destruct (generateId w) as [id w1]. destruct (Date_now w1) as [now w2].
  split; reflexivity.
Qed.

Lemma executeToolCalls_frame (toolObjects : option ToolObjects) (m : string)
    (tcs : list ToolCall) :
  forall st,
    calls (snd (executeToolCalls toolObjects m tcs st)) = calls st
    /\ console (snd (executeToolCalls toolObjects m tcs st)) = console st.
Proof.
  induction tcs as [|tc more IH]; intros st; simpl; [split; reflexivity|].
  pose proof (executeToolCall_frame toolObjects m tc st) as [Hc Hw].
  destruct (executeToolCall toolObjects m tc st) as [[[msgs out] [thrown|]] st'];
    [split; assumption|].
  specialize (IH st'). destruct IH as [Hc' Hw'].
  destruct (executeToolCalls toolObjects m more st') as [[[msgs' out'] res] st''].
  simpl in *. split; congruence.
Qed.

(** The loop calls the one adapter it was given, at most [remaining]
    times, and writes no warning. *)
Lemma toolLoop_calls (inst : JsProperty AIAdapter) (a m : string) (r : ChatRest)
    (toolObjects : option ToolObjects) (remaining : nat) :
  forall msgs st,
    exists rounds,
      rounds <= remaining
      /\ calls (snd (toolLoop remaining inst a m r toolObjects msgs st))
         = calls st ++ repeat (mkCall a m) rounds
      /\ console (snd (toolLoop remaining inst a m r toolObjects msgs st)) = console st.
Proof.
  induction remaining as [|n IH]; intros msgs st; simpl.
  - exists 0. rewrite app_nil_r. repeat split; lia.
  - destruct inst as [inst|k]; simpl;
      [|exists 0; rewrite app_nil_r; repeat split; lia].
    destruct (a_chatStream inst (chatRequest r m toolObjects (Some true) msgs) (world st))
      as [s w].
    destruct (streamRound s newRound) as [out [rs|e]].
    + destruct (negb (hasToolCalls rs) || (List.length (roundToolCalls rs) =? 0)%nat).
      * exists 1. simpl. repeat split; lia.
      * pose proof (executeToolCalls_frame toolObjects m (roundToolCalls rs)
                      (recordCall a m w st)) as [Hc Hw].
        destruct (executeToolCalls toolObjects m (roundToolCalls rs)
                    (recordCall a m w st)) as [[[pushed out2] [thrown|]] st2].
        -- exists 1. simpl in *. split; [lia|]. split; assumption.
        -- specialize (IH (msgs ++ assistantMessage (roundToolCalls rs) :: pushed) st2).
           destruct IH as (rounds & Hle & Hcalls & Hcons).
           destruct (toolLoop n (Own inst) a m r toolObjects _ st2) as [[out3 res] st3].
           simpl in *. exists (S rounds). split; [lia|]. split.
           ++ rewrite Hcalls, Hc. simpl. rewrite <- app_assoc. reflexivity.
           ++ rewrite Hcons, Hw. reflexivity.
    + exists 1. simpl. repeat split; lia.
Qed.

(** A round that does not end on a tool-triggering terminal, or that
    finalizes no tool call, is the last one. *)
Lemma toolLoop_last_round (inst : AIAdapter) (a m : string) (r : ChatRest)
    (toolObjects : option ToolObjects) (n : nat) msgs st s w out rs :
  a_chatStream inst (chatRequest r m toolObjects (Some true) msgs) (world st) = (s, w) ->
  streamRound s newRound = (out, inl rs) ->
  hasToolCalls rs = false \/ roundToolCalls rs = [] ->
  toolLoop (S n) (Own inst) a m r toolObjects msgs st = (out, inl tt, recordCall a m w st).
Proof.
  intros Hs Hround Hend. simpl. rewrite Hs, Hround.
  destruct Hend as [Hno|Hempty].
  - rewrite Hno. reflexivity.
  - rewrite Hempty. simpl. rewrite orb_true_r. reflexivity.
Qed.

(** A stream that raises ends the loop with the value raised. *)
Lemma toolLoop_raise (inst : AIAdapter) (a m : string) (r : ChatRest)
    (toolObjects : option ToolObjects) (n : nat) msgs st s w e :
  a_chatStream inst (chatRequest r m toolObjects (Some true) msgs) (world st) = (s, w) ->
  raisedBy s = Some e ->
  toolLoop (S n) (Own inst) a m r toolObjects msgs st
  = (chunksOf s, inr e, recordCall a m w st).
Proof.
  intros Hs Hraise. simpl. rewrite Hs.
  rewrite (streamRound_raised s e Hraise). reflexivity.
Qed.

(** Every chunk of the stream of a round is yielded, as the first output
    of that round. *)
Lemma toolLoop_forwards (inst : AIAdapter) (a m : string) (r : ChatRest)
    (toolObjects : option ToolObjects) (n : nat) msgs st s w :
  a_chatStream inst (chatRequest r m toolObjects (Some true) msgs) (world st) = (s, w) ->
  exists more,
    fst (fst (toolLoop (S n) (Own inst) a m r toolObjects msgs st)) = chunksOf s ++ more.
Proof.
  intros Hs. simpl. rewrite Hs.
  pose proof (streamRound_output s newRound) as Hout.
  destruct (streamRound s newRound) as [out [rs|e]]; simpl in Hout; subst out.
  - destruct (negb (hasToolCalls rs) || (List.length (roundToolCalls rs) =? 0)%nat).
    + exists []. simpl. rewrite app_nil_r. reflexivity.
    + destruct (executeToolCalls toolObjects m (roundToolCalls rs)
                  (recordCall a m w st)) as [[[pushed out2] [thrown|]] st2].
      * exists out2. reflexivity.
      * destruct (toolLoop n (Own inst) a m r toolObjects _ st2) as [[out3 res] st3].
        exists (out2 ++ out3). reflexivity.
  - exists []. simpl. rewrite app_nil_r. reflexivity.
Qed.

(** A round that finalizes tool calls runs them and hands the longer
    conversation to the next round. *)
Lemma toolLoop_continue (inst : AIAdapter) (a m : string) (r : ChatRest)
    (toolObjects : option ToolObjects) (n : nat) msgs st s w out rs pushed out2 st2 :
  a_chatStream inst (chatRequest r m toolObjects (Some true) msgs) (world st) = (s, w) ->
  streamRound s newRound = (out, inl rs) ->
  hasToolCalls rs = true ->
  roundToolCalls rs <> [] ->
  executeToolCalls toolObjects m (roundToolCalls rs) (recordCall a m w st)
  = (pushed, out2, None, st2) ->
  toolLoop (S n) (Own inst) a m r toolObjects msgs st
  = emitFirst (out ++ out2)
      (toolLoop n (Own inst) a m r toolObjects
         (msgs ++ assistantMessage (roundToolCalls rs) :: pushed) st2).
Proof.
  intros Hs Hround Hhas Hne Hexec. simpl. rewrite Hs, Hround, Hhas.
  destruct (roundToolCalls rs) as [|tc tcs] eqn:E; [congruence|].
  simpl negb. simpl orb. cbv iota. rewrite Hexec.
  destruct (toolLoop n (Own inst) a m r toolObjects _ st2) as [[out3 res] st3].
  simpl. rewrite <- app_assoc. reflexivity.
Qed.

(** A round in which running the tools throws is the last one: the
    generator ends with the value thrown, after the chunks of the round. *)
Lemma toolLoop_abort (inst : AIAdapter) (a m : string) (r : ChatRest)
    (toolObjects : option ToolObjects) (n : nat) msgs st s w out rs pushed out2
    thrown st2 :
  a_chatStream inst (chatRequest r m toolObjects (Some true) msgs) (world st) = (s, w) ->
  streamRound s newRound = (out, inl rs) ->
  hasToolCalls rs = true ->
  roundToolCalls rs <> [] ->
  executeToolCalls toolObjects m (roundToolCalls rs) (recordCall a m w st)
  = (pushed, out2, Some thrown, st2) ->
  toolLoop (S n) (Own inst) a m r toolObjects msgs st = (out ++ out2, inr thrown, st2).
Proof.
  intros Hs Hround Hhas Hne Hexec. simpl. rewrite Hs, Hround, Hhas.
  destruct (roundToolCalls rs) as [|tc tcs] eqn:E; [congruence|].
  simpl negb. simpl orb. cbv iota. rewrite Hexec. reflexivity.
Qed.






(** With a tool executor among the tools, [chatStream] is the loop on the
    adapter chosen at the start. *)
Lemma chatStream_tool_mode (this : AI) (options : ChatOptions) (plan : StreamPlan)
    (toolObjects : option ToolObjects) (inst : JsProperty AIAdapter) (st : Env) :
  planStream this (chat_target options) = inl plan ->
  resolveTools this (chat_tools options) = inl toolObjects ->
  hasToolExecutors toolObjects = true ->
  getAdapter this (adapterToUse plan) = inl inst ->
  chatStream this options st
  = toolLoop (Z.to_nat (maxIterationsOf (chat_rest options))) inst
      (adapterToUse plan) (modelToUse plan) (chat_rest options) toolObjects
      (rest_messages (chat_rest options)) st.
Proof.
  intros Hplan Htools Hexec Hget. unfold chatStream.
  rewrite Hplan, Htools, Hexec, Hget. simpl negb. rewrite andb_false_r.
  reflexivity.
Qed.


(** C10.  When a requested tool has an [execute] function, every backend
    call of the streaming chat goes to the adapter and model chosen at the
    start (in fallback-only mode, those of the first chain entry), and no
    failure warning is written: the fallback chain is not walked.  A stream
    that raises ends the call with the value raised, after the chunks it had
    yielded.  All the chunks of the stream of a round are forwarded, the
    error chunks among them. *)
Theorem C10_tool_mode_uses_one_adapter (this : AI) (options : ChatOptions)
    (plan : StreamPlan) (toolObjects : option ToolObjects) (inst : AIAdapter) :
  let r := chat_rest options in
  let a := adapterToUse plan in
  let m := modelToUse plan in
  planStream this (chat_target options) = inl plan ->
  resolveTools this (chat_tools options) = inl toolObjects ->
  hasToolExecutors toolObjects = true ->
  getAdapter this a = inl (Own inst) ->
  match chat_target options with
  | WithAdapter a0 m0 _ => a = a0 /\ m = m0
  | FallbackOnly fbs =>
      exists first more,
        effectiveFallbacks fbs (fallbacks this) = Some (first :: more)
        /\ a = adapter first /\ m = model first
  end
  /\ (forall st, exists rounds,
        calls (snd (chatStream this options st)) = calls st ++ repeat (mkCall a m) rounds
        /\ console (snd (chatStream this options st)) = console st)
  /\ (forall st s w e,
        a_chatStream inst (chatRequest r m toolObjects (Some true) (rest_messages r))
          (world st) = (s, w) ->
        raisedBy s = Some e ->
        0 < Z.to_nat (maxIterationsOf r) ->
        chatStream this options st = (chunksOf s, inr e, recordCall a m w st))
  /\ (forall n msgs st s w e,
        a_chatStream inst (chatRequest r m toolObjects (Some true) msgs) (world st)
        = (s, w) ->
        raisedBy s = Some e ->
        toolLoop (S n) (Own inst) a m r toolObjects msgs st
        = (chunksOf s, inr e, recordCall a m w st))
  /\ (forall n msgs st s w c,
        a_chatStream inst (chatRequest r m toolObjects (Some true) msgs) (world st)
        = (s, w) ->
        In c (chunksOf s) ->
        exists more,
          fst (fst (toolLoop (S n) (Own inst) a m r toolObjects msgs st))
          = chunksOf s ++ more
          /\ In c (fst (fst (toolLoop (S n) (Own inst) a m r toolObjects msgs st)))).
Proof.
  intros r a m Hplan Htools Hexec Hget.
  split; [|split; [|split; [|split]]].
  - unfold planStream in Hplan. destruct (chat_target options) as [a0 m0 fbs|fbs].
    + inversion Hplan; subst. split; reflexivity.
    + destruct (effectiveFallbacks fbs (fallbacks this)) as [[|first more]|];
        try discriminate.
      inversion Hplan; subst. exists first, more. repeat split; reflexivity.
  - intros st.
    rewrite (chatStream_tool_mode this options plan toolObjects (Own inst) st
               Hplan Htools Hexec Hget).
    destruct (toolLoop_calls (Own inst) a m r toolObjects (Z.to_nat (maxIterationsOf r))
                (rest_messages r) st) as (rounds & _ & Hcalls & Hcons).
    exists rounds. split; assumption.
  - intros st s w e Hs Hraise Hpos.
    rewrite (chatStream_tool_mode this options plan toolObjects (Own inst) st
               Hplan Htools Hexec Hget).
    fold r a m. destruct (Z.to_nat (maxIterationsOf r)) as [|n]; [lia|].
    apply toolLoop_raise; assumption.
  - intros n msgs st s w e. apply toolLoop_raise.
  - intros n msgs st s w c Hs Hin.
    destruct (toolLoop_forwards inst a m r toolObjects n msgs st s w Hs) as [more Hout].
    exists more. split; [exact Hout|]. rewrite Hout. apply in_or_app. left. exact Hin.
Qed.

(** *** Tool failures *)

Lemma executeToolCalls_app (toolObjects : option ToolObjects) (m : string)
    (before after : list ToolCall) :
  forall st,
    executeToolCalls toolObjects m (before ++ after) st
    = match executeToolCalls toolObjects m before st with
      | (msgs1, out1, Some thrown, st1) => (msgs1, out1, Some thrown, st1)
      | (msgs1, out1, None, st1) =>
          let '(msgs2, out2, res, st2) := executeToolCalls toolObjects m after st1 in
          (msgs1 ++ msgs2, out1 ++ out2, res, st2)
      end.
Proof.
  induction before as [|tc before IH]; intros st; simpl.
  - destruct (executeToolCalls toolObjects m after st) as [[[msgs2 out2] res] st2].
    reflexivity.
  - destruct (executeToolCall toolObjects m tc st) as [[[msgs out] [thrown|]] st'];
      [reflexivity|].
    rewrite IH.
    destruct (executeToolCalls toolObjects m before st')
      as [[[msgs1 out1] [thrown|]] st1]; [reflexivity|].
    destruct (executeToolCalls toolObjects m after st1) as [[[msgs2 out2] res] st2].
    rewrite !app_assoc. reflexivity.
Qed.

(** What [executeToolCall] does on a call whose arguments do not parse or
    whose [execute] raises a value other than [null] and [undefined]. *)
Lemma executeToolCall_failure (toolObjects : option ToolObjects) (m : string)
    (tc : ToolCall) (tool : Tool)
    (execute : Json -> World -> (string + JsThrown) * World)
    (e : JsThrown) (st st' : Env) :
  findTool toolObjects (tc_name tc) = inl (Some tool) ->
  tool_execute tool = Some execute ->
  (exists syntaxError,
      JSON_parse (tc_arguments tc) = inr syntaxError
      /\ e = JsError syntaxError /\ st' = st)
  \/ (exists args w,
        JSON_parse (tc_arguments tc) = inl args
        /\ execute args (world st) = (inr e, w)
        /\ st' = setWorld w st) ->
  isNullish e = false ->
  executeToolCall toolObjects m tc st = ([toolMessage (errorPayload e) tc], [], None, st').
Proof.
  intros Hfind Hexec Hfail Hval. unfold executeToolCall. rewrite Hfind, Hexec.
  destruct Hfail as [(syntaxError & Hparse & -> & ->)|(args & w & Hparse & Hrun & ->)];
    rewrite Hparse.
  - reflexivity.
  - rewrite Hrun. unfold catchToolError. rewrite (readMessage_value e Hval).
    reflexivity.
Qed.

(** What it does when [execute] raises [null] or [undefined]: the [catch]
    block throws, no message is pushed, and the generator ends. *)
Lemma executeToolCall_nullish (toolObjects : option ToolObjects) (m : string)
    (tc : ToolCall) (tool : Tool)
    (execute : Json -> World -> (string + JsThrown) * World)
    (args : Json) (v : Nullish) (w : World) (st : Env) :
  findTool toolObjects (tc_name tc) = inl (Some tool) ->
  tool_execute tool = Some execute ->
  JSON_parse (tc_arguments tc) = inl args ->
  execute args (world st) = (inr (JsNullish v), w) ->
  executeToolCall toolObjects m tc st
  = ([], [], Some (typeError (ReadOfNullish v "message")), setWorld w st).
Proof.
  intros Hfind Hexec Hparse Hrun. unfold executeToolCall.
  rewrite Hfind, Hexec, Hparse, Hrun. reflexivity.
Qed.

(** C8 (amended).  In the tool-execution loop, for a finalized tool call
    whose tool is found and has an [execute] function, and whose argument
    text does not parse or whose [execute] raises a value other than [null]
    and [undefined]: one tool-role message is appended to the conversation,
    with the identifier and the function name of the call; its body is the
    JSON object that holds the message of the failure under [error] when
    the failure has a message, as every [Error] has, and the empty object
    otherwise; no chunk is yielded for the call and nothing is raised by
    it; the calls after it in the round are run, and unless one of them
    throws the loop goes on to its next round with the conversation that
    holds the message. *)
Theorem C8_tool_failure_becomes_message (toolObjects : option ToolObjects)
    (m : string) (tc : ToolCall) (tool : Tool)
    (execute : Json -> World -> (string + JsThrown) * World)
    (e : JsThrown) (st st' : Env) :
  let reply := toolMessage (errorPayload e) tc in
  findTool toolObjects (tc_name tc) = inl (Some tool) ->
  tool_execute tool = Some execute ->
  (exists syntaxError,
      JSON_parse (tc_arguments tc) = inr syntaxError
      /\ e = JsError syntaxError /\ st' = st)
  \/ (exists args w,
        JSON_parse (tc_arguments tc) = inl args
        /\ execute args (world st) = (inr e, w)
        /\ st' = setWorld w st) ->
  isNullish e = false ->
  executeToolCall toolObjects m tc st = ([reply], [], None, st')
  /\ role reply = RTool
  /\ toolCallId reply = Some (tc_id tc)
  /\ name reply = Some (tc_name tc)
  /\ (forall msg,
        messageOf e = Some msg ->
        content reply
        = Some ("{" ++ dquote ++ "error" ++ dquote ++ ":"
                  ++ JSON_stringify_string msg ++ "}")%string)
  /\ (messageOf e = None -> content reply = Some "{}"%string)
  /\ (forall inst a r n msgs st0 s w out rs before after msgsB outB,
        a_chatStream inst (chatRequest r m toolObjects (Some true) msgs) (world st0)
        = (s, w) ->
        streamRound s newRound = (out, inl rs) ->
        hasToolCalls rs = true ->
        roundToolCalls rs = before ++ tc :: after ->
        executeToolCalls toolObjects m before (recordCall a m w st0)
        = (msgsB, outB, None, st) ->
        exists msgsA outA resA stA,
          executeToolCalls toolObjects m after st' = (msgsA, outA, resA, stA)
          /\ toolLoop (S n) (Own inst) a m r toolObjects msgs st0
             = match resA with
               | Some thrown => (out ++ outB ++ outA, inr thrown, stA)
               | None =>
                   emitFirst (out ++ outB ++ outA)
                     (toolLoop n (Own inst) a m r toolObjects
                        (msgs ++ assistantMessage (roundToolCalls rs)
                           :: msgsB ++ reply :: msgsA)
                        stA)
               end).
Proof.
  intros reply Hfind Hexec Hfail Hval.
  pose proof (executeToolCall_failure toolObjects m tc tool execute e st st'
                Hfind Hexec Hfail Hval) as Hcall.
  split; [exact Hcall|]. split; [reflexivity|]. split; [reflexivity|].
  split; [reflexivity|]. split; [|split].
  - intros msg Hmsg. unfold reply, toolMessage, errorPayload. simpl.
    rewrite Hmsg. reflexivity.
  - intros Hnone. unfold reply, toolMessage, errorPayload. simpl.
    rewrite Hnone. reflexivity.
  - intros inst a r n msgs st0 s w out rs before after msgsB outB
      Hs Hround Hhas Hcalls Hbefore.
    destruct (executeToolCalls toolObjects m after st')
      as [[[msgsA outA] resA] stA] eqn:Hafter.
    exists msgsA, outA, resA, stA. split; [reflexivity|].
    assert (Hall : executeToolCalls toolObjects m (roundToolCalls rs)
                     (recordCall a m w st0)
                   = (msgsB ++ reply :: msgsA, outB ++ outA, resA, stA)).
    { rewrite Hcalls, executeToolCalls_app, Hbefore. simpl.
      rewrite Hcall, Hafter. reflexivity. }
    assert (Hne : roundToolCalls rs <> []).
    { rewrite Hcalls. destruct before; discriminate. }
    destruct resA as [thrown|].
    + rewrite (toolLoop_abort inst a m r toolObjects n msgs st0 s w out rs
                 _ _ thrown stA Hs Hround Hhas Hne Hall).
      reflexivity.
    + rewrite (toolLoop_continue inst a m r toolObjects n msgs st0 s w out rs
                 _ _ _ Hs Hround Hhas Hne Hall).
      reflexivity.
Qed.

(** *** The finalized tool calls *)

Lemma map_set_keys {V} (mp : JsMap V) (k : Z) (v : V) :
  map fst (map_set mp k v)
  = if existsb (Z.eqb k) (map fst mp) then map fst mp else map fst mp ++ [k].
Proof.
  induction mp as [|[k' v'] mp IH]; simpl; [reflexivity|].
  rewrite (Z.eqb_sym k k').
  destruct (Z.eqb k' k); simpl; [reflexivity|].
  rewrite IH. destruct (existsb (Z.eqb k) (map fst mp)); reflexivity.
Qed.

Lemma arrivalOrder_In (ks : list Z) :
  forall seen i, In i (arrivalOrder seen ks) <-> In i seen \/ In i ks.
Proof.
  induction ks as [|k ks IH]; intros seen i; simpl.
  - tauto.
  - destruct (existsb (Z.eqb k) seen) eqn:E; rewrite IH.
    + apply existsb_exists in E. destruct E as (x & Hx & Hk).
      apply Z.eqb_eq in Hk. subst x.
      split; [tauto|]. intros [Hs|[->|Hi]]; tauto.
    + rewrite in_app_iff. simpl. tauto.
Qed.

Lemma arrivalOrder_NoDup (ks : list Z) :
  forall seen, List.NoDup seen -> List.NoDup (arrivalOrder seen ks).
Proof.
  induction ks as [|k ks IH]; intros seen Hnd; simpl; [exact Hnd|].
  destruct (existsb (Z.eqb k) seen) eqn:E; apply IH; [exact Hnd|].
  apply NoDup_ListNoDup. apply NoDup_app. repeat split.
  - apply NoDup_ListNoDup. exact Hnd.
  - intros x Hx Hk. apply list_elem_of_In in Hx. apply list_elem_of_In in Hk.
    destruct Hk as [->|[]].
    assert (existsb (Z.eqb x) seen = true) as Ht; [|congruence].
    apply existsb_exists. exists x. split; [exact Hx|apply Z.eqb_refl].
  - apply NoDup_singleton.
Qed.

(** *** [addAdapter] *)

Lemma alloc_fresh (h : gmap nat HeapObject) (o : HeapObject) :
  h !! fst (alloc h o) = None
  /\ snd (alloc h o) !! fst (alloc h o) = Some o
  /\ (forall l, is_Some (h !! l) -> snd (alloc h o) !! l = h !! l).
Proof.
  unfold alloc. simpl.
  assert (Hfresh : h !! fresh (dom h) = None).
  { apply not_elem_of_dom. apply is_fresh. }
  split; [exact Hfresh|]. split; [apply lookup_insert_eq|].
  intros l [x Hx]. apply lookup_insert_ne. intros Heq. subst l. congruence.
Qed.

(** C9.  [addAdapter(name, backend)] returns a new instance whose adapter
    map is the map of the receiver with the entry for [name] set to the
    backend (an entry of the same name is overwritten), which has no default
    fallback chain and an empty tool registry.  Every object that was on the
    heap is as it was, so the adapter map, the fallback chain and the tool
    registry of the receiver are unchanged. *)
Theorem C9_addAdapter_builds_a_new_instance (h : gmap nat HeapObject)
    (this : nat) (n : string) (a : AIAdapter) (ai : AI) :
  instanceAt h this = Some ai ->
  exists new h',
    addAdapter this n a h = Some (new, h')
    /\ instanceAt h' new = Some (mkAI (obj_set (adapters ai) n a) None [])
    /\ (forall k,
          obj_get (obj_set (adapters ai) n a) k
          = if String.eqb n k then Some a else obj_get (adapters ai) k)
    /\ (forall l, is_Some (h !! l) -> h' !! l = h !! l)
    /\ instanceAt h' this = Some ai
    /\ new <> this.
Proof.
  intros Hinst. unfold instanceAt in Hinst.
  destruct (h !! this) as [[| |ar fb tr]|] eqn:Hthis; try discriminate.
  destruct (h !! ar) as [[o| |]|] eqn:Har; try discriminate.
  destruct (h !! tr) as [[|t|]|] eqn:Htr; try discriminate.
  inversion Hinst; subst ai; clear Hinst. cbn [adapters].
  unfold addAdapter. rewrite Hthis, Har.
  set (o1 := HAdapters (obj_set o n a)).
  destruct (alloc_fresh h o1) as (Hf1 & Hn1 & Hk1).
  destruct (alloc h o1) as [l1 h1] eqn:E1. cbn [fst snd] in Hf1, Hn1, Hk1.
  unfold newAI. cbn [cfg_tools cfg_adapters cfg_fallbacks].
  destruct (alloc_fresh h1 (HTools [])) as (Hf2 & Hn2 & Hk2).
  destruct (alloc h1 (HTools [])) as [l2 h2] eqn:E2. cbn [fst snd] in Hf2, Hn2, Hk2.
  destruct (alloc_fresh h2 (HInstance l1 None l2)) as (Hf3 & Hn3 & Hk3).
  destruct (alloc h2 (HInstance l1 None l2)) as [l3 h3] eqn:E3.
  cbn [fst snd] in Hf3, Hn3, Hk3.
  assert (Hkeep : forall l, is_Some (h !! l) -> h3 !! l = h !! l).
  { intros l Hl. rewrite Hk3, Hk2, Hk1; try reflexivity; try exact Hl.
    - rewrite Hk1; exact Hl.
    - rewrite Hk2, Hk1; try exact Hl. rewrite Hk1; exact Hl. }
  exists l3, h3. split; [reflexivity|]. split; [|split; [|split; [|split]]].
  - unfold instanceAt. rewrite Hn3.
    rewrite (Hk3 l1) by (rewrite (Hk2 l1) by (rewrite Hn1; eauto); rewrite Hn1; eauto).
    rewrite (Hk2 l1) by (rewrite Hn1; eauto). rewrite Hn1.
    rewrite (Hk3 l2) by (rewrite Hn2; eauto). rewrite Hn2. reflexivity.
  - intros k. apply obj_get_set.
  - exact Hkeep.
  - unfold instanceAt.
    rewrite (Hkeep this) by (rewrite Hthis; eauto). rewrite Hthis.
    rewrite (Hkeep ar) by (rewrite Har; eauto). rewrite Har.
    rewrite (Hkeep tr) by (rewrite Htr; eauto). rewrite Htr. reflexivity.
  - intros ->. rewrite (Hk2 this), (Hk1 this) in Hf3; try (rewrite Hthis; eauto).
    + congruence.
    + rewrite (Hk1 this); rewrite Hthis; eauto.
Qed.

(** ** Further properties of the orchestrator *)

(** *** The registries *)

Lemma getToolsByNames_Forall2 (this : AI) (names : list string) :
  forall ts,
    getToolsByNames this names = inl ts
    <-> Forall2 (fun n t => obj_read (toolRegistry this) n = Some t) names ts.
Proof.
  induction names as [|n names IH]; intros ts; simpl.
  - split.
    + intros Heq. inversion Heq. constructor.
    + intros Hall. inversion Hall. reflexivity.
  - unfold getTool. destruct (obj_read (toolRegistry this) n) as [t|] eqn:En.
    + destruct (getToolsByNames this names) as [ts'|e] eqn:Erest.
      * split.
        -- intros Heq. inversion Heq; subst. constructor; [exact En|].
           apply IH. reflexivity.
        -- intros Hall. inversion Hall as [|? t0 ? ts0 Hn Hrest]; subst.
           apply IH in Hrest. inversion Hrest; subst.
           rewrite En in Hn. inversion Hn. reflexivity.
      * split; [discriminate|].
        intros Hall. inversion Hall as [|? t0 ? ts0 Hn Hrest]; subst.
        apply IH in Hrest. discriminate.
    + split; [discriminate|].
      intros Hall. inversion Hall as [|? t0 ? ts0 Hn Hrest]; subst. congruence.
Qed.

(** A name is readable in a registry when it is registered or when
    [Object.prototype] defines it. *)
Lemma obj_read_is_Some {V} (o : JsObject V) (k : string) :
  is_Some (obj_read o k) <-> is_Some (obj_get o k) \/ inheritedKey k = true.
Proof.
  unfold obj_read. destruct (obj_get o k) as [v|].
  - split; [intros _; left; eauto | intros _; eauto].
  - destruct (inheritedKey k); split.
    + intros _. right. reflexivity.
    + intros _. eauto.
    + intros [x Hx]. discriminate.
    + intros [[x Hx]|Hk]; discriminate.
Qed.

Lemma obj_read_None {V} (o : JsObject V) (k : string) :
  obj_read o k = None <-> obj_get o k = None /\ inheritedKey k = false.
Proof.
  unfold obj_read. destruct (obj_get o k) as [v|].
  - split; [discriminate | intros [Hget _]; discriminate].
  - destruct (inheritedKey k); split; try discriminate.
    + intros [_ Hk]. discriminate.
    + intros _. split; reflexivity.
    + intros _. reflexivity.
Qed.

Lemma getToolsByNames_unknown (this : AI) (pre : list string) (n : string)
    (post : list string) :
  Forall (fun k => is_Some (obj_get (toolRegistry this) k) \/ inheritedKey k = true) pre ->
  obj_get (toolRegistry this) n = None ->
  inheritedKey n = false ->
  getToolsByNames this (pre ++ n :: post)
  = inr (JsError (toolNotFoundMessage n (obj_keys (toolRegistry this)))).
Proof.
  intros Hpre Hn Hk.
  assert (Hnone : obj_read (toolRegistry this) n = None).
  { apply obj_read_None. split; assumption. }
  induction Hpre as [|k pre Hread _ IH]; simpl.
  - unfold getTool. rewrite Hnone. reflexivity.
  - apply obj_read_is_Some in Hread. destruct Hread as [t Ht].
    unfold getTool at 1. rewrite Ht, IH. reflexivity.
Qed.

Lemma getToolsByNames_registered (this : AI) (names : list string) (tools : list Tool) :
  Forall2 (fun n t => obj_get (toolRegistry this) n = Some t) names tools ->
  getToolsByNames this names = inl (map Own tools).
Proof.
  intros Hall. apply getToolsByNames_Forall2.
  induction Hall as [|n t names tools Hn _ IH]; simpl; constructor.
  - apply obj_read_own. exact Hn.
  - exact IH.
Qed.

(** X1.  [getToolsByNames] gives, in the order of the names and one per
    name, what the registry holds under each name: the tool registered
    under it or, for a name that is not registered and that
    [Object.prototype] defines, the value inherited from there.  When every
    name is registered the result is the list of their tools.  The first
    name that is neither registered nor defined by [Object.prototype]
    throws the tool-not-found error, whose message lists the registered
    names in the order of [Object.keys]. *)
Theorem X1_getToolsByNames_in_order (this : AI) :
  let registry := toolRegistry this in
  (forall names ts,
      getToolsByNames this names = inl ts
      <-> Forall2 (fun n t => obj_read registry n = Some t) names ts)
  /\ (forall names ts,
        getToolsByNames this names = inl ts -> List.length ts = List.length names)
  /\ (forall names tools,
        Forall2 (fun n t => obj_get registry n = Some t) names tools ->
        getToolsByNames this names = inl (map Own tools))
  /\ (forall n,
        obj_get registry n = None ->
        inheritedKey n = true ->
        getTool this n = inl (Inherited n))
  /\ (forall pre n post,
        Forall (fun k => is_Some (obj_get registry k) \/ inheritedKey k = true) pre ->
        obj_get registry n = None ->
        inheritedKey n = false ->
        getToolsByNames this (pre ++ n :: post)
        = inr (JsError (toolNotFoundMessage n (obj_keys registry)))).
Proof.
  intros registry.
  split; [apply getToolsByNames_Forall2|]. split; [|split; [|split]].
  - intros names ts Hok. apply getToolsByNames_Forall2 in Hok.
    symmetry. exact (Forall2_length _ _ _ Hok).
  - intros names tools. apply getToolsByNames_registered.
  - intros n Hget Hk. unfold getTool. fold registry.
    rewrite (obj_read_not_own registry n Hget), Hk. reflexivity.
  - intros pre n post. apply getToolsByNames_unknown.
Qed.

(** X2.  When a requested tool name is neither registered nor defined by
    [Object.prototype], [chatStream] and [chatPromise] end with the
    tool-not-found error of the first such name in the state they started
    in: no backend is called and nothing is yielded.  In fallback-only mode
    the check of the fallback list comes first: without any fallback the
    no-fallbacks error is raised instead.  For [chatPromise] in
    fallback-only mode this takes the per-call list to be present: without
    it the call ends earlier still, with the [TypeError] of reading the
    length of the list. *)
Theorem X2_unknown_tool_before_any_call (this : AI) (options : ChatOptions)
    (pre post : list string) (n : string) (st : Env) :
  let notFound := JsError (toolNotFoundMessage n (obj_keys (toolRegistry this))) in
  let raised :=
    match chat_target options with
    | FallbackOnly fbs =>
        if noFallbacks (effectiveFallbacks fbs (fallbacks this))
        then JsError noFallbacksMessage else notFound
    | WithAdapter _ _ _ => notFound
    end in
  chat_tools options = Some (pre ++ n :: post) ->
  Forall (fun k => is_Some (obj_get (toolRegistry this) k) \/ inheritedKey k = true) pre ->
  obj_get (toolRegistry this) n = None ->
  inheritedKey n = false ->
  chatStream this options st = ([], inr raised, st)
  /\ (chat_target options <> FallbackOnly None ->
      chatPromise this options st = (inr raised, st))
  /\ (chat_target options = FallbackOnly None ->
      chatPromise this options st
      = (inr (typeError (ReadOfNullish JsUndefined "length")), st)).
Proof.
  intros notFound raised Hnames Hpre Hn Hk.
  assert (Htools : resolveTools this (chat_tools options) = inr notFound).
  { rewrite Hnames. unfold resolveTools.
    rewrite (getToolsByNames_unknown this pre n post Hpre Hn Hk). reflexivity. }
  unfold raised, chatPromise, chatStream, planStream.
  destruct (chat_target options) as [a m fbs|fbs].
  - unfold bind, liftE. rewrite Htools.
    split; [reflexivity|]. split; [reflexivity | discriminate].
  - split; [|split].
    + destruct (effectiveFallbacks fbs (fallbacks this)) as [[|f fs]|];
        simpl; try reflexivity.
      rewrite Htools. reflexivity.
    + intros Hpresent. destruct fbs as [fbs|]; [|congruence]. cbv zeta.
      destruct (effectiveFallbacks (Some fbs) (fallbacks this)) as [[|f fs]|];
        simpl; try reflexivity.
      unfold bind, liftE. rewrite Htools. reflexivity.
    + intros Habsent. inversion Habsent; subst fbs. reflexivity.
Qed.

Lemma getAdapter_unknown (this : AI) (a : string) :
  obj_get (adapters this) a = None ->
  inheritedKey a = false ->
  getAdapter this a = inr (JsError (adapterNotFoundMessage a (obj_keys (adapters this)))).
Proof.
  intros Hget Hk. unfold getAdapter.
  rewrite (obj_read_not_own _ a Hget), Hk. reflexivity.
Qed.

Lemma getAdapter_inherited (this : AI) (a : string) :
  obj_get (adapters this) a = None ->
  inheritedKey a = true ->
  getAdapter this a = inl (Inherited a).
Proof.
  intros Hget Hk. unfold getAdapter.
  rewrite (obj_read_not_own _ a Hget), Hk. reflexivity.
Qed.

(** X3.  An adapter name that is neither registered nor defined by
    [Object.prototype] is treated differently by the two modes of [chat].
    In streaming mode with an adapter given, the lookup is outside the
    [try]: the call ends at once with the adapter-not-found error, nothing
    is yielded, no backend is called and no fallback is tried, whatever the
    fallbacks and the tools are; the same holds in fallback-only mode with a
    tool executor when the first chain entry names the unknown adapter.  In
    promise mode the lookup is inside the [try]: with a non-empty effective
    chain the fallbacks are walked after the warning, and without one the
    error is raised.  A name that is not registered but that
    [Object.prototype] defines passes the lookup: in streaming mode without
    a tool executor the primary attempt then fails inside the [try], with
    the [TypeError] of calling a method that the inherited value does not
    have and without a backend call, and the fallbacks are walked. *)
Theorem X3_unknown_adapter_by_mode (this : AI) (options : ChatOptions)
    (toolObjects : option ToolObjects) (st : Env) :
  let operation := fun f : AdapterFallback =>
    chatStreamAttempt this (chat_rest options) toolObjects (adapter f) (model f) in
  resolveTools this (chat_tools options) = inl toolObjects ->
  (forall a m fbs,
      chat_target options = WithAdapter a m fbs ->
      obj_get (adapters this) a = None ->
      inheritedKey a = false ->
      chatStream this options st
      = ([], inr (JsError (adapterNotFoundMessage a (obj_keys (adapters this)))), st)
      /\ chatPromise this options st
         = if noFallbacks (effectiveFallbacks fbs (fallbacks this)) then
             (inr (JsError (adapterNotFoundMessage a (obj_keys (adapters this)))), st)
           else
             tryWithFallback (chainOf (effectiveFallbacks fbs (fallbacks this)))
               (fun f =>
                  chatAttempt this (chat_rest options) toolObjects (adapter f) (model f))
               "chat (after primary failure)"
               (warnEnv (adapterFailedWarning "Primary adapter" a m "chat")
                  (JsError (adapterNotFoundMessage a (obj_keys (adapters this)))) st))
  /\ (forall fbs first more,
        chat_target options = FallbackOnly fbs ->
        effectiveFallbacks fbs (fallbacks this) = Some (first :: more) ->
        hasToolExecutors toolObjects = true ->
        obj_get (adapters this) (adapter first) = None ->
        inheritedKey (adapter first) = false ->
        chatStream this options st
        = ([], inr (JsError (adapterNotFoundMessage (adapter first)
                               (obj_keys (adapters this)))), st))
  /\ (forall a m fbs,
        chat_target options = WithAdapter a m fbs ->
        obj_get (adapters this) a = None ->
        inheritedKey a = true ->
        hasToolExecutors toolObjects = false ->
        chatStream this options st
        = if noFallbacks (effectiveFallbacks fbs (fallbacks this)) then
            ([], inr (typeError (NotAFunction "adapterInstance.chatStream")), st)
          else
            finishWalk "streamChat"
              (walkStreamFallbacks chunkError operation "Fallback adapter" "streamChat"
                 [mkFailure a m
                    (TypeError_message (NotAFunction "adapterInstance.chatStream"))]
                 (chainOf (effectiveFallbacks fbs (fallbacks this)))
                 (warnEnv (adapterFailedWarning "Primary adapter" a m "streamChat")
                    (typeError (NotAFunction "adapterInstance.chatStream")) st))).
Proof.
  intros operation Htools. split; [|split].
  - intros a m fbs Htgt Hnone Hk. split.
    + unfold chatStream, planStream. rewrite Htgt, Htools. simpl.
      rewrite (getAdapter_unknown this a Hnone Hk).
      destruct (hasToolExecutors toolObjects); reflexivity.
    + unfold chatPromise. rewrite Htgt. cbv zeta. unfold bind at 1, liftE.
      rewrite Htools. unfold primaryThenFallbacks, tryCatch.
      unfold chatAttempt at 1, callAdapter.
      rewrite (getAdapter_unknown this a Hnone Hk).
      destruct (noFallbacks (effectiveFallbacks fbs (fallbacks this))); reflexivity.
  - intros fbs first more Htgt Heff Hexec Hnone Hk.
    unfold chatStream, planStream. rewrite Htgt, Heff, Htools, Hexec. simpl.
    rewrite (getAdapter_unknown this _ Hnone Hk). reflexivity.
  - intros a m fbs Htgt Hnone Hk Hexec.
    unfold chatStream, planStream. rewrite Htgt, Htools, Hexec. simpl.
    rewrite (getAdapter_inherited this a Hnone Hk).
    unfold streamPrimaryThenFallbacks, streamAttempt, openStream.
    destruct (noFallbacks (effectiveFallbacks fbs (fallbacks this))); [reflexivity|].
    cbn [readMessage typeError]. fold operation.
    destruct (finishWalk "streamChat" _) as [[out' res] st'']. reflexivity.
Qed.

Lemma attemptOf_calls_cases (this : AI) (c : PromiseCall)
    (attempt : string -> string -> M (resultOf c)) (a m : string) (st : Env) :
  attemptOf this c = inl attempt ->
  calls (snd (attempt a m st)) = calls st
  \/ calls (snd (attempt a m st)) = calls st ++ [mkCall a m].
Proof.
  intros Hatt. destruct (obj_get (adapters this) a) as [inst|] eqn:E.
  - right. apply (attemptOf_calls this c attempt a m st Hatt). exists inst. exact E.
  - left. rewrite (attemptOf_unregistered this c attempt a m st Hatt); [reflexivity|].
    intros [inst Hinst]. unfold registered in *. congruence.
Qed.

(** *** Promise mode without a primary *)

Lemma runPromise_fallback_only (this : AI) (c : PromiseCall)
    (attempt : string -> string -> M (resultOf c)) fbs st :
  attemptOf this c = inl attempt ->
  targetOf c = FallbackOnly fbs ->
  fallbacksGiven c ->
  noFallbacks (effectiveFallbacks fbs (fallbacks this)) = false ->
  runPromise this c st
  = tryWithFallback (chainOf (effectiveFallbacks fbs (fallbacks this)))
      (fun f => attempt (adapter f) (model f)) (nameOf c) st.
Proof.
  intros Hatt Htgt Hgiven Hsome.
  destruct c; simpl in Hatt, Htgt, Hgiven; simpl runPromise; simpl nameOf.
  - unfold chatPromise. rewrite Htgt.
    destruct fbs as [fbs|]; [|congruence]. cbv zeta. rewrite Hsome.
    destruct (resolveTools this (chat_tools options)); [|discriminate].
    inversion Hatt; subst. reflexivity.
  - inversion Hatt; subst. unfold generateText, promiseMode.
    rewrite Htgt. cbv zeta. rewrite Hsome. reflexivity.
  - inversion Hatt; subst. unfold summarize, promiseMode.
    rewrite Htgt. cbv zeta. rewrite Hsome. reflexivity.
  - inversion Hatt; subst. unfold embed, promiseMode.
    rewrite Htgt. cbv zeta. rewrite Hsome. reflexivity.
Qed.

(** Without an adapter and without any fallback, the no-fallbacks error is
    raised at once. *)
Lemma runPromise_no_fallbacks (this : AI) (c : PromiseCall) fbs st :
  targetOf c = FallbackOnly fbs ->
  fallbacksGiven c ->
  noFallbacks (effectiveFallbacks fbs (fallbacks this)) = true ->
  runPromise this c st = (inr (JsError noFallbacksMessage), st).
Proof.
  intros Htgt Hgiven Hno.
  destruct c; simpl in Htgt, Hgiven; simpl runPromise;
    unfold chatPromise, generateText, summarize, embed, promiseMode;
    rewrite Htgt; [destruct fbs as [fbs|]; [|congruence]| | |];
    cbv zeta; rewrite Hno; reflexivity.
Qed.

(** X4.  In fallback-only mode, when every entry of the effective chain
    fails with a value other than [null] and [undefined], each promise-mode
    operation raises the all-adapters-failed error under its plain
    operation name, and the list holds one entry per chain entry, the first
    entry included, in chain order.  For [chat] this takes the per-call
    list to be present. *)
Theorem X4_fallback_only_all_failed (this : AI) (c : PromiseCall)
    (attempt : string -> string -> M (resultOf c))
    (fbs : option (list AdapterFallback)) (st st1 : Env) (es : list JsThrown) :
  let chain := chainOf (effectiveFallbacks fbs (fallbacks this)) in
  attemptOf this c = inl attempt ->
  targetOf c = FallbackOnly fbs ->
  fallbacksGiven c ->
  noFallbacks (effectiveFallbacks fbs (fallbacks this)) = false ->
  FailedAttempts (fun f => attempt (adapter f) (model f)) "Adapter" (nameOf c)
    st chain es st1 ->
  Forall (fun e => isNullish e = false) es ->
  runPromise this c st
  = (inr (JsError (allAdaptersFailedMessage (nameOf c) (failuresOf chain es))), st1)
  /\ map (fun f => mkFallback (f_adapter f) (f_model f)) (failuresOf chain es) = chain
  /\ map f_message (failuresOf chain es) = map asErrorMessage es
  /\ List.length (failuresOf chain es) = List.length chain.
Proof.
  intros chain Hatt Htgt Hgiven Hsome Hwalk _.
  pose proof (FailedAttempts_length _ _ _ _ _ _ _ Hwalk) as Hlen.
  split; [|split; [|split]].
  - rewrite (runPromise_fallback_only this c attempt fbs st Hatt Htgt Hgiven Hsome).
    unfold tryWithFallback. fold chain.
    rewrite (walkFallbacks_failed _ _ _ _ _ _ Hwalk []). reflexivity.
  - apply failuresOf_entries. exact Hlen.
  - apply failuresOf_messages. exact Hlen.
  - apply failuresOf_length. exact Hlen.
Qed.


(** *** Which backends a promise-mode call may reach *)

Lemma walkFallbacks_calls (this : AI) (c : PromiseCall)
    (attempt : string -> string -> M (resultOf c)) (operationName : string)
    (entries : list AdapterFallback) :
  attemptOf this c = inl attempt ->
  forall errors st,
    exists new,
      calls (snd (walkFallbacks (fun f => attempt (adapter f) (model f))
                    operationName errors entries st))
      = calls st ++ new
      /\ new `sublist_of` map callOf entries.
Proof.
  intros Hatt. induction entries as [|fb more IH]; intros errors st; simpl.
  - exists []. rewrite app_nil_r. split; [reflexivity|constructor].
  - pose proof (attemptOf_calls_cases this c attempt (adapter fb) (model fb) st Hatt)
      as Hfirst.
    assert (Hstop : exists new,
               calls (snd (attempt (adapter fb) (model fb) st)) = calls st ++ new
               /\ new `sublist_of` callOf fb :: map callOf more).
    { destruct Hfirst as [Hsame|Hone].
      - exists []. rewrite app_nil_r. split; [exact Hsame|apply sublist_nil_l].
      - exists [callOf fb]. split; [exact Hone|].
        apply sublist_skip. apply sublist_nil_l. }
    destruct (attempt (adapter fb) (model fb) st) as [[r|e] st'] eqn:Erun;
      simpl in Hfirst, Hstop; [exact Hstop|].
    destruct (readMessage e) as [msg|thrown]; [|exact Hstop].
    match goal with
    | |- context [walkFallbacks _ _ ?errs more ?s0] =>
        destruct (IH errs s0) as (new & Hcalls & Hsub)
    end.
    simpl in Hcalls. rewrite Hcalls.
    destruct Hfirst as [Hsame|Hone].
    + exists new. rewrite Hsame. split; [reflexivity|].
      apply sublist_cons. exact Hsub.
    + exists (callOf fb :: new). rewrite Hone, <- app_assoc.
      split; [reflexivity|]. apply sublist_skip. exact Hsub.
Qed.

Lemma tryWithFallback_calls (this : AI) (c : PromiseCall)
    (attempt : string -> string -> M (resultOf c)) (operationName : string)
    (entries : list AdapterFallback) (st : Env) :
  attemptOf this c = inl attempt ->
  exists new,
    calls (snd (tryWithFallback entries (fun f => attempt (adapter f) (model f))
                  operationName st))
    = calls st ++ new
    /\ new `sublist_of` map callOf entries.
Proof.
  intros Hatt. unfold tryWithFallback.
  destruct (walkFallbacks_calls this c attempt operationName entries Hatt [] st)
    as (new & Hcalls & Hsub).
  exists new. split; [|exact Hsub].
  destruct (walkFallbacks _ operationName [] entries st) as [[outcome|errors] st'];
    exact Hcalls.
Qed.

(** A promise-mode operation that ends before its first attempt leaves
    the state as it was. *)
Lemma runPromise_unresolved (this : AI) (c : PromiseCall) (e : JsThrown) (st : Env) :
  attemptOf this c = inr e ->
  snd (runPromise this c st) = st.
Proof.
  intros Hatt. destruct c; simpl in Hatt; try discriminate.
  destruct (resolveTools this (chat_tools options)) as [t|e'] eqn:Htools;
    [discriminate|].
  simpl. unfold chatPromise.
  destruct (chat_target options) as [a m fbs|[fbs|]]; cbv zeta.
  - unfold bind, liftE. rewrite Htools. reflexivity.
  - destruct (noFallbacks (effectiveFallbacks (Some fbs) (fallbacks this)));
      [reflexivity|].
    unfold bind, liftE. rewrite Htools. reflexivity.
  - reflexivity.
Qed.

(** X6.  Whatever the backends do, the backend calls of a promise-mode
    operation are added after the calls made before, and they form a
    sub-sequence of the primary (when one is given) followed by the entries
    of the effective chain: no other backend is called, none is called out
    of order or twice for one position, and the number of calls is at most
    the length of that plan. *)
Theorem X6_promise_calls_follow_the_plan (this : AI) (c : PromiseCall) (st : Env) :
  exists new,
    calls (snd (runPromise this c st)) = calls st ++ new
    /\ new `sublist_of` plannedCalls this (targetOf c)
    /\ List.length new <= List.length (plannedCalls this (targetOf c)).
Proof.
  assert (Hgoal : exists new,
             calls (snd (runPromise this c st)) = calls st ++ new
             /\ new `sublist_of` plannedCalls this (targetOf c)).
  { destruct (attemptOf this c) as [attempt|e] eqn:Hatt.
    - destruct (targetOf c) as [a m fbs|fbs] eqn:Htgt; simpl plannedCalls.
      + rewrite (runPromise_with_adapter this c attempt a m fbs st Hatt Htgt).
        unfold primaryThenFallbacks, tryCatch.
        pose proof (attemptOf_calls_cases this c attempt a m st Hatt) as Hfirst.
        assert (Hstop : exists new,
                   calls (snd (attempt a m st)) = calls st ++ new
                   /\ new `sublist_of`
                        mkCall a m
                        :: map callOf (chainOf (effectiveFallbacks fbs (fallbacks this)))).
        { destruct Hfirst as [Hsame|Hone].
          - exists []. rewrite app_nil_r. split; [exact Hsame|apply sublist_nil_l].
          - exists [mkCall a m]. split; [exact Hone|].
            apply sublist_skip. apply sublist_nil_l. }
        destruct (attempt a m st) as [[r|e] st'] eqn:Erun; simpl in Hfirst, Hstop;
          [exact Hstop|].
        destruct (noFallbacks (effectiveFallbacks fbs (fallbacks this)));
          [exact Hstop|].
        unfold bind, console_warn.
        destruct (readMessage e) as [msg|thrown]; [|exact Hstop].
        match goal with
        | |- context [tryWithFallback ?l _ ?n ?s0] =>
            destruct (tryWithFallback_calls this c attempt n l s0 Hatt)
              as (new & Hcalls & Hsub)
        end.
        simpl in Hcalls. rewrite Hcalls.
        destruct Hfirst as [Hsame|Hone].
        * exists new. rewrite Hsame. split; [reflexivity|].
          apply sublist_cons. exact Hsub.
        * exists (mkCall a m :: new). rewrite Hone, <- app_assoc.
          split; [reflexivity|]. apply sublist_skip. exact Hsub.
      + assert (Hnone : forall x : resultOf c + JsThrown,
                   runPromise this c st = (x, st) ->
                   exists new,
                     calls (snd (runPromise this c st)) = calls st ++ new
                     /\ new `sublist_of`
                          map callOf (chainOf (effectiveFallbacks fbs (fallbacks this)))).
        { intros x Hx. rewrite Hx. exists []. rewrite app_nil_r.
          split; [reflexivity|apply sublist_nil_l]. }
        destruct c as [options|options|options|options]; simpl in Htgt.
        * destruct fbs as [fbs|].
          -- destruct (noFallbacks (effectiveFallbacks (Some fbs) (fallbacks this)))
               eqn:Hno.
             ++ eapply Hnone.
                apply (runPromise_no_fallbacks this (CallChat options) (Some fbs) st
                         Htgt); [simpl; congruence | exact Hno].
             ++ rewrite (runPromise_fallback_only this (CallChat options) attempt
                           (Some fbs) st Hatt Htgt); [|simpl; congruence|exact Hno].
                apply (tryWithFallback_calls this (CallChat options) attempt).
                exact Hatt.
          -- eapply Hnone. simpl. unfold chatPromise. rewrite Htgt. reflexivity.
        * destruct (noFallbacks (effectiveFallbacks fbs (fallbacks this))) eqn:Hno.
          -- eapply Hnone.
             exact (runPromise_no_fallbacks this (CallGenerateText options) fbs st
                      Htgt I Hno).
          -- rewrite (runPromise_fallback_only this (CallGenerateText options) attempt
                        fbs st Hatt Htgt I Hno).
             apply (tryWithFallback_calls this (CallGenerateText options) attempt).
             exact Hatt.
        * destruct (noFallbacks (effectiveFallbacks fbs (fallbacks this))) eqn:Hno.
          -- eapply Hnone.
             exact (runPromise_no_fallbacks this (CallSummarize options) fbs st
                      Htgt I Hno).
          -- rewrite (runPromise_fallback_only this (CallSummarize options) attempt
                        fbs st Hatt Htgt I Hno).
             apply (tryWithFallback_calls this (CallSummarize options) attempt).
             exact Hatt.
        * destruct (noFallbacks (effectiveFallbacks fbs (fallbacks this))) eqn:Hno.
          -- eapply Hnone.
             exact (runPromise_no_fallbacks this (CallEmbed options) fbs st
                      Htgt I Hno).
          -- rewrite (runPromise_fallback_only this (CallEmbed options) attempt
                        fbs st Hatt Htgt I Hno).
             apply (tryWithFallback_calls this (CallEmbed options) attempt).
             exact Hatt.
    - exists []. rewrite app_nil_r. split; [|apply sublist_nil_l].
      rewrite (runPromise_unresolved this c e st Hatt). reflexivity. }
  destruct Hgoal as (new & Hcalls & Hsub).
  exists new. split; [exact Hcalls|]. split; [exact Hsub|].
  apply sublist_length. exact Hsub.
Qed.

(** *** Streaming walks *)

Lemma FailedStreamAttempts_length {C} (errorOf : C -> option string)
    (operation : AdapterFallback -> M (Stream C)) (kind operationName : string)
    st entries es outs st' :
  FailedStreamAttempts errorOf operation kind operationName st entries es outs st' ->
  List.length es = List.length entries.
Proof.
  induction 1; simpl; [reflexivity | f_equal; assumption].
Qed.

Lemma walkStreamFallbacks_failed {C} (errorOf : C -> option string)
    (operation : AdapterFallback -> M (Stream C)) (kind operationName : string)
    st entries es outs st' :
  FailedStreamAttempts errorOf operation kind operationName st entries es outs st' ->
  forall errors,
    walkStreamFallbacks errorOf operation kind operationName errors entries st
    = (outs, inr (errors ++ failuresOf entries es), st').
Proof.
  induction 1 as [st|st fb out e st1 more es outs st2 Hop Hval _ IH];
    intros errors; simpl.
  - rewrite app_nil_r. reflexivity.
  - rewrite Hop, (readMessage_value e Hval), IH, <- app_assoc. reflexivity.
Qed.

Lemma walkStreamFallbacks_first_success {C} (errorOf : C -> option string)
    (operation : AdapterFallback -> M (Stream C)) (kind operationName : string)
    st pre es outs st1 fb post out st2 :
  FailedStreamAttempts errorOf operation kind operationName st pre es outs st1 ->
  streamAttempt errorOf (operation fb) st1 = (out, None, st2) ->
  forall errors,
    walkStreamFallbacks errorOf operation kind operationName errors
      (pre ++ fb :: post) st
    = (outs ++ out, inl (inl tt), st2).
Proof.
  induction 1 as [st|st fb' out' e st1 more es outs st2' Hop Hval _ IH];
    intros Hok errors; simpl.
  - rewrite Hok. reflexivity.
  - rewrite Hop, (readMessage_value e Hval), (IH Hok), <- app_assoc. reflexivity.
Qed.

(** A streaming walk ends where the stream of an entry raises [null] or
    [undefined]: the [catch] block throws, after the chunks forwarded so
    far, and the entries after it are not tried. *)
Lemma walkStreamFallbacks_nullish {C} (errorOf : C -> option string)
    (operation : AdapterFallback -> M (Stream C)) (kind operationName : string)
    st pre es outs st1 fb post out v st2 :
  FailedStreamAttempts errorOf operation kind operationName st pre es outs st1 ->
  streamAttempt errorOf (operation fb) st1 = (out, Some (JsNullish v), st2) ->
  forall errors,
    walkStreamFallbacks errorOf operation kind operationName errors
      (pre ++ fb :: post) st
    = (outs ++ out, inl (inr (typeError (ReadOfNullish v "message"))), st2).
Proof.
  induction 1 as [st|st fb' out' e st1 more es outs st2' Hop Hval _ IH];
    intros Hbad errors; simpl.
  - rewrite Hbad. reflexivity.
  - rewrite Hop, (readMessage_value e Hval), (IH Hbad), <- app_assoc. reflexivity.
Qed.

(** The primary stream and every fallback stream fail. *)
Lemma streamPrimaryThenFallbacks_all_failed {C} (errorOf : C -> option string)
    (operationName : string) (primary : M (Stream C))
    (operation : AdapterFallback -> M (Stream C)) a m fl st out0 e0 st0 es outs st1 :
  streamAttempt errorOf primary st = (out0, Some e0, st0) ->
  isNullish e0 = false ->
  noFallbacks fl = false ->
  FailedStreamAttempts errorOf operation "Fallback adapter" operationName
    (warnEnv (adapterFailedWarning "Primary adapter" a m operationName) e0 st0)
    (chainOf fl) es outs st1 ->
  streamPrimaryThenFallbacks errorOf operationName primary operation a m fl st
  = (out0 ++ outs,
     inr (JsError (allAdaptersFailedMessage operationName
                     (mkFailure a m (asErrorMessage e0) :: failuresOf (chainOf fl) es))),
     st1).
Proof.
  intros Hprimary Hval Hsome Hwalk. unfold streamPrimaryThenFallbacks.
  rewrite Hprimary, Hsome, (readMessage_value e0 Hval).
  rewrite (walkStreamFallbacks_failed _ _ _ _ _ _ _ _ _ Hwalk
             [mkFailure a m (asErrorMessage e0)]).
  reflexivity.
Qed.

(** X7.  In streaming chat with an adapter given and no tool executor,
    when the primary stream and then every entry of a non-empty effective
    chain fail, by an error chunk or by raising a value other than [null]
    and [undefined], the call raises the all-adapters-failed error for
    [streamChat] after the chunks forwarded on the way, and here the list
    starts with the failure of the primary: its length is 1 plus the chain
    length. *)
Theorem X7_stream_failure_lists_the_primary (this : AI) (options : ChatOptions)
    (toolObjects : option ToolObjects) (inst : AIAdapter) (a m : string)
    (fbs : option (list AdapterFallback)) (st st1 : Env)
    (s : Stream StreamChunk) (w : World) (out0 outs : list StreamChunk)
    (e0 : JsThrown) (es : list JsThrown) :
  let r := chat_rest options in
  let chain := chainOf (effectiveFallbacks fbs (fallbacks this)) in
  let errors := mkFailure a m (asErrorMessage e0) :: failuresOf chain es in
  chat_target options = WithAdapter a m fbs ->
  resolveTools this (chat_tools options) = inl toolObjects ->
  hasToolExecutors toolObjects = false ->
  getAdapter this a = inl (Own inst) ->
  noFallbacks (effectiveFallbacks fbs (fallbacks this)) = false ->
  a_chatStream inst (chatRequest r m toolObjects (Some true) (rest_messages r)) (world st)
  = (s, w) ->
  forwardUntilError chunkError s = (out0, Some e0) ->
  FailedStreamAttempts chunkError
    (fun f => chatStreamAttempt this r toolObjects (adapter f) (model f))
    "Fallback adapter" "streamChat"
    (warnEnv (adapterFailedWarning "Primary adapter" a m "streamChat") e0
       (recordCall a m w st))
    chain es outs st1 ->
  Forall (fun e => isNullish e = false) (e0 :: es) ->
  chatStream this options st
  = (out0 ++ outs, inr (JsError (allAdaptersFailedMessage "streamChat" errors)), st1)
  /\ map (fun f => mkFallback (f_adapter f) (f_model f)) errors = mkFallback a m :: chain
  /\ List.length errors = 1 + List.length chain.
Proof.
  intros r chain errors Htgt Htools Hexec Hget Hsome Hs Hfwd Hwalk Hvals.
  assert (Hval : isNullish e0 = false) by (inversion Hvals; assumption).
  pose proof (FailedStreamAttempts_length _ _ _ _ _ _ _ _ _ Hwalk) as Hlen.
  split; [|split].
  - unfold chatStream, planStream. rewrite Htgt, Htools, Hexec. simpl.
    rewrite Hget.
    apply (streamPrimaryThenFallbacks_all_failed chunkError "streamChat" _ _ a m _ st
             out0 e0 (recordCall a m w st) es outs st1);
      [|exact Hval|exact Hsome|exact Hwalk].
    unfold streamAttempt, openStream. fold r. rewrite Hs, Hfwd. reflexivity.
  - unfold errors. simpl. f_equal. apply failuresOf_entries. exact Hlen.
  - unfold errors. simpl. f_equal. apply failuresOf_length. exact Hlen.
Qed.

(** X8.  The same for [generateTextStream] with an adapter given: when the
    primary stream and then every entry of a non-empty effective chain
    raise values other than [null] and [undefined], the call raises the
    all-adapters-failed error for [generateTextStream] after the text
    forwarded on the way, with the failure of the primary as the first of 1
    plus chain-length entries. *)
Theorem X8_text_stream_failure_lists_the_primary (this : AI)
    (options : CallOptions TextGenerationOptions) (a m : string)
    (fbs : option (list AdapterFallback)) (st st0 st1 : Env)
    (out0 outs : list string) (e0 : JsThrown) (es : list JsThrown) :
  let chain := chainOf (effectiveFallbacks fbs (fallbacks this)) in
  let errors := mkFailure a m (asErrorMessage e0) :: failuresOf chain es in
  target options = WithAdapter a m fbs ->
  noFallbacks (effectiveFallbacks fbs (fallbacks this)) = false ->
  streamAttempt textChunkError (textStreamAttempt this (rest options) a m) st
  = (out0, Some e0, st0) ->
  FailedStreamAttempts textChunkError
    (fun f => textStreamAttempt this (rest options) (adapter f) (model f))
    "Fallback adapter" "generateTextStream"
    (warnEnv (adapterFailedWarning "Primary adapter" a m "generateTextStream") e0 st0)
    chain es outs st1 ->
  Forall (fun e => isNullish e = false) (e0 :: es) ->
  generateTextStream this options st
  = (out0 ++ outs,
     inr (JsError (allAdaptersFailedMessage "generateTextStream" errors)), st1)
  /\ List.length errors = 1 + List.length chain.
Proof.
  intros chain errors Htgt Hsome Hprimary Hwalk Hvals.
  assert (Hval : isNullish e0 = false) by (inversion Hvals; assumption).
  pose proof (FailedStreamAttempts_length _ _ _ _ _ _ _ _ _ Hwalk) as Hlen.
  split.
  - unfold generateTextStream. rewrite Htgt. cbv zeta.
    apply (streamPrimaryThenFallbacks_all_failed textChunkError "generateTextStream"
             _ _ a m _ st out0 e0 st0 es outs st1 Hprimary Hval Hsome Hwalk).
  - unfold errors. simpl. f_equal. apply failuresOf_length. exact Hlen.
Qed.

(** *** The chain that is walked *)





(** *** What an attempt forwards *)

Lemma forwardUntilError_prefix {C} (errorOf : C -> option string) (s : Stream C) :
  fst (forwardUntilError errorOf s) `prefix_of` chunksOf s.
Proof.
  induction s as [|e|c more IH]; simpl; try apply prefix_nil.
  destruct (errorOf c); simpl; [apply prefix_nil|].
  destruct (forwardUntilError errorOf more) as [out r]. simpl in *.
  apply prefix_cons. exact IH.
Qed.

Lemma forwardUntilError_success {C} (errorOf : C -> option string) (s : Stream C) :
  snd (forwardUntilError errorOf s) = None
  <-> raisedBy s = None /\ Forall (fun c => errorOf c = None) (chunksOf s).
Proof.
  induction s as [|e|c more IH]; simpl.
  - split; [intros _; split; [reflexivity|constructor] | reflexivity].
  - split; [discriminate | intros [Hr _]; discriminate].
  - destruct (errorOf c) eqn:Ec; simpl.
    + split; [discriminate|]. intros [_ Hall].
      inversion Hall; subst. congruence.
    + destruct (forwardUntilError errorOf more) as [out r]. simpl in *.
      rewrite IH. split.
      * intros [Hr Hall]. split; [exact Hr|]. constructor; assumption.
      * intros [Hr Hall]. inversion Hall; subst. split; assumption.
Qed.

Lemma forwardUntilError_all {C} (errorOf : C -> option string) (s : Stream C) :
  snd (forwardUntilError errorOf s) = None ->
  fst (forwardUntilError errorOf s) = chunksOf s.
Proof.
  induction s as [|e|c more IH]; simpl; try reflexivity.
  destruct (errorOf c) eqn:Ec; simpl; [discriminate|].
  destruct (forwardUntilError errorOf more) as [out r]. simpl in *.
  intros Hr. rewrite (IH Hr). reflexivity.
Qed.

(** X9.  What a streaming attempt forwards is always a prefix of what the
    backend yields.  The attempt succeeds exactly when the stream does not
    raise and has no error chunk, and then every chunk is forwarded. *)
Theorem X9_attempt_forwards_a_prefix {C} (errorOf : C -> option string)
    (s : Stream C) :
  fst (forwardUntilError errorOf s) `prefix_of` chunksOf s
  /\ (snd (forwardUntilError errorOf s) = None
      <-> raisedBy s = None /\ Forall (fun c => errorOf c = None) (chunksOf s))
  /\ (snd (forwardUntilError errorOf s) = None ->
      forwardUntilError errorOf s = (chunksOf s, None)).
Proof.
  split; [apply forwardUntilError_prefix|].
  split; [apply forwardUntilError_success|].
  intros Hok. pose proof (forwardUntilError_all errorOf s Hok) as Hall.
  destruct (forwardUntilError errorOf s) as [out r]. simpl in *. subst. reflexivity.
Qed.

(** X10.  In fallback-only streaming chat without tool executors, when the
    entries before some entry fail, each with a value other than [null] and
    [undefined], and the stream of that entry neither raises nor carries an
    error chunk, the caller receives the chunks that the failed attempts had
    forwarded, followed by all the chunks of that stream, and the call ends
    normally; the entries after it are not called. *)
Theorem X10_stream_first_success (this : AI) (options : ChatOptions)
    (toolObjects : option ToolObjects) (inst : AIAdapter)
    (fbs : option (list AdapterFallback))
    (pre post : list AdapterFallback) (entry : AdapterFallback)
    (st st1 : Env) (es : list JsThrown) (outs : list StreamChunk)
    (s : Stream StreamChunk) (w : World) :
  let r := chat_rest options in
  let operation := fun f : AdapterFallback =>
    chatStreamAttempt this r toolObjects (adapter f) (model f) in
  chat_target options = FallbackOnly fbs ->
  resolveTools this (chat_tools options) = inl toolObjects ->
  hasToolExecutors toolObjects = false ->
  effectiveFallbacks fbs (fallbacks this) = Some (pre ++ entry :: post) ->
  FailedStreamAttempts chunkError operation "Adapter" "streamChat"
    st pre es outs st1 ->
  Forall (fun e => isNullish e = false) es ->
  getAdapter this (adapter entry) = inl (Own inst) ->
  a_chatStream inst
    (chatRequest r (model entry) toolObjects (Some true) (rest_messages r)) (world st1)
  = (s, w) ->
  raisedBy s = None ->
  Forall (fun c => isErrorChunk c = false) (chunksOf s) ->
  chatStream this options st
  = (outs ++ chunksOf s, inl tt, recordCall (adapter entry) (model entry) w st1).
Proof.
  intros r operation Htgt Htools Hexec Heff Hwalk _ Hget Hs Hraise Hclean.
  assert (Hfwd : forwardUntilError chunkError s = (chunksOf s, None)).
  { assert (Hok : snd (forwardUntilError chunkError s) = None).
    { apply forwardUntilError_success. split; [exact Hraise|].
      induction Hclean as [|c l Hc _ IH]; constructor;
        [apply isErrorChunk_false; exact Hc | exact IH]. }
    pose proof (forwardUntilError_all chunkError s Hok) as Hall.
    destruct (forwardUntilError chunkError s) as [out res]. simpl in *.
    subst. reflexivity. }
  unfold chatStream, planStream. rewrite Htgt, Heff.
  destruct pre as [|p pre']; simpl app; rewrite Htools, Hexec; simpl;
    unfold tryStreamWithFallback.
  - inversion Hwalk; subst.
    simpl. unfold streamAttempt, chatStreamAttempt, openStream. rewrite Hget. fold r.
    simpl req_model. rewrite Hs, Hfwd. reflexivity.
  - change (p :: pre' ++ entry :: post) with ((p :: pre') ++ entry :: post).
    rewrite (walkStreamFallbacks_first_success chunkError operation "Adapter"
               "streamChat" st (p :: pre') es outs st1 entry post (chunksOf s)
               (recordCall (adapter entry) (model entry) w st1) Hwalk); [reflexivity|].
    unfold operation, streamAttempt, chatStreamAttempt, openStream. rewrite Hget. fold r.
    simpl req_model. rewrite Hs, Hfwd. reflexivity.
Qed.

(** X11.  A text chunk is never taken for an error chunk: an attempt of
    [generateTextStream] forwards every chunk that the backend yields and
    fails only when the stream raises.  So with an adapter given whose
    stream does not raise, the call yields exactly the text of the backend,
    calls it once and ends normally. *)
Theorem X11_text_chunks_are_all_forwarded (this : AI)
    (options : CallOptions TextGenerationOptions) (inst : AIAdapter)
    (a m : string) (fbs : option (list AdapterFallback)) (st : Env)
    (s : Stream string) (w : World) :
  target options = WithAdapter a m fbs ->
  getAdapter this a = inl (Own inst) ->
  a_generateTextStream inst (mkRequest m (Some true) (rest options)) (world st) = (s, w) ->
  forwardUntilError textChunkError s = (chunksOf s, raisedBy s)
  /\ (raisedBy s = None ->
      generateTextStream this options st = (chunksOf s, inl tt, recordCall a m w st)).
Proof.
  intros Htgt Hget Hs.
  assert (Hfwd : forall t : Stream string,
             forwardUntilError textChunkError t = (chunksOf t, raisedBy t)).
  { induction t as [|e|c more IH]; simpl; try reflexivity.
    rewrite IH. reflexivity. }
  split; [apply Hfwd|].
  intros Hraise. unfold generateTextStream. rewrite Htgt. cbv zeta.
  unfold streamPrimaryThenFallbacks, streamAttempt, textStreamAttempt, openStream.
  rewrite Hget. simpl req_model. rewrite Hs, Hfwd, Hraise. reflexivity.
Qed.

(** *** The accumulator of tool calls *)

Lemma string_app_nil_r (x : string) : (x ++ EmptyString)%string = x.
Proof.
  induction x as [|ch x IH]; [reflexivity|].
  change (String ch (x ++ EmptyString)%string = String ch x). rewrite IH. reflexivity.
Qed.

Lemma string_app_assoc (x y z : string) :
  ((x ++ y) ++ z)%string = (x ++ (y ++ z))%string.
Proof.
  induction x as [|ch x IH]; [reflexivity|].
  change (String ch ((x ++ y) ++ z)%string = String ch (x ++ (y ++ z))%string).
  rewrite IH. reflexivity.
Qed.

Lemma map_get_set {V} (mp : JsMap V) (k k' : Z) (v : V) :
  map_get (map_set mp k v) k' = if Z.eqb k k' then Some v else map_get mp k'.
Proof.
  induction mp as [|[k0 v0] mp IH]; simpl.
  - reflexivity.
  - destruct (Z.eqb k0 k) eqn:E0; simpl.
    + apply Z.eqb_eq in E0. subst k0. destruct (Z.eqb k k'); reflexivity.
    + destruct (Z.eqb k0 k') eqn:E1.
      * apply Z.eqb_eq in E1. subst k0. rewrite Z.eqb_sym in E0. rewrite E0.
        reflexivity.
      * apply IH.
Qed.

Lemma accumulateToolCall_get (mp : JsMap PendingCall) (tc : ToolCall) (index i : Z) :
  map_get (accumulateToolCall mp tc index) i
  = if Z.eqb index i then Some (extendPending (map_get mp index) tc) else map_get mp i.
Proof.
  unfold accumulateToolCall. rewrite map_get_set. reflexivity.
Qed.

Lemma observeChunk_map (c : StreamChunk) (rs : RoundState) :
  toolCallsMap (observeChunk c rs)
  = match c with
    | ToolCallChunk _ tc index => accumulateToolCall (toolCallsMap rs) tc index
    | _ => toolCallsMap rs
    end.
Proof.
  unfold observeChunk. destruct (isToolCallsDone c); reflexivity.
Qed.

Lemma observeAll_get (cs : list StreamChunk) (i : Z) :
  forall rs,
    map_get (toolCallsMap (observeAll cs rs)) i
    = fold_left (fun o tc => Some (extendPending o tc)) (fragmentsAt i cs)
        (map_get (toolCallsMap rs) i).
Proof.
  induction cs as [|c cs IH]; intros rs; [reflexivity|].
  change (observeAll (c :: cs) rs) with (observeAll cs (observeChunk c rs)).
  rewrite IH, observeChunk_map.
  destruct c as [mt d t ro|mt tc index|mt fr|mt em]; simpl; try reflexivity.
  rewrite accumulateToolCall_get.
  destruct (Z.eqb index i) eqn:E; [|reflexivity].
  apply Z.eqb_eq in E. subst index. reflexivity.
Qed.

Lemma extend_from_some (frags : list ToolCall) :
  forall p,
    fold_left (fun o tc => Some (extendPending o tc)) frags (Some p)
    = Some (mkPending (p_id p) (lastName (p_name p) frags)
              (p_args p ++ joinArguments frags)).
Proof.
  induction frags as [|f frags IH]; intros [pid pname pargs]; simpl.
  - rewrite string_app_nil_r. reflexivity.
  - rewrite IH. simpl. rewrite string_app_assoc. reflexivity.
Qed.

Lemma extend_from_none (frags : list ToolCall) :
  fold_left (fun o tc => Some (extendPending o tc)) frags None = assembled frags.
Proof.
  destruct frags as [|f frags]; [reflexivity|].
  simpl. rewrite extend_from_some. reflexivity.
Qed.

Lemma observeAll_keys (cs : list StreamChunk) :
  forall rs,
    map fst (toolCallsMap (observeAll cs rs))
    = arrivalOrder (map fst (toolCallsMap rs)) (toolCallIndices cs).
Proof.
  induction cs as [|c cs IH]; intros rs; [reflexivity|].
  change (observeAll (c :: cs) rs) with (observeAll cs (observeChunk c rs)).
  rewrite IH, observeChunk_map.
  destruct c as [mt d t ro|mt tc index|mt fr|mt em]; simpl; try reflexivity.
  unfold accumulateToolCall. rewrite map_set_keys.
  destruct (existsb (Z.eqb index) (map fst (toolCallsMap rs))); reflexivity.
Qed.

Lemma observeAll_no_terminal (cs : list StreamChunk) :
  Forall (fun c => isToolCallsDone c = false) cs ->
  forall rs,
    roundToolCalls (observeAll cs rs) = roundToolCalls rs
    /\ hasToolCalls (observeAll cs rs) = hasToolCalls rs.
Proof.
  induction 1 as [|c cs Hc _ IH]; intros rs; [split; reflexivity|].
  change (observeAll (c :: cs) rs) with (observeAll cs (observeChunk c rs)).
  destruct (IH (observeChunk c rs)) as [Hcalls Hhas].
  rewrite Hcalls, Hhas. unfold observeChunk. rewrite Hc. split; reflexivity.
Qed.

Lemma streamRound_yields (cs : list StreamChunk) (s : Stream StreamChunk) :
  forall rs,
    streamRound (yields cs s) rs
    = (cs ++ fst (streamRound s (observeAll cs rs)),
       snd (streamRound s (observeAll cs rs))).
Proof.
  induction cs as [|c cs IH]; intros rs; simpl.
  - destruct (streamRound s rs); reflexivity.
  - rewrite IH. reflexivity.
Qed.

Lemma entries_by_key {V} (mp : JsMap V) :
  List.NoDup (map fst mp) ->
  map (fun kv => Some (snd kv)) mp = map (map_get mp) (map fst mp).
Proof.
  induction mp as [|[k v] mp IH]; intros Hnd; [reflexivity|].
  inversion Hnd as [|? ? Hnot Hrest]; subst. simpl.
  rewrite Z.eqb_refl. f_equal. rewrite (IH Hrest).
  apply map_ext_in. intros k' Hin.
  destruct (Z.eqb k k') eqn:E; [|reflexivity].
  apply Z.eqb_eq in E. subst k'. contradiction.
Qed.

(** The round state after a stream that yields [cs], none of them a
    [tool_calls] terminal, and then that terminal. *)
Lemma round_finalized (cs : list StreamChunk) (meta : ChunkMeta) :
  Forall (fun c => isToolCallsDone c = false) cs ->
  let rs := observeChunk (DoneChunk meta (Some "tool_calls")) (observeAll cs newRound) in
  streamRound (yields cs (SYield (DoneChunk meta (Some "tool_calls")) SDone)) newRound
  = (cs ++ [DoneChunk meta (Some "tool_calls")], inl rs)
  /\ hasToolCalls rs = true
  /\ (forall i, map_get (toolCallsMap rs) i = assembled (fragmentsAt i cs))
  /\ map fst (toolCallsMap rs) = arrivalOrder [] (toolCallIndices cs)
  /\ map Some (roundToolCalls rs)
     = map (finalizedAt cs) (arrivalOrder [] (toolCallIndices cs)).
Proof.
  intros Hcs rs.
  destruct (observeAll_no_terminal cs Hcs newRound) as [Hcalls _].
  assert (Hget : forall i,
             map_get (toolCallsMap (observeAll cs newRound)) i
             = assembled (fragmentsAt i cs)).
  { intros i. rewrite observeAll_get. apply extend_from_none. }
  split; [|split; [|split; [|split]]].
  - rewrite streamRound_yields. reflexivity.
  - reflexivity.
  - intros i. unfold rs. rewrite observeChunk_map. apply Hget.
  - unfold rs. rewrite observeChunk_map. apply (observeAll_keys cs newRound).
  - unfold rs, observeChunk. simpl. rewrite Hcalls. simpl.
    unfold finalizeToolCalls. rewrite map_map.
    assert (Hnd : List.NoDup (map fst (toolCallsMap (observeAll cs newRound)))).
    { rewrite observeAll_keys. apply arrivalOrder_NoDup. constructor. }
    pose proof (entries_by_key _ Hnd) as Hentries.
    rewrite observeAll_keys in Hentries. simpl in Hentries.
    transitivity
      (map (fun o : option PendingCall =>
              match o with
              | Some p => Some (mkToolCall (p_id p) (p_name p) (p_args p))
              | None => None
              end)
         (map (fun kv => Some (snd kv)) (toolCallsMap (observeAll cs newRound)))).
    + rewrite map_map. reflexivity.
    + rewrite Hentries, map_map. apply map_ext. intros i.
      unfold finalizedAt. rewrite Hget. reflexivity.
Qed.

(** C6 (amended).  When the stream of a round ends on a terminal chunk with
    finish reason [tool_calls], the finalized tool-call list has exactly one
    entry per stream index of the accumulator, and the entries stand in the
    order in which their indices first arrived (the insertion order of the
    map): the entry at each place is the call that the fragments of the
    index at that place of the arrival order add up to.  So the list is in
    ascending index order when the indices first arrive in ascending
    order. *)
Theorem C6_finalized_in_arrival_order (cs : list StreamChunk) (meta : ChunkMeta) :
  let order := arrivalOrder [] (toolCallIndices cs) in
  Forall (fun c => isToolCallsDone c = false) cs ->
  exists rs,
    streamRound (yields cs (SYield (DoneChunk meta (Some "tool_calls")) SDone)) newRound
    = (cs ++ [DoneChunk meta (Some "tool_calls")], inl rs)
    /\ hasToolCalls rs = true
    /\ map Some (roundToolCalls rs) = map (finalizedAt cs) order
    /\ List.length (roundToolCalls rs) = List.length order
    /\ List.NoDup order
    /\ (forall i, In i order <-> In i (toolCallIndices cs))
    /\ map fst (toolCallsMap rs) = order
    /\ (ascending order = true ->
        exists indices,
          ascending indices = true
          /\ map Some (roundToolCalls rs) = map (finalizedAt cs) indices).
Proof.
  intros order Hcs.
  destruct (round_finalized cs meta Hcs) as (Hrun & Hhas & _ & Hkeys & Hlist).
  eexists. split; [exact Hrun|]. split; [exact Hhas|]. split; [exact Hlist|].
  split; [|split; [|split; [|split]]].
  - rewrite <- (length_map Some), Hlist, length_map. reflexivity.
  - apply arrivalOrder_NoDup. constructor.
  - intros i. unfold order. rewrite arrivalOrder_In. simpl. tauto.
  - exact Hkeys.
  - intros Hasc. exists order. split; [exact Hasc | exact Hlist].
Qed.

(** X12.  In a round whose stream ends on the [tool_calls] terminal, the
    accumulator holds for each stream index the call that its fragments add
    up to: the identifier of the first fragment of that index, the last
    non-empty function name, and the argument fragments concatenated in
    arrival order, whatever fragments of other indices come in between.  The
    finalized list is made of these calls, one per index, in the order of
    first arrival. *)
Theorem X12_fragments_are_assembled (cs : list StreamChunk) (meta : ChunkMeta) :
  Forall (fun c => isToolCallsDone c = false) cs ->
  exists rs,
    streamRound (yields cs (SYield (DoneChunk meta (Some "tool_calls")) SDone)) newRound
    = (cs ++ [DoneChunk meta (Some "tool_calls")], inl rs)
    /\ (forall i, map_get (toolCallsMap rs) i = assembled (fragmentsAt i cs))
    /\ map Some (roundToolCalls rs)
       = map (finalizedAt cs) (arrivalOrder [] (toolCallIndices cs)).
Proof.
  intros Hcs.
  destruct (round_finalized cs meta Hcs) as (Hrun & _ & Hget & _ & Hlist).
  eexists. split; [exact Hrun|]. split; [exact Hget | exact Hlist].
Qed.

(** *** Running the tools of a round *)

(** The outcomes of one tool call: it is passed over, it is answered by a
    tool message, or it throws and nothing is pushed. *)
Lemma executeToolCall_outcomes (toolObjects : option ToolObjects) (m : string)
    (tc : ToolCall) (st : Env) :
  (passedOver toolObjects tc = true
   /\ executeToolCall toolObjects m tc st = ([], [], None, st))
  \/ (executable toolObjects tc = true
      /\ exists body st',
          executeToolCall toolObjects m tc st = ([toolMessage body tc], [], None, st')
          \/ exists id now,
               executeToolCall toolObjects m tc st
               = ([toolMessage body tc], [toolExecutedChunk id m now tc], None, st'))
  \/ (passedOver toolObjects tc = false
      /\ exists thrown st',
          executeToolCall toolObjects m tc st = ([], [], Some thrown, st')).
Proof.
  unfold passedOver, executable, executeToolCall.
  destruct (findTool toolObjects (tc_name tc)) as [[tool|]|thrown];
    [|left; split; reflexivity
     |right; right; split; [reflexivity|]; exists thrown, st; reflexivity].
  destruct (tool_execute tool) as [execute|]; [|left; split; reflexivity].
  assert (Hcatch : forall e st0,
             (exists body st', catchToolError e tc st0 = ([toolMessage body tc], [], None, st'))
             \/ (exists thrown st', catchToolError e tc st0 = ([], [], Some thrown, st'))).
  { intros e st0. unfold catchToolError. destruct (readMessage e) as [msg|thrown].
    - left. exists (errorPayload e), st0. reflexivity.
    - right. exists thrown, st0. reflexivity. }
  destruct (JSON_parse (tc_arguments tc)) as [args|syntaxError].
  - destruct (execute args (world st)) as [[result|e] w].
    + destruct (generateId w) as [id w1]. destruct (Date_now w1) as [now w2].
      right. left. split; [reflexivity|].
      exists result, (setWorld w2 st). right. exists id, now. reflexivity.
    + destruct (Hcatch e (setWorld w st)) as [(body & st' & Hb)|(thrown & st' & Ht)].
      * right. left. split; [reflexivity|]. exists body, st'. left. exact Hb.
      * right. right. split; [reflexivity|]. exists thrown, st'. exact Ht.
  - destruct (Hcatch (JsError syntaxError) st) as [(body & st' & Hb)|(thrown & st' & Ht)].
    + right. left. split; [reflexivity|]. exists body, st'. left. exact Hb.
    + right. right. split; [reflexivity|]. exists thrown, st'. exact Ht.
Qed.

(** X13.  Whatever the tools do, running the finalized calls of a round
    pushes only tool-role messages, at most one per call and in the order of
    the calls, each with the identifier of its call; it yields only the
    "tool executed" content chunks, at most one per message pushed; and it
    calls no backend and writes no warning.  This holds as well when the
    run is cut short by a value thrown. *)
Theorem X13_tool_round_invariants (toolObjects : option ToolObjects) (m : string)
    (tcs : list ToolCall) :
  forall st pushed out res st',
    executeToolCalls toolObjects m tcs st = (pushed, out, res, st') ->
    Forall (fun msg => role msg = RTool /\ toolCalls msg = None) pushed
    /\ map toolCallId pushed `sublist_of` map (fun tc => Some (tc_id tc)) tcs
    /\ List.length out <= List.length pushed
    /\ List.length pushed <= List.length tcs
    /\ Forall (fun c => exists id now tc,
                  In tc tcs /\ c = toolExecutedChunk id m now tc) out
    /\ calls st' = calls st
    /\ console st' = console st.
Proof.
  induction tcs as [|tc more IH]; intros st pushed out res st' Hrun; simpl in Hrun.
  - inversion Hrun; subst. repeat split; try constructor.
  - pose proof (executeToolCall_frame toolObjects m tc st) as [Hc1 Hw1].
    pose proof (executeToolCall_outcomes toolObjects m tc st) as Hcase.
    destruct (executeToolCall toolObjects m tc st) as [[[msgs1 out1] [thrown|]] st1].
    { destruct Hcase as [[_ Hskip]|[[_ (body & st1' & [Hmsg|(id & now & Hboth)])]
                                  |[_ (thrown' & st1' & Hthrow)]]];
        try discriminate.
      inversion Hthrow; subst. inversion Hrun; subst. simpl in Hc1, Hw1. simpl.
      repeat split; try assumption; try constructor; try lia.
      apply sublist_nil_l. }
    destruct (executeToolCalls toolObjects m more st1) as [[[msgs2 out2] res2] st2] eqn:Erest.
    inversion Hrun; subst; clear Hrun.
    destruct (IH st1 msgs2 out2 res st' Erest)
      as (Hroles & Hids & Hlen1 & Hlen2 & Hchunks & Hc2 & Hw2).
    simpl in Hc1, Hw1.
    assert (Hchunks' : Forall (fun c => exists id now tc0,
                                 In tc0 (tc :: more)
                                 /\ c = toolExecutedChunk id m now tc0) out2).
    { eapply Forall_impl; [exact Hchunks|].
      intros c (id & now & tc0 & Hin & Hc).
      exists id, now, tc0. split; [right; exact Hin | exact Hc]. }
    destruct Hcase as [[_ Hskip]|[[_ (body & st1' & [Hmsg|(id & now & Hboth)])]
                                  |[_ (thrown' & st1' & Hthrow)]]];
      try discriminate.
    + inversion Hskip; subst. simpl.
      repeat split; try assumption; try congruence; try lia.
      apply sublist_cons. exact Hids.
    + inversion Hmsg; subst. simpl.
      repeat split; try congruence; try lia.
      * constructor; [split; reflexivity | exact Hroles].
      * apply sublist_skip. exact Hids.
      * exact Hchunks'.
    + inversion Hboth; subst. simpl.
      repeat split; try congruence; try lia.
      * constructor; [split; reflexivity | exact Hroles].
      * apply sublist_skip. exact Hids.
      * constructor; [|exact Hchunks'].
        exists id, now, tc. split; [left; reflexivity | reflexivity].
Qed.




Lemma streamRound_no_terminal (s : Stream StreamChunk) :
  Forall (fun c => isToolCallsDone c = false) (chunksOf s) ->
  forall rs,
    match raisedBy s with
    | Some e => streamRound s rs = (chunksOf s, inr e)
    | None =>
        exists rs',
          streamRound s rs = (chunksOf s, inl rs')
          /\ hasToolCalls rs' = hasToolCalls rs
    end.
Proof.
  induction s as [|e|c more IH]; intros Hall rs; simpl.
  - exists rs. split; reflexivity.
  - reflexivity.
  - simpl in Hall. inversion Hall as [|? ? Hc Hmore]; subst.
    specialize (IH Hmore (observeChunk c rs)).
    destruct (raisedBy more) as [e|].
    + rewrite IH. reflexivity.
    + destruct IH as (rs' & Hrun & Hhas). exists rs'. rewrite Hrun.
      split; [reflexivity|]. rewrite Hhas. unfold observeChunk. rewrite Hc.
      reflexivity.
Qed.

(** X16.  With a tool executor among the tools, a backend whose first
    stream carries no [tool_calls] terminal is passed through: the caller
    receives exactly the chunks of that stream, the backend is called once,
    no tool runs, and the call ends as the stream ends, normally or with the
    value it raises. *)
Theorem X16_tool_mode_passes_a_plain_answer_through (this : AI)
    (options : ChatOptions) (plan : StreamPlan) (toolObjects : option ToolObjects)
    (inst : AIAdapter) (st : Env) (s : Stream StreamChunk) (w : World) :
  let r := chat_rest options in
  let a := adapterToUse plan in
  let m := modelToUse plan in
  planStream this (chat_target options) = inl plan ->
  resolveTools this (chat_tools options) = inl toolObjects ->
  hasToolExecutors toolObjects = true ->
  getAdapter this a = inl (Own inst) ->
  0 < Z.to_nat (maxIterationsOf r) ->
  a_chatStream inst (chatRequest r m toolObjects (Some true) (rest_messages r)) (world st)
  = (s, w) ->
  Forall (fun c => isToolCallsDone c = false) (chunksOf s) ->
  chatStream this options st
  = (chunksOf s,
     match raisedBy s with Some e => inr e | None => inl tt end,
     recordCall a m w st).
Proof.
  intros r a m Hplan Htools Hexec Hget Hpos Hs Hplain.
  rewrite (chatStream_tool_mode this options plan toolObjects (Own inst) st
             Hplan Htools Hexec Hget).
  fold r a m. destruct (Z.to_nat (maxIterationsOf r)) as [|n]; [lia|].
  pose proof (streamRound_no_terminal s Hplain newRound) as Hround.
  destruct (raisedBy s) as [e|] eqn:Hraise.
  - apply toolLoop_raise; assumption.
  - destruct Hround as (rs' & Hrun & Hhas).
    apply (toolLoop_last_round inst a m r toolObjects n _ st s w (chunksOf s) rs' Hs Hrun).
    left. exact Hhas.
Qed.

(** X17.  With a tool executor among the tools and [maxIterations] zero or
    negative, the streaming chat does nothing: no backend is called,
    nothing is yielded, and the stream ends normally. *)
Theorem X17_no_round_for_non_positive_maximum (this : AI) (options : ChatOptions)
    (plan : StreamPlan) (toolObjects : option ToolObjects)
    (inst : JsProperty AIAdapter) (limit : Z) (st : Env) :
  planStream this (chat_target options) = inl plan ->
  resolveTools this (chat_tools options) = inl toolObjects ->
  hasToolExecutors toolObjects = true ->
  getAdapter this (adapterToUse plan) = inl inst ->
  rest_maxIterations (chat_rest options) = Some limit ->
  (limit <= 0)%Z ->
  chatStream this options st = ([], inl tt, st).
Proof.
  intros Hplan Htools Hexec Hget Hmax Hle.
  rewrite (chatStream_tool_mode this options plan toolObjects inst st
             Hplan Htools Hexec Hget).
  unfold maxIterationsOf. rewrite Hmax.
  replace (Z.to_nat limit) with 0 by lia. reflexivity.
Qed.

(** *** Instances made by [addAdapter] *)

Lemma ownKeysOrder_snoc (ks : list string) (k : string) :
  ownKeysOrder (ks ++ [k])
  = match arrayIndex k with
    | Some i => map snd (insertIndex i k (indexKeys ks)) ++ nameKeys ks
    | None => ownKeysOrder ks ++ [k]
    end.
Proof.
  unfold ownKeysOrder, indexKeys, nameKeys, isArrayIndex.
  rewrite fold_left_app, List.filter_app. simpl. unfold collectIndex at 1.
  destruct (arrayIndex k); simpl.
  - rewrite app_nil_r. reflexivity.
  - rewrite app_assoc. reflexivity.
Qed.

Lemma obj_set_entries {V} (o : JsObject V) (k : string) (v : V) :
  map fst (obj_set o k v)
  = match obj_get o k with
    | Some _ => map fst o
    | None => map fst o ++ [k]
    end.
Proof.
  induction o as [|[k' v'] o IH]; simpl; [reflexivity|].
  destruct (String.eqb k' k); simpl; [reflexivity|].
  rewrite IH. destruct (obj_get o k); reflexivity.
Qed.

(** [Object.keys] after [{ ...o, [k]: v }]: as before when [k] was an own
    key; otherwise [k] is listed last when it is not an array index, and at
    its place among the array indices when it is one. *)
Lemma obj_set_keys {V} (o : JsObject V) (k : string) (v : V) :
  obj_keys (obj_set o k v)
  = match obj_get o k with
    | Some _ => obj_keys o
    | None =>
        match arrayIndex k with
        | Some i => map snd (insertIndex i k (indexKeys (map fst o))) ++ nameKeys (map fst o)
        | None => obj_keys o ++ [k]
        end
    end.
Proof.
  unfold obj_keys. rewrite obj_set_entries.
  destruct (obj_get o k); [reflexivity|]. apply ownKeysOrder_snoc.
Qed.

Lemma insertIndex_In (i : N) (k : string) (sorted : list (N * string)) (x : string) :
  In x (map snd (insertIndex i k sorted)) <-> x = k \/ In x (map snd sorted).
Proof.
  induction sorted as [|[j k'] more IH]; simpl.
  - split; intros [Hx|Hx]; auto.
  - destruct (i <? j)%N; simpl.
    + split; intros [Hx|Hx]; auto.
    + rewrite IH. split; intros [Hx|[Hx|Hx]]; auto.
Qed.

Lemma indexKeys_In (ks : list string) (x : string) :
  forall sorted,
    In x (map snd (fold_left collectIndex ks sorted))
    <-> In x (map snd sorted) \/ (In x ks /\ isArrayIndex x = true).
Proof.
  induction ks as [|k ks IH]; intros sorted; simpl.
  - split; [auto|]. intros [Hx|[[] _]]. exact Hx.
  - rewrite IH. unfold isArrayIndex, collectIndex.
    destruct (arrayIndex k) as [i|] eqn:Ek.
    + rewrite insertIndex_In. split.
      * intros [[Hx|Hx]|[Hx Hi]]; auto.
        subst x. right. rewrite Ek. auto.
      * intros [Hx|[[Hx|Hx] Hi]]; auto.
    + split.
      * intros [Hx|[Hx Hi]]; auto.
      * intros [Hx|[[Hx|Hx] Hi]]; auto.
        subst x. rewrite Ek in Hi. discriminate.
Qed.

(** [Object.keys] lists each own key. *)
Lemma ownKeysOrder_In (ks : list string) (x : string) :
  In x (ownKeysOrder ks) <-> In x ks.
Proof.
  unfold ownKeysOrder, indexKeys, nameKeys.
  rewrite in_app_iff, indexKeys_In, List.filter_In. simpl.
  destruct (isArrayIndex x); simpl; split.
  - intros [[[]|[Hx _]]|[Hx _]]; exact Hx.
  - intros Hx. left. right. auto.
  - intros [[[]|[Hx Hi]]|[Hx _]]; [discriminate|exact Hx].
  - intros Hx. right. auto.
Qed.

Lemma obj_get_In {V} (o : JsObject V) (k : string) :
  In k (map fst o) <-> obj_get o k <> None.
Proof.
  induction o as [|[k' v'] o IH]; simpl.
  - split; [intros []|intros Hne; apply Hne; reflexivity].
  - destruct (String.eqb k' k) eqn:E.
    + apply String.eqb_eq in E. split; [discriminate|auto].
    + apply String.eqb_neq in E. rewrite <- IH. split; [intros [Hx|Hx]|]; auto.
      contradiction.
Qed.

Lemma obj_set_twice {V} (o : JsObject V) (k : string) (v v' : V) :
  obj_set (obj_set o k v) k v' = obj_set o k v'.
Proof.
  induction o as [|[k0 v0] o IH]; simpl.
  - rewrite String.eqb_refl. reflexivity.
  - destruct (String.eqb k0 k) eqn:E; simpl; rewrite E; [reflexivity|].
    rewrite IH. reflexivity.
Qed.

Lemma instanceAt_frame (h h' : gmap nat HeapObject) (l : nat) (ai : AI) :
  (forall x, is_Some (h !! x) -> h' !! x = h !! x) ->
  instanceAt h l = Some ai ->
  instanceAt h' l = Some ai.
Proof.
  intros Hkeep. unfold instanceAt.
  destruct (h !! l) as [[| |ar fb tr]|] eqn:Hl; try discriminate.
  destruct (h !! ar) as [[o| |]|] eqn:Har; try discriminate.
  destruct (h !! tr) as [[|t|]|] eqn:Htr; try discriminate.
  intros Hai.
  rewrite (Hkeep l) by (rewrite Hl; eauto). rewrite Hl.
  rewrite (Hkeep ar) by (rewrite Har; eauto). rewrite Har.
  rewrite (Hkeep tr) by (rewrite Htr; eauto). rewrite Htr. exact Hai.
Qed.

(** What [addAdapter] leaves on the heap. *)
Lemma addAdapter_heap (h h' : gmap nat HeapObject) (this new : nat) (n : string)
    (a : AIAdapter) (ai : AI) :
  instanceAt h this = Some ai ->
  addAdapter this n a h = Some (new, h') ->
  instanceAt h' new = Some (mkAI (obj_set (adapters ai) n a) None [])
  /\ (forall x, is_Some (h !! x) -> h' !! x = h !! x)
  /\ h !! new = None.
Proof.
  intros Hinst Hadd. unfold instanceAt in Hinst.
  destruct (h !! this) as [[| |ar fb tr]|] eqn:Hthis; try discriminate.
  destruct (h !! ar) as [[o| |]|] eqn:Har; try discriminate.
  destruct (h !! tr) as [[|t|]|] eqn:Htr; try discriminate.
  inversion Hinst; subst ai; clear Hinst. cbn [adapters].
  unfold addAdapter in Hadd. rewrite Hthis, Har in Hadd.
  set (o1 := HAdapters (obj_set o n a)) in *.
  destruct (alloc_fresh h o1) as (Hf1 & Hn1 & Hk1).
  destruct (alloc h o1) as [l1 h1] eqn:E1. cbn [fst snd] in Hf1, Hn1, Hk1.
  unfold newAI in Hadd. cbn [cfg_tools cfg_adapters cfg_fallbacks] in Hadd.
  destruct (alloc_fresh h1 (HTools [])) as (Hf2 & Hn2 & Hk2).
  destruct (alloc h1 (HTools [])) as [l2 h2] eqn:E2. cbn [fst snd] in Hf2, Hn2, Hk2.
  destruct (alloc_fresh h2 (HInstance l1 None l2)) as (Hf3 & Hn3 & Hk3).
  destruct (alloc h2 (HInstance l1 None l2)) as [l3 h3] eqn:E3.
  cbn [fst snd] in Hf3, Hn3, Hk3.
  inversion Hadd; subst new h'; clear Hadd.
  assert (H1 : forall x, is_Some (h !! x) -> is_Some (h1 !! x)).
  { intros x Hx. rewrite (Hk1 x Hx). exact Hx. }
  assert (H2 : forall x, is_Some (h1 !! x) -> is_Some (h2 !! x)).
  { intros x Hx. rewrite (Hk2 x Hx). exact Hx. }
  split; [|split].
  - unfold instanceAt. rewrite Hn3.
    assert (Hl1 : is_Some (h1 !! l1)) by (rewrite Hn1; eauto).
    assert (Hl2 : is_Some (h2 !! l2)) by (rewrite Hn2; eauto).
    rewrite (Hk3 l1 (H2 l1 Hl1)), (Hk2 l1 Hl1), Hn1.
    rewrite (Hk3 l2 Hl2), Hn2. reflexivity.
  - intros x Hx. rewrite (Hk3 x (H2 x (H1 x Hx))), (Hk2 x (H1 x Hx)). apply Hk1. exact Hx.
  - destruct (h !! l3) as [x|] eqn:E; [|reflexivity].
    assert (Hx : is_Some (h !! l3)) by (rewrite E; eauto).
    rewrite (Hk2 l3 (H1 l3 Hx)), (Hk1 l3 Hx), E in Hf3. discriminate.
Qed.

(** X18.  On the instance that [addAdapter(name, backend)] returns,
    [getAdapter(name)] gives that backend, and every other name resolves as
    on the receiver.  The adapter names are those of the receiver and the
    new name: the list of the receiver when the name was registered before;
    otherwise that list with the new name last when the name is not an array
    index, and with the new name at its place among the array indices, which
    come first and in ascending order, when it is one.  The tool registry
    has no entry there: a tool lookup fails, or gives the value that
    [Object.prototype] holds under the name. *)
Theorem X18_lookup_after_addAdapter (h h' : gmap nat HeapObject) (this new : nat)
    (n : string) (a : AIAdapter) (ai : AI) :
  instanceAt h this = Some ai ->
  addAdapter this n a h = Some (new, h') ->
  exists ai',
    instanceAt h' new = Some ai'
    /\ getAdapter ai' n = inl (Own a)
    /\ (forall k x, k <> n -> getAdapter ai' k = inl x <-> getAdapter ai k = inl x)
    /\ adapterNames ai'
       = match obj_get (adapters ai) n with
         | Some _ => adapterNames ai
         | None =>
             match arrayIndex n with
             | None => adapterNames ai ++ [n]
             | Some i =>
                 map snd (insertIndex i n (indexKeys (map fst (adapters ai))))
                 ++ nameKeys (map fst (adapters ai))
             end
         end
    /\ (forall k, In k (adapterNames ai') <-> k = n \/ In k (adapterNames ai))
    /\ (forall t,
          getTool ai' t
          = if inheritedKey t then inl (Inherited t)
            else inr (JsError (toolNotFoundMessage t []))).
Proof.
  intros Hinst Hadd.
  destruct (addAdapter_heap h h' this new n a ai Hinst Hadd) as (Hnew & _ & _).
  exists (mkAI (obj_set (adapters ai) n a) None []).
  split; [exact Hnew|]. split; [|split; [|split; [|split]]].
  - apply getAdapter_registered. cbn [adapters].
    rewrite obj_get_set, String.eqb_refl. reflexivity.
  - intros k x Hne. unfold getAdapter, obj_read. cbn [adapters]. rewrite obj_get_set.
    destruct (String.eqb n k) eqn:E.
    + apply String.eqb_eq in E. congruence.
    + destruct (obj_get (adapters ai) k); [|destruct (inheritedKey k)];
        split; intros Hx; inversion Hx; reflexivity.
  - unfold adapterNames. cbn [adapters]. rewrite obj_set_keys.
    destruct (obj_get (adapters ai) n); [reflexivity|].
    destruct (arrayIndex n); reflexivity.
  - intros k. unfold adapterNames, obj_keys. cbn [adapters].
    rewrite !ownKeysOrder_In, obj_set_entries.
    destruct (obj_get (adapters ai) n) eqn:En.
    + split; [auto|]. intros [Hk|Hk]; [|exact Hk]. subst k.
      apply obj_get_In. congruence.
    + rewrite in_app_iff. simpl. split.
      * intros [Hk|[Hk|[]]]; auto.
      * intros [Hk|Hk]; auto.
  - intros t. unfold getTool, obj_read. simpl.
    destruct (inheritedKey t); reflexivity.
Qed.

(** X19.  [addAdapter] composes: after
    [this.addAdapter(n1, a1).addAdapter(n2, a2)] the last instance has the
    adapter map of the receiver with both entries set, the intermediate
    instance still has only the first, and the receiver is as it was; the
    three instances are distinct.  Adding twice under one name keeps the
    second backend. *)
Theorem X19_addAdapter_composes (h h1 h2 : gmap nat HeapObject) (this l1 l2 : nat)
    (n1 n2 : string) (a1 a2 : AIAdapter) (ai : AI) :
  instanceAt h this = Some ai ->
  addAdapter this n1 a1 h = Some (l1, h1) ->
  addAdapter l1 n2 a2 h1 = Some (l2, h2) ->
  instanceAt h2 l2
  = Some (mkAI (obj_set (obj_set (adapters ai) n1 a1) n2 a2) None [])
  /\ instanceAt h2 l1 = Some (mkAI (obj_set (adapters ai) n1 a1) None [])
  /\ instanceAt h2 this = Some ai
  /\ l1 <> this /\ l2 <> this /\ l2 <> l1
  /\ (n1 = n2 ->
      obj_set (obj_set (adapters ai) n1 a1) n2 a2 = obj_set (adapters ai) n1 a2).
Proof.
  intros Hinst Hadd1 Hadd2.
  destruct (addAdapter_heap h h1 this l1 n1 a1 ai Hinst Hadd1)
    as (Hnew1 & Hkeep1 & Hfresh1).
  destruct (addAdapter_heap h1 h2 l1 l2 n2 a2 _ Hnew1 Hadd2)
    as (Hnew2 & Hkeep2 & Hfresh2).
  pose proof (instanceAt_frame h h1 this ai Hkeep1 Hinst) as Hthis1.
  assert (Hsome : forall hp l x, instanceAt hp l = Some x -> is_Some (hp !! l)).
  { intros hp l x Hx. unfold instanceAt in Hx.
    destruct (hp !! l); [eauto | discriminate]. }
  split; [exact Hnew2|].
  split; [exact (instanceAt_frame h1 h2 l1 _ Hkeep2 Hnew1)|].
  split; [exact (instanceAt_frame h1 h2 this ai Hkeep2 Hthis1)|].
  split; [|split; [|split]].
  - intros Heq; subst. destruct (Hsome _ _ _ Hinst) as [x Hx]. congruence.
  - intros Heq; subst. destruct (Hsome _ _ _ Hthis1) as [x Hx]. congruence.
  - intros Heq; subst. destruct (Hsome _ _ _ Hnew1) as [x Hx]. congruence.
  - intros Heq; subst. apply obj_set_twice.
Qed.

(** *** Enumeration after a spread *)

Lemma insertIndex_Forall (P : N * string -> Prop) (i : N) (k : string)
    (sorted : list (N * string)) :
  P (i, k) -> Forall P sorted -> Forall P (insertIndex i k sorted).
Proof.
  intros Hik. induction 1 as [|[j k'] more Hj Hmore IH]; simpl.
  - constructor; [exact Hik|constructor].
  - destruct (i <? j)%N.
    + constructor; [exact Hik|]. constructor; assumption.
    + constructor; assumption.
Qed.

Lemma insertIndex_ascending (i : N) (k : string) (sorted : list (N * string)) :
  ascendingKeys sorted -> ascendingKeys (insertIndex i k sorted).
Proof.
  induction sorted as [|[j k'] more IH]; simpl.
  - intros _. split; [constructor|exact I].
  - intros [Hj Hmore]. destruct (i <? j)%N eqn:E; simpl.
    + apply N.ltb_lt in E. split; [|split; assumption].
      constructor; [simpl; lia|].
      eapply Forall_impl; [exact Hj|]. intros [j' k''] Hle. simpl in *. lia.
    + apply N.ltb_ge in E. split; [|apply IH; exact Hmore].
      apply insertIndex_Forall; [exact E|exact Hj].
Qed.

Lemma insertIndex_last (i : N) (k : string) (sorted : list (N * string)) :
  Forall (fun jk => (fst jk <= i)%N) sorted ->
  insertIndex i k sorted = sorted ++ [(i, k)].
Proof.
  induction 1 as [|[j k'] more Hj _ IH]; simpl; [reflexivity|].
  simpl in Hj. destruct (i <? j)%N eqn:E.
  - apply N.ltb_lt in E. lia.
  - rewrite IH. reflexivity.
Qed.

Lemma ascendingKeys_before (front : list (N * string)) (x : N * string)
    (back : list (N * string)) :
  ascendingKeys (front ++ x :: back) ->
  Forall (fun jk => (fst jk <= fst x)%N) front.
Proof.
  induction front as [|[j k'] front IH]; simpl; [constructor|].
  intros [Hj Hmore]. constructor; [|apply IH; exact Hmore].
  apply Forall_app in Hj. destruct Hj as [_ Hj].
  inversion Hj; subst. assumption.
Qed.

(** The array indices collected so far are in ascending order, each under
    its own index. *)
Lemma indexKeys_invariant (ks : list string) :
  forall sorted,
    ascendingKeys sorted ->
    Forall (fun jk => arrayIndex (snd jk) = Some (fst jk)) sorted ->
    ascendingKeys (fold_left collectIndex ks sorted)
    /\ Forall (fun jk => arrayIndex (snd jk) = Some (fst jk))
         (fold_left collectIndex ks sorted).
Proof.
  induction ks as [|k ks IH]; intros sorted Hasc Hwf; simpl; [split; assumption|].
  apply IH; unfold collectIndex; destruct (arrayIndex k) as [i|] eqn:Ek;
    try assumption.
  - apply insertIndex_ascending. exact Hasc.
  - apply insertIndex_Forall; [exact Ek|exact Hwf].
Qed.

Lemma collectIndex_names (ks : list string) (sorted : list (N * string)) :
  Forall (fun k => isArrayIndex k = false) ks ->
  fold_left collectIndex ks sorted = sorted.
Proof.
  induction 1 as [|k ks Hk _ IH]; simpl; [reflexivity|].
  unfold collectIndex at 2. unfold isArrayIndex in Hk.
  destruct (arrayIndex k); [discriminate|exact IH].
Qed.

Lemma collectIndex_sorted (back : list (N * string)) :
  forall front,
    ascendingKeys (front ++ back) ->
    Forall (fun jk => arrayIndex (snd jk) = Some (fst jk)) back ->
    fold_left collectIndex (map snd back) front = front ++ back.
Proof.
  induction back as [|[i k] back IH]; intros front Hasc Hwf; simpl.
  - rewrite app_nil_r. reflexivity.
  - inversion Hwf as [|? ? Hik Hback]; subst. simpl in Hik.
    unfold collectIndex at 2. rewrite Hik.
    rewrite (insertIndex_last i k front (ascendingKeys_before front (i, k) back Hasc)).
    rewrite IH; [rewrite <- app_assoc; reflexivity| |exact Hback].
    rewrite <- app_assoc. exact Hasc.
Qed.

Lemma nameKeys_names (ks : list string) :
  Forall (fun k => isArrayIndex k = false) (nameKeys ks).
Proof.
  unfold nameKeys. induction ks as [|k ks IH]; simpl; [constructor|].
  destruct (isArrayIndex k) eqn:E; simpl; [exact IH|].
  constructor; assumption.
Qed.

Lemma nameKeys_idempotent (ks : list string) :
  nameKeys (nameKeys ks) = nameKeys ks.
Proof.
  unfold nameKeys. induction ks as [|k ks IH]; simpl; [reflexivity|].
  destruct (isArrayIndex k) eqn:E; simpl; [exact IH|].
  rewrite E. simpl. rewrite IH. reflexivity.
Qed.

Lemma nameKeys_indices (sorted : list (N * string)) :
  Forall (fun jk => arrayIndex (snd jk) = Some (fst jk)) sorted ->
  nameKeys (map snd sorted) = [].
Proof.
  unfold nameKeys. induction 1 as [|[i k] more Hik _ IH]; simpl; [reflexivity|].
  simpl in Hik. unfold isArrayIndex. rewrite Hik. simpl. exact IH.
Qed.

Lemma ownKeysOrder_app (ks more : list string) :
  ownKeysOrder (ks ++ more)
  = map snd (fold_left collectIndex more (indexKeys ks)) ++ nameKeys ks ++ nameKeys more.
Proof.
  unfold ownKeysOrder, indexKeys, nameKeys.
  rewrite fold_left_app, List.filter_app. reflexivity.
Qed.

(** Creating properties on a copy made in the order of [Object.keys]
    enumerates as creating them on the original does: nothing is lost when
    the copy that a spread makes is represented by the list of the
    original. *)
Lemma ownKeysOrder_spread (ks more : list string) :
  ownKeysOrder (ownKeysOrder ks ++ more) = ownKeysOrder (ks ++ more).
Proof.
  destruct (indexKeys_invariant ks [] I (List.Forall_nil _)) as [Hasc Hwf].
  fold (indexKeys ks) in Hasc, Hwf.
  assert (Hindex : indexKeys (ownKeysOrder ks) = indexKeys ks).
  { unfold ownKeysOrder at 1. unfold indexKeys at 1.
    rewrite fold_left_app.
    rewrite (collectIndex_sorted (indexKeys ks) [] Hasc Hwf). simpl.
    apply collectIndex_names. apply nameKeys_names. }
  assert (Hnames : nameKeys (ownKeysOrder ks) = nameKeys ks).
  { unfold ownKeysOrder. unfold nameKeys at 1. rewrite List.filter_app.
    fold (nameKeys (map snd (indexKeys ks))). fold (nameKeys (nameKeys ks)).
    rewrite (nameKeys_indices _ Hwf), nameKeys_idempotent. reflexivity. }
  rewrite !ownKeysOrder_app, Hindex, Hnames. reflexivity.
Qed.

(** *** The demo route *)

(** X20.  The message list that the demo handler sends always starts with
    a system message: the system prompt is put in front unless the first
    message is already a system message, in which case the list is sent as
    it is.  The messages received are kept, in order, and preparing the
    list twice changes nothing more. *)
Theorem X20_allMessages_starts_with_system (msgs : list Message) :
  startsWithSystem (allMessages msgs) = true
  /\ allMessages (allMessages msgs) = allMessages msgs
  /\ msgs `suffix_of` allMessages msgs
  /\ (startsWithSystem msgs = true -> allMessages msgs = msgs)
  /\ (startsWithSystem msgs = false -> allMessages msgs = systemMessage :: msgs).
Proof.
  unfold allMessages.
  destruct (startsWithSystem msgs) eqn:E.
  - rewrite E. repeat split; try reflexivity; try discriminate.
  - simpl. repeat split; try reflexivity; try discriminate.
    exists [systemMessage]. reflexivity.
Qed.

(** X21.  The chat call of the demo route asks for two tools that both
    have an [execute] function, so it runs the tool loop: whatever the
    backends, the tools and the messages are, every backend call goes to
    [openAi] with model [gpt-4o], there are at most 5 of them, and no
    failure warning is written.  The per-call fallback [ollama] and the
    fallback of the constructor are never called. *)
Theorem X21_demo_route_never_falls_back (ollama openAi : AIAdapter)
    (getGuitars recommendGuitar : Json -> World -> (string + JsThrown) * World)
    (msgs : list Message) (p : ChatParams) (st : Env) :
  exists rounds,
    rounds <= 5
    /\ calls (snd (chatStream (demoAI ollama openAi getGuitars recommendGuitar)
                     (demoOptions msgs p) st))
       = calls st ++ repeat (mkCall "openAi" "gpt-4o") rounds
    /\ console (snd (chatStream (demoAI ollama openAi getGuitars recommendGuitar)
                       (demoOptions msgs p) st))
       = console st.
Proof.
  rewrite (chatStream_tool_mode (demoAI ollama openAi getGuitars recommendGuitar)
             (demoOptions msgs p)
             (mkPlan false "openAi" "gpt-4o"
                (Some [mkFallback "ollama" "gpt-oss:20b"]))
             (Some [Own (mkTool "getGuitars" (Some getGuitars));
                    Own (mkTool "recommendGuitar" (Some recommendGuitar))])
             (Own openAi) st eq_refl eq_refl eq_refl eq_refl).
  apply (toolLoop_calls (Own openAi) "openAi" "gpt-4o"
           (chat_rest (demoOptions msgs p)) _ 5).
Qed.

(** *** Which backends a streaming call may reach *)

Lemma streamAttempt_state {C} (errorOf : C -> option string)
    (operation : M (Stream C)) (st : Env) :
  snd (streamAttempt errorOf operation st) = snd (operation st).
Proof.
  unfold streamAttempt. destruct (operation st) as [[s|e] st']; [|reflexivity].
  destruct (forwardUntilError errorOf s). reflexivity.
Qed.

Lemma walkStreamFallbacks_calls {C} (errorOf : C -> option string)
    (operation : AdapterFallback -> M (Stream C)) (kind operationName : string) :
  (forall fb st,
      calls (snd (operation fb st)) = calls st
      \/ calls (snd (operation fb st)) = calls st ++ [callOf fb]) ->
  forall entries errors st,
    exists new,
      calls (snd (walkStreamFallbacks errorOf operation kind operationName
                    errors entries st))
      = calls st ++ new
      /\ new `sublist_of` map callOf entries.
Proof.
  intros Hop. induction entries as [|fb more IH]; intros errors st; simpl.
  - exists []. rewrite app_nil_r. split; [reflexivity|constructor].
  - pose proof (Hop fb st) as Hfirst.
    rewrite <- (streamAttempt_state errorOf (operation fb) st) in Hfirst.
    assert (Hstop : forall (x : list C * (unit + JsThrown + list Failure)),
               exists new,
                 calls (snd (x, snd (streamAttempt errorOf (operation fb) st)))
                 = calls st ++ new
                 /\ new `sublist_of` callOf fb :: map callOf more).
    { intros x. simpl. destruct Hfirst as [Hsame|Hone].
      - exists []. rewrite app_nil_r. split; [exact Hsame|apply sublist_nil_l].
      - exists [callOf fb]. split; [exact Hone|].
        apply sublist_skip. apply sublist_nil_l. }
    destruct (streamAttempt errorOf (operation fb) st) as [[out [e|]] st'];
      simpl in Hfirst, Hstop; [|apply (Hstop (out, inl (inl tt)))].
    destruct (readMessage e) as [msg|thrown]; [|apply (Hstop (out, inl (inr thrown)))].
    match goal with
    | |- context [walkStreamFallbacks _ _ _ _ ?errs more ?s0] =>
        destruct (IH errs s0) as (new & Hcalls & Hsub);
        destruct (walkStreamFallbacks errorOf operation kind operationName
                    errs more s0) as [[out' r'] st'']
    end.
    simpl in *. rewrite Hcalls.
    destruct Hfirst as [Hsame|Hone].
    + exists new. rewrite Hsame. split; [reflexivity|].
      apply sublist_cons. exact Hsub.
    + exists (callOf fb :: new). rewrite Hone, <- app_assoc.
      split; [reflexivity|]. apply sublist_skip. exact Hsub.
Qed.

Lemma finishWalk_state {C} (operationName : string)
    (x : list C * (unit + JsThrown + list Failure) * Env) :
  snd (finishWalk operationName x) = snd x.
Proof.
  destruct x as [[out [outcome|errors]] st]; reflexivity.
Qed.

Lemma streamPrimaryThenFallbacks_calls {C} (errorOf : C -> option string)
    (operationName : string) (primary : M (Stream C))
    (operation : AdapterFallback -> M (Stream C)) a m fl st :
  (calls (snd (primary st)) = calls st
   \/ calls (snd (primary st)) = calls st ++ [mkCall a m]) ->
  (forall fb st0,
      calls (snd (operation fb st0)) = calls st0
      \/ calls (snd (operation fb st0)) = calls st0 ++ [callOf fb]) ->
  exists new,
    calls (snd (streamPrimaryThenFallbacks errorOf operationName primary operation
                  a m fl st))
    = calls st ++ new
    /\ new `sublist_of` mkCall a m :: map callOf (chainOf fl).
Proof.
  intros Hfirst Hop. unfold streamPrimaryThenFallbacks.
  rewrite <- (streamAttempt_state errorOf primary st) in Hfirst.
  assert (Hbase : exists new,
             calls (snd (streamAttempt errorOf primary st)) = calls st ++ new
             /\ new `sublist_of` mkCall a m :: map callOf (chainOf fl)).
  { destruct Hfirst as [Hsame|Hone].
    - exists []. rewrite app_nil_r. split; [exact Hsame|apply sublist_nil_l].
    - exists [mkCall a m]. split; [exact Hone|].
      apply sublist_skip. apply sublist_nil_l. }
  destruct (streamAttempt errorOf primary st) as [[out [e|]] st'];
    simpl in Hfirst, Hbase; [|exact Hbase].
  destruct (noFallbacks fl); [exact Hbase|].
  destruct (readMessage e) as [msg|thrown]; [|exact Hbase].
  match goal with
  | |- context [walkStreamFallbacks _ _ ?k ?n ?errs ?l ?s0] =>
      destruct (walkStreamFallbacks_calls errorOf operation k n Hop l errs s0)
        as (new & Hcalls & Hsub);
      pose proof (finishWalk_state n (walkStreamFallbacks errorOf operation k n errs l s0))
        as Hfin;
      destruct (finishWalk n (walkStreamFallbacks errorOf operation k n errs l s0))
        as [[out' r'] st'']
  end.
  simpl in *. rewrite Hfin, Hcalls.
  destruct Hfirst as [Hsame|Hone].
  - exists new. rewrite Hsame. split; [reflexivity|]. apply sublist_cons. exact Hsub.
  - exists (mkCall a m :: new). rewrite Hone, <- app_assoc.
    split; [reflexivity|]. apply sublist_skip. exact Hsub.
Qed.

Lemma openStream_calls {P C}
    (method : AIAdapter -> Request P -> World -> Stream C * World)
    (callee : string) (value : JsProperty AIAdapter) (a : string) (request : Request P)
    (st : Env) :
  calls (snd (openStream method callee value a request st)) = calls st
  \/ calls (snd (openStream method callee value a request st))
     = calls st ++ [mkCall a (req_model request)].
Proof.
  unfold openStream. destruct value as [inst|k]; [|left; reflexivity].
  destruct (method inst request (world st)). right. reflexivity.
Qed.

Lemma chatStreamAttempt_calls (this : AI) (r : ChatRest)
    (toolObjects : option ToolObjects) (fb : AdapterFallback) (st : Env) :
  calls (snd (chatStreamAttempt this r toolObjects (adapter fb) (model fb) st)) = calls st
  \/ calls (snd (chatStreamAttempt this r toolObjects (adapter fb) (model fb) st))
     = calls st ++ [callOf fb].
Proof.
  unfold chatStreamAttempt. destruct (getAdapter this (adapter fb)); [|left; reflexivity].
  apply openStream_calls.
Qed.

Lemma textStreamAttempt_calls (this : AI) (r : TextGenerationOptions)
    (a m : string) (st : Env) :
  calls (snd (textStreamAttempt this r a m st)) = calls st
  \/ calls (snd (textStreamAttempt this r a m st)) = calls st ++ [mkCall a m].
Proof.
  unfold textStreamAttempt. destruct (getAdapter this a); [|left; reflexivity].
  apply openStream_calls.
Qed.

(** X22.  Whatever the backends do, the backend calls of a streaming chat
    without tool executors and of [generateTextStream] are added after the
    calls made before and form a sub-sequence of the primary (when one is
    given) followed by the entries of the effective chain: no other backend
    is called, and none is called out of order or twice for one position. *)
Theorem X22_stream_calls_follow_the_plan (this : AI) :
  (forall options toolObjects st,
      resolveTools this (chat_tools options) = inl toolObjects ->
      hasToolExecutors toolObjects = false ->
      exists new,
        calls (snd (chatStream this options st)) = calls st ++ new
        /\ new `sublist_of` plannedCalls this (chat_target options))
  /\ (forall options st,
        exists new,
          calls (snd (generateTextStream this options st)) = calls st ++ new
          /\ new `sublist_of` plannedCalls this (target options)).
Proof.
  split.
  - intros options toolObjects st Htools Hexec.
    unfold chatStream, planStream, plannedCalls.
    destruct (chat_target options) as [a m fbs|fbs].
    + rewrite Htools, Hexec. simpl.
      destruct (getAdapter this a) as [inst|e].
      * apply streamPrimaryThenFallbacks_calls.
        -- apply openStream_calls.
        -- intros fb st0. apply chatStreamAttempt_calls.
      * exists []. simpl. rewrite app_nil_r. split; [reflexivity|apply sublist_nil_l].
    + destruct (effectiveFallbacks fbs (fallbacks this)) as [[|f fs]|];
        try (exists []; simpl; rewrite app_nil_r;
             split; [reflexivity|apply sublist_nil_l]).
      rewrite Htools, Hexec. simpl. unfold tryStreamWithFallback.
      rewrite finishWalk_state.
      apply (walkStreamFallbacks_calls chunkError _ "Adapter" "streamChat").
      intros fb st0. apply chatStreamAttempt_calls.
  - intros options st. unfold generateTextStream, plannedCalls.
    destruct (target options) as [a m fbs|fbs]; cbv zeta.
    + apply streamPrimaryThenFallbacks_calls.
      * apply textStreamAttempt_calls.
      * intros fb st0. apply textStreamAttempt_calls.
    + destruct (noFallbacks (effectiveFallbacks fbs (fallbacks this))).
      * exists []. simpl. rewrite app_nil_r. split; [reflexivity|apply sublist_nil_l].
      * unfold tryStreamWithFallback. rewrite finishWalk_state.
        apply (walkStreamFallbacks_calls textChunkError _ "Adapter" "generateTextStream").
        intros fb st0. apply textStreamAttempt_calls.
Qed.

End Properties.

(** ** Runs on the concrete platform *)

Section Runs.

Import Sample MoreSamples.

Local Open Scope list_scope.

#[local] Existing Instance platform.

(** C1, as stated, fails: with the primary [alpha] and the chain [[beta]],
    both down, the error lists the one failure of the chain.  The list the
    walk threw has length 1, not 1 + 1; [alpha] and its message are not in
    the message of the error.  And with the chain [[silent; beta]], whose
    first entry rejects with [undefined], no list is raised at all: the
    call ends at that entry with the [TypeError] of reading its message. *)
Lemma C1_primary_failure_is_not_listed :
  exists st0 st1,
    chatAttempt ai (chatRest None) None "alpha" "a1" start
    = (inr (JsError "alpha is down"), st0)
    /\ walkFallbacks
         (fun f => chatAttempt ai (chatRest None) None (adapter f) (model f))
         "chat (after primary failure)" [] [beta1]
         (warnEnv (adapterFailedWarning "Primary adapter" "alpha" "a1" "chat")
            (JsError "alpha is down") st0)
       = (inr [mkFailure "beta" "b1" "beta is down"], st1)
    /\ chatPromise ai (withPrimary "alpha" "a1" [beta1]) start
       = (inr (JsError (allAdaptersFailedMessage "chat (after primary failure)"
                          [mkFailure "beta" "b1" "beta is down"])), st1)
    /\ List.length [mkFailure "beta" "b1" "beta is down"] <> 1 + List.length [beta1]
    /\ allAdaptersFailedMessage "chat (after primary failure)"
         [mkFailure "beta" "b1" "beta is down"]
       <> allAdaptersFailedMessage "chat (after primary failure)"
            [mkFailure "alpha" "a1" "alpha is down";
             mkFailure "beta" "b1" "beta is down"]
    /\ String.index 0 "alpha"
         (allAdaptersFailedMessage "chat (after primary failure)"
            [mkFailure "beta" "b1" "beta is down"]) = None
    /\ fst (chatPromise ai (withPrimary "alpha" "a1" [silent1; beta1]) start)
       = inr (JsError "Cannot read properties of undefined (reading 'message')")
    /\ calls (snd (chatPromise ai (withPrimary "alpha" "a1" [silent1; beta1]) start))
       = [mkCall "alpha" "a1"; mkCall "silent" "s1"].
Proof.
  eexists. eexists.
  split; [reflexivity|]. split; [reflexivity|]. split; [reflexivity|].
  split; [simpl; lia|]. split; [vm_compute; discriminate|].
  split; [vm_compute; reflexivity|]. split; vm_compute; reflexivity.
Qed.

Lemma C1_witness :
  exists st1,
    runPromise ai (CallChat (withPrimary "alpha" "a1" [beta1])) start
    = (inr (JsError (allAdaptersFailedMessage "chat (after primary failure)"
                       (failuresOf [beta1] [JsError "beta is down"]))), st1)
    /\ List.length (failuresOf [beta1] [JsError "beta is down"]) = 1.
Proof.
  eexists.
  edestruct (C1_all_failed_lists_the_chain ai
               (CallChat (withPrimary "alpha" "a1" [beta1]))
               (chatAttempt ai (chatRest None) None) "alpha" "a1" (Some [beta1]) start)
    as (Hrun & _ & _ & Hlen);
    [reflexivity | reflexivity | reflexivity | reflexivity
    | eapply FailedCons; [reflexivity | reflexivity | apply FailedNil]
    | repeat constructor | ].
  split; [exact Hrun | exact Hlen].
Defined.

Lemma C2_witness :
  (exists st',
      runPromise ai (CallChat (withPrimary "gamma" "g1" [beta1])) start
      = (inl "hi from gamma", st')
      /\ calls st' = [mkCall "gamma" "g1"])
  /\ (exists st',
        runPromise ai (CallEmbed (embedOptions (WithAdapter "alpha" "a1" None))) start
        = (inr (JsError "alpha is down"), st')
        /\ calls st' = [mkCall "alpha" "a1"]).
Proof.
  split.
  - destruct (C2_primary_result_or_primary_error ai
                (CallChat (withPrimary "gamma" "g1" [beta1]))
                (chatAttempt ai (chatRest None) None) "gamma" "g1" (Some [beta1])
                start eq_refl eq_refl) as [Hok _].
    eexists. edestruct Hok as (Hrun & Hcalls & _); [reflexivity|].
    split; [exact Hrun | exact Hcalls].
  - destruct (C2_primary_result_or_primary_error ai
                (CallEmbed (embedOptions (WithAdapter "alpha" "a1" None)))
                (embedAttempt ai (tt : @EmbeddingOptions platform)) "alpha" "a1" None
                start eq_refl eq_refl) as [_ Hfail].
    eexists. edestruct Hfail as (Hrun & Hcalls & _); [reflexivity | reflexivity |].
    split; [exact Hrun |]. apply Hcalls. eexists. reflexivity.
Defined.





Lemma C5_witness :
  chatStream ai (withPrimary "delta" "d1" [beta1; gamma1]) start
  = emitFirst [hello; world_]
      (finishWalk "streamChat"
         (walkStreamFallbacks chunkError
            (fun f => chatStreamAttempt ai (chatRest None) None (adapter f) (model f))
            "Fallback adapter" "streamChat" [mkFailure "delta" "d1" "overloaded"]
            [beta1; gamma1]
            (warnEnv (adapterFailedWarning "Primary adapter" "delta" "d1" "streamChat")
               (JsError "overloaded") (recordCall "delta" "d1" 1 start))))
  /\ Forall (fun c => isErrorChunk c = false)
       (fst (fst (chatStream ai (withPrimary "delta" "d1" [beta1; gamma1]) start))).
Proof.
  destruct (C5_error_chunk_fails_the_attempt ai
              (withPrimary "delta" "d1" [beta1; gamma1]) None eq_refl eq_refl)
    as (Hclean & _ & _ & Hprimary).
  split; [|apply Hclean].
  apply (Hprimary "delta" "d1" (Some [beta1; gamma1]) start flaky [hello; world_]
           overloaded "overloaded" (yields [stop] SDone) 1
           eq_refl eq_refl eq_refl).
  - repeat constructor.
  - reflexivity.
Defined.

(** C6, as stated, fails: the fragment for index 1 arrives before the
    fragment for index 0, and the finalized list has the call of index 1
    first. *)
Lemma C6_later_index_first :
  exists rs,
    streamRound (yields [secondCall; firstCall; doneToolCalls] SDone) newRound
    = ([secondCall; firstCall; doneToolCalls], inl rs)
    /\ hasToolCalls rs = true
    /\ map fst (toolCallsMap rs) = [1%Z; 0%Z]
    /\ roundToolCalls rs
       = [mkToolCall "call_b" "second" "{}"; mkToolCall "call_a" "first" "{}"]
    /\ ascending (map fst (toolCallsMap rs)) = false.
Proof.
  eexists. split; [reflexivity|]. repeat split; reflexivity.
Qed.

Lemma C6_witness :
  exists rs,
    streamRound (yields [secondCall; firstCall]
                   (SYield (DoneChunk meta0 (Some "tool_calls")) SDone)) newRound
    = ([secondCall; firstCall] ++ [DoneChunk meta0 (Some "tool_calls")], inl rs)
    /\ map fst (toolCallsMap rs) = [1%Z; 0%Z]
    /\ map Some (roundToolCalls rs)
       = [Some (mkToolCall "call_b" "second" "{}");
          Some (mkToolCall "call_a" "first" "{}")]
    /\ List.length (roundToolCalls rs) = 2.
Proof.
  pose proof (C6_finalized_in_arrival_order [secondCall; firstCall] meta0) as Hround.
  cbv zeta in Hround.
  destruct Hround as (rs & Hrun & _ & Hcalls & Hlen & _ & _ & Hkeys & _).
  - repeat constructor.
  - exists rs. split; [exact Hrun|]. split; [exact Hkeys|].
    split; [exact Hcalls | exact Hlen].
Defined.



(** C8, as stated, fails.  When the [execute] function rejects with
    [undefined], no tool message is appended and the streaming call is
    aborted with a [TypeError].  When it throws the string [boom], which has
    no [message] property, the body of the tool message is the empty
    object: it does not hold the failure. *)
Lemma C8_failure_without_message :
  executeToolCall (Some [Own voidTool]) "k1" lookupCall start
  = ([], [], Some (JsError "Cannot read properties of undefined (reading 'message')"),
     start)
  /\ snd (fst (chatStream ai
                 (chatOptions (WithAdapter "asker" "k1" None) (Some ["void"]) None)
                 start))
     = inr (JsError "Cannot read properties of undefined (reading 'message')")
  /\ executeToolCall (Some [Own shoutingTool]) "k1" lookupCall start
     = ([toolMessage "{}" lookupCall], [], None, start)
  /\ String.index 0 "boom" "{}" = None.
Proof.
  split; [reflexivity|]. split; [reflexivity|]. split; reflexivity.
Qed.

Lemma C8_witness :
  executeToolCall (Some [Own brokenTool]) "k1" lookupCall start
  = ([toolMessage (errorPayload (JsError "disk full")) lookupCall], [], None,
     @setWorld platform 0 start)
  /\ content (toolMessage (errorPayload (JsError "disk full")) lookupCall)
     = Some ("{" ++ dquote ++ "error" ++ dquote ++ ":"
               ++ JSON_stringify_string "disk full" ++ "}")%string.
Proof.
  destruct (C8_tool_failure_becomes_message (Some [Own brokenTool]) "k1" lookupCall
              brokenTool (fun _ w => (inr (JsError "disk full"), w))
              (JsError "disk full") start (@setWorld platform 0 start) eq_refl eq_refl)
    as (Hcall & _ & _ & _ & Hbody & _).
  - right. exists "{}"%string, 0. repeat split; reflexivity.
  - reflexivity.
  - split; [exact Hcall | apply Hbody; reflexivity].
Defined.

Lemma C9_witness :
  exists new h',
    addAdapter 2 "beta" (down "beta is down") heap0 = Some (new, h')
    /\ instanceAt h' new
       = Some (mkAI (obj_set (adapters instance0) "beta" (down "beta is down")) None [])
    /\ instanceAt h' 2 = Some instance0
    /\ new <> 2.
Proof.
  destruct (C9_addAdapter_builds_a_new_instance heap0 2 "beta" (down "beta is down")
              instance0 eq_refl) as (new & h' & Hadd & Hnew & _ & _ & Hthis & Hne).
  exists new, h'. repeat split; assumption.
Defined.

Lemma C10_witness :
  (exists rounds,
      calls (snd (chatStream ai
                    (chatOptions (FallbackOnly (Some [asker1; gamma1])) (Some ["lookup"])
                       (Some 2%Z))
                    start))
      = calls start ++ repeat (mkCall "asker" "k1") rounds
      /\ console (snd (chatStream ai
                         (chatOptions (FallbackOnly (Some [asker1; gamma1]))
                            (Some ["lookup"]) (Some 2%Z))
                         start))
         = console start)
  /\ "asker" = adapter asker1
  /\ In overloaded
       (fst (fst (toolLoop 1 (Own flaky) "asker" "k1" (chatRest (Some 2%Z))
                    (Some [Own lookupTool]) [userMessage] start))).
Proof.
  destruct (C10_tool_mode_uses_one_adapter ai
              (chatOptions (FallbackOnly (Some [asker1; gamma1])) (Some ["lookup"])
                 (Some 2%Z))
              (mkPlan true "asker" "k1" (Some [asker1; gamma1])) (Some [Own lookupTool])
              asker eq_refl eq_refl eq_refl eq_refl)
    as ((first & more & Heff & Hadapter & _) & Hcalls & _).
  split; [apply Hcalls|]. split; [inversion Heff; subst; exact Hadapter|].
  destruct (C10_tool_mode_uses_one_adapter
              {| adapters := [("asker", flaky)]; fallbacks := None;
                 toolRegistry := [("lookup", lookupTool)] |}
              (chatOptions (FallbackOnly (Some [asker1; gamma1])) (Some ["lookup"])
                 (Some 2%Z))
              (mkPlan true "asker" "k1" (Some [asker1; gamma1])) (Some [Own lookupTool])
              flaky eq_refl eq_refl eq_refl eq_refl)
    as (_ & _ & _ & _ & Hforward).
  destruct (Hforward 0 [userMessage] start
              (yields [hello; world_; overloaded; stop] SDone) 1 overloaded eq_refl)
    as (more' & _ & Hin).
  - simpl. tauto.
  - exact Hin.
Defined.

Lemma X1_witness :
  getToolsByNames ai ["broken"; "lookup"] = inl (map Own [brokenTool; lookupTool])
  /\ getTool ai "toString" = inl (Inherited "toString")
  /\ getToolsByNames numbered (["lookup"; "valueOf"] ++ "nope" :: ["9"])
     = inr (JsError (toolNotFoundMessage "nope" ["9"; "10"; "lookup"])).
Proof.
  destruct (X1_getToolsByNames_in_order ai) as (_ & _ & Hok & Hinherited & _).
  destruct (X1_getToolsByNames_in_order numbered) as (_ & _ & _ & _ & Hunknown).
  split; [|split].
  - apply Hok. repeat constructor.
  - apply Hinherited; reflexivity.
  - apply Hunknown; [|reflexivity|reflexivity].
    constructor; [left; eexists; reflexivity|].
    constructor; [right; reflexivity | constructor].
Defined.

Lemma X2_witness :
  chatStream numbered
    (chatOptions (WithAdapter "1" "m1" None) (Some (["toString"] ++ "nope" :: [])) None)
    start
  = ([], inr (JsError (toolNotFoundMessage "nope" ["9"; "10"; "lookup"])), start)
  /\ chatPromise numbered
       (chatOptions (WithAdapter "1" "m1" None) (Some (["toString"] ++ "nope" :: [])) None)
       start
     = (inr (JsError (toolNotFoundMessage "nope" ["9"; "10"; "lookup"])), start).
Proof.
  destruct (X2_unknown_tool_before_any_call numbered
              (chatOptions (WithAdapter "1" "m1" None)
                 (Some (["toString"] ++ "nope" :: [])) None)
              ["toString"] [] "nope" start eq_refl) as (Hstream & Hpromise & _).
  - constructor; [right; reflexivity | constructor].
  - reflexivity.
  - reflexivity.
  - split; [exact Hstream | apply Hpromise; discriminate].
Defined.

Lemma X3_witness :
  chatStream numbered (withPrimary "zeta" "z1" [gamma1]) start
  = ([], inr (JsError (adapterNotFoundMessage "zeta" ["1"; "alpha"])), start)
  /\ fst (chatPromise ai (withPrimary "zeta" "z1" [gamma1]) start) = inl "hi from gamma"
  /\ fst (chatStream ai (withPrimary "constructor" "c1" [gamma1]) start)
     = ([ContentChunk meta0 "hi from gamma" "hi from gamma" (Some "assistant"); stop],
        inl tt)
  /\ console (snd (chatStream ai (withPrimary "constructor" "c1" [gamma1]) start))
     = [(adapterFailedWarning "Primary adapter" "constructor" "c1" "streamChat",
         Some "adapterInstance.chatStream is not a function")].
Proof.
  destruct (X3_unknown_adapter_by_mode numbered (withPrimary "zeta" "z1" [gamma1]) None
              start eq_refl) as [Hnumbered _].
  destruct (Hnumbered "zeta" "z1" (Some [gamma1]) eq_refl eq_refl eq_refl)
    as [Hstream _].
  destruct (X3_unknown_adapter_by_mode ai (withPrimary "zeta" "z1" [gamma1]) None start
              eq_refl) as [Hprimary _].
  destruct (Hprimary "zeta" "z1" (Some [gamma1]) eq_refl eq_refl eq_refl)
    as [_ Hpromise].
  destruct (X3_unknown_adapter_by_mode ai (withPrimary "constructor" "c1" [gamma1]) None
              start eq_refl) as (_ & _ & Hinherited).
  pose proof (Hinherited "constructor" "c1" (Some [gamma1]) eq_refl eq_refl eq_refl
                eq_refl) as Hwalk.
  split; [exact Hstream|]. split; [rewrite Hpromise; reflexivity|].
  split; rewrite Hwalk; reflexivity.
Defined.

Lemma X4_witness :
  exists st1,
    runPromise ai (CallChat (fallbackOnly [alpha1; beta1])) start
    = (inr (JsError (allAdaptersFailedMessage "chat"
                       (failuresOf [alpha1; beta1]
                          [JsError "alpha is down"; JsError "beta is down"]))), st1)
    /\ List.length (failuresOf [alpha1; beta1]
                      [JsError "alpha is down"; JsError "beta is down"]) = 2.
Proof.
  eexists.
  edestruct (X4_fallback_only_all_failed ai (CallChat (fallbackOnly [alpha1; beta1]))
               (chatAttempt ai (chatRest None) None) (Some [alpha1; beta1]) start)
    as (Hrun & _ & _ & Hlen);
    [reflexivity | reflexivity | discriminate | reflexivity
    | eapply FailedCons; [reflexivity | reflexivity |];
      eapply FailedCons; [reflexivity | reflexivity | apply FailedNil]
    | repeat constructor | ].
  split; [exact Hrun | exact Hlen].
Defined.


Lemma X7_witness :
  exists st1,
    chatStream ai (withPrimary "delta" "d1" [beta1]) start
    = ([hello; world_] ++ ([] ++ []),
       inr (JsError (allAdaptersFailedMessage "streamChat"
                       (mkFailure "delta" "d1" (asErrorMessage (JsError "overloaded"))
                          :: failuresOf [beta1] [JsError "beta is down"]))),
       st1)
    /\ List.length
         (mkFailure "delta" "d1" (asErrorMessage (JsError "overloaded"))
            :: failuresOf [beta1] [JsError "beta is down"])
       = 1 + List.length [beta1].
Proof.
  eexists.
  edestruct (X7_stream_failure_lists_the_primary ai (withPrimary "delta" "d1" [beta1])
               None flaky "delta" "d1" (Some [beta1]) start)
    as (Hrun & _ & Hlen);
    [reflexivity | reflexivity | reflexivity | reflexivity | reflexivity
    | reflexivity | reflexivity
    | eapply FailedStreamCons; [reflexivity | reflexivity | apply FailedStreamNil]
    | repeat constructor | ].
  split; [exact Hrun | exact Hlen].
Defined.

Lemma X8_witness :
  exists st1,
    generateTextStream ai (textOptions (WithAdapter "alpha" "a1" (Some [beta1]))) start
    = ([] ++ ([] ++ []),
       inr (JsError (allAdaptersFailedMessage "generateTextStream"
                       (mkFailure "alpha" "a1" (asErrorMessage (JsError "alpha is down"))
                          :: failuresOf [beta1] [JsError "beta is down"]))),
       st1)
    /\ List.length
         (mkFailure "alpha" "a1" (asErrorMessage (JsError "alpha is down"))
            :: failuresOf [beta1] [JsError "beta is down"])
       = 1 + List.length [beta1].
Proof.
  eexists.
  edestruct (X8_text_stream_failure_lists_the_primary ai
               (textOptions (WithAdapter "alpha" "a1" (Some [beta1])))
               "alpha" "a1" (Some [beta1]) start)
    as (Hrun & Hlen);
    [reflexivity | reflexivity | reflexivity
    | eapply FailedStreamCons; [reflexivity | reflexivity | apply FailedStreamNil]
    | repeat constructor | ].
  split; [exact Hrun | exact Hlen].
Defined.

Lemma X10_witness :
  exists st2,
    chatStream ai (fallbackOnly [delta1; gamma1]) start
    = (([hello; world_] ++ [])
         ++ chunksOf
              (yields [ContentChunk meta0 "hi from gamma" "hi from gamma"
                         (Some "assistant"); stop] SDone),
       inl tt, st2).
Proof.
  eexists.
  eapply (X10_stream_first_success ai (fallbackOnly [delta1; gamma1]) None
            (up "hi from gamma") (Some [delta1; gamma1]) [delta1] [] gamma1 start _ _ _
            (yields [ContentChunk meta0 "hi from gamma" "hi from gamma"
                       (Some "assistant"); stop] SDone)).
  - reflexivity.
  - reflexivity.
  - reflexivity.
  - reflexivity.
  - eapply FailedStreamCons; [reflexivity | reflexivity | apply FailedStreamNil].
  - repeat constructor.
  - reflexivity.
  - reflexivity.
  - reflexivity.
  - repeat constructor.
Defined.

Lemma X11_witness :
  generateTextStream ai (textOptions (WithAdapter "gamma" "g1" None)) start
  = (["hi from gamma"], inl tt, recordCall "gamma" "g1" 1 start).
Proof.
  destruct (X11_text_chunks_are_all_forwarded ai
              (textOptions (WithAdapter "gamma" "g1" None)) (up "hi from gamma")
              "gamma" "g1" None start (yields ["hi from gamma"] SDone) 1
              eq_refl eq_refl eq_refl) as [_ Hrun].
  apply Hrun. reflexivity.
Defined.

Lemma X12_witness :
  exists rs,
    streamRound (yields [fragmentA1; fragmentB; fragmentA2]
                   (SYield (DoneChunk meta0 (Some "tool_calls")) SDone)) newRound
    = ([fragmentA1; fragmentB; fragmentA2] ++ [DoneChunk meta0 (Some "tool_calls")],
       inl rs)
    /\ map_get (toolCallsMap rs) 0 = Some (mkPending "call_a" "lookup" "{q:7}")
    /\ map Some (roundToolCalls rs)
       = [Some (mkToolCall "call_a" "lookup" "{q:7}");
          Some (mkToolCall "call_b" "other" "{}")].
Proof.
  destruct (X12_fragments_are_assembled [fragmentA1; fragmentB; fragmentA2] meta0)
    as (rs & Hrun & Hget & Hcalls).
  - repeat constructor.
  - exists rs. split; [exact Hrun|]. split; [apply Hget | exact Hcalls].
Defined.

Lemma X13_witness :
  exists pushed out res st',
    executeToolCalls (Some [Own lookupTool]) "k1" [lookupCall] start
    = (pushed, out, res, st')
    /\ List.length out <= List.length pushed
    /\ List.length pushed <= List.length [lookupCall]
    /\ calls st' = calls start.
Proof.
  eexists. eexists. eexists. eexists. split; [reflexivity|].
  edestruct (X13_tool_round_invariants (Some [Own lookupTool]) "k1" [lookupCall] start)
    as (_ & _ & Hout & Hpushed & _ & Hcalls & _); [reflexivity|].
  split; [exact Hout|]. split; [exact Hpushed | exact Hcalls].
Defined.



Lemma X16_witness :
  chatStream ai (chatOptions (WithAdapter "gamma" "g1" None) (Some ["lookup"]) None) start
  = ([ContentChunk meta0 "hi from gamma" "hi from gamma" (Some "assistant"); stop],
     inl tt, recordCall "gamma" "g1" 1 start).
Proof.
  apply (X16_tool_mode_passes_a_plain_answer_through ai
           (chatOptions (WithAdapter "gamma" "g1" None) (Some ["lookup"]) None)
           (mkPlan false "gamma" "g1" None) (Some [Own lookupTool]) (up "hi from gamma")
           start
           (yields [ContentChunk meta0 "hi from gamma" "hi from gamma" (Some "assistant");
                    stop] SDone) 1).
  - reflexivity.
  - reflexivity.
  - reflexivity.
  - reflexivity.
  - vm_compute. lia.
  - reflexivity.
  - repeat constructor.
Defined.

Lemma X17_witness :
  chatStream ai (chatOptions (WithAdapter "asker" "k1" None) (Some ["lookup"]) (Some 0%Z))
    start
  = ([], inl tt, start).
Proof.
  apply (X17_no_round_for_non_positive_maximum ai
           (chatOptions (WithAdapter "asker" "k1" None) (Some ["lookup"]) (Some 0%Z))
           (mkPlan false "asker" "k1" None) (Some [Own lookupTool]) (Own asker) 0%Z start);
    reflexivity.
Defined.

Lemma X18_witness :
  exists new h',
    addAdapter 2 "1" (up "one") heap0 = Some (new, h')
    /\ exists ai',
         instanceAt h' new = Some ai'
         /\ getAdapter ai' "1" = inl (Own (up "one"))
         /\ adapterNames ai' = ["1"; "alpha"]
         /\ getTool ai' "toString" = inl (Inherited "toString")
         /\ getTool ai' "lookup" = inr (JsError (toolNotFoundMessage "lookup" [])).
Proof.
  assert (Hadd : exists new h',
             addAdapter 2 "1" (up "one") heap0 = Some (new, h')).
  { vm_compute. eexists. eexists. reflexivity. }
  destruct Hadd as (new & h' & Hadd). exists new, h'. split; [exact Hadd|].
  destruct (X18_lookup_after_addAdapter heap0 h' 2 new "1" (up "one")
              instance0 eq_refl Hadd) as (ai' & Hinst & Hget & _ & Hnames & _ & Htools).
  exists ai'. split; [exact Hinst|]. split; [exact Hget|]. split; [exact Hnames|].
  split; [exact (Htools "toString") | exact (Htools "lookup")].
Defined.

Lemma X19_witness :
  addAdapter 2 "beta" (down "beta is down") heap0 = Some (fst afterBeta, snd afterBeta)
  /\ addAdapter (fst afterBeta) "gamma" (up "hi") (snd afterBeta)
     = Some (fst afterGamma, snd afterGamma)
  /\ instanceAt (snd afterGamma) (fst afterGamma)
     = Some (mkAI (obj_set (obj_set (adapters instance0) "beta" (down "beta is down"))
                     "gamma" (up "hi")) None [])
  /\ instanceAt (snd afterGamma) 2 = Some instance0.
Proof.
  assert (Hadd1 : addAdapter 2 "beta" (down "beta is down") heap0
                  = Some (fst afterBeta, snd afterBeta)) by (vm_compute; reflexivity).
  assert (Hadd2 : addAdapter (fst afterBeta) "gamma" (up "hi") (snd afterBeta)
                  = Some (fst afterGamma, snd afterGamma)) by (vm_compute; reflexivity).
  split; [exact Hadd1|]. split; [exact Hadd2|].
  destruct (X19_addAdapter_composes heap0 (snd afterBeta) (snd afterGamma) 2
              (fst afterBeta) (fst afterGamma) "beta" "gamma"
              (down "beta is down") (up "hi") instance0 eq_refl Hadd1 Hadd2)
    as (Hlast & _ & Hthis & _).
  split; [exact Hlast | exact Hthis].
Defined.

Lemma X9_witness :
  forwardUntilError chunkError
    (yields [ContentChunk meta0 "hi from gamma" "hi from gamma" (Some "assistant"); stop]
       SDone)
  = (chunksOf
       (yields [ContentChunk meta0 "hi from gamma" "hi from gamma" (Some "assistant");
                stop] SDone),
     None).
Proof.
  destruct (X9_attempt_forwards_a_prefix chunkError
              (yields [ContentChunk meta0 "hi from gamma" "hi from gamma"
                         (Some "assistant"); stop] SDone)) as (_ & _ & Hall).
  apply Hall. reflexivity.
Defined.

Lemma X20_witness :
  allMessages [userMessage] = systemMessage :: [userMessage]
  /\ allMessages [systemMessage; userMessage] = [systemMessage; userMessage].
Proof.
  split.
  - destruct (X20_allMessages_starts_with_system [userMessage])
      as (_ & _ & _ & _ & Hadd).
    apply Hadd. reflexivity.
  - destruct (X20_allMessages_starts_with_system [systemMessage; userMessage])
      as (_ & _ & _ & Hkeep & _).
    apply Hkeep. reflexivity.
Defined.

Lemma X22_witness :
  exists new,
    calls (snd (chatStream ai (withPrimary "delta" "d1" [beta1; gamma1]) start))
    = calls start ++ new
    /\ new `sublist_of`
         plannedCalls ai (chat_target (withPrimary "delta" "d1" [beta1; gamma1])).
Proof.
  destruct (X22_stream_calls_follow_the_plan ai) as [Hchat _].
  apply (Hchat (withPrimary "delta" "d1" [beta1; gamma1]) None start);
    reflexivity.
Defined.

End Runs.
